(** * Wallet Tagger: address recognition, DOM annotation and hover panel

  A shallow embedding of the content script of the extension
  ([src/utils/address.ts], [src/content/index.ts]) together with the
  properties the specification states about it.

  - [Js]: JavaScript strings as lists of characters, with the string
    methods the code calls.
  - [Regex]: the backtracking matcher for the regular expressions the
    code uses (sequences of bounded, greedy character-class repetitions,
    alternated at top level), with [exec] and the global [exec] loop.
  - [Address]: [utils/address.ts].
  - [Dom], [Content]: the DOM tree, the annotation walk ([scanPage]) and
    the handler of [TAGS_UPDATED].
  - [Hover]: the hover panel, its two timers and the pending request.
  - [Arkham]: the label import of the Arkham adapter.
  - [Observer]: the debounced rescan of [observeDOM].
  - [ArkhamPage], [Snowscan]: the import button and the links of the
    Arkham page, the pages of the SnowScan notes.

  The definitions come first, then the vocabulary of the statements, then
  the facts, section by section. *)

From Stdlib Require Import String.
From Stdlib Require Import Ascii List Arith Bool Lia.
Import ListNotations.

(* ===================================================================== *)
(** * JavaScript strings *)
(* ===================================================================== *)

Module Js.

(** A string is the list of its code units, here the code units below
    256 (ASCII and Latin-1); positions are list positions. *)
Definition jsstring := list ascii.

Definition str (s : string) : jsstring := list_ascii_of_string s.
Arguments str s%_string.

Definition eqb (a b : jsstring) : bool :=
  if list_eq_dec ascii_dec a b then true else false.

Definition inRange (lo hi : nat) (c : ascii) : bool :=
  (lo <=? nat_of_ascii c) && (nat_of_ascii c <=? hi).

(** [String.prototype.toLowerCase], one code unit at a time: 'A'..'Z' and
    the capital letters of Latin-1 (U+00C0..U+00DE without the
    multiplication sign U+00D7) move up by 32, every other code unit below
    256 is kept. *)
Definition lowerChar (c : ascii) : ascii :=
  if inRange 65 90 c || (inRange 192 222 c && negb (nat_of_ascii c =? 215))
  then ascii_of_nat (nat_of_ascii c + 32)
  else c.

Definition toLowerCase (s : jsstring) : jsstring := map lowerChar s.

(** [s.slice(a, b)] for [0 <= a], [0 <= b]. *)
Definition slice (s : jsstring) (a b : nat) : jsstring :=
  firstn (b - a) (skipn a s).

(** [s.slice(a)] for [0 <= a]. *)
Definition sliceFrom (s : jsstring) (a : nat) : jsstring := skipn a s.

(** [s.slice(-n)]: the last [n] characters, the whole string when it is
    shorter; [-0] is [0], so [s.slice(-0)] is the whole string. *)
Definition sliceLast (s : jsstring) (n : nat) : jsstring :=
  if n =? 0 then s else skipn (length s - n) s.

Fixpoint startsWith (p s : jsstring) : bool :=
  match p, s with
  | [], _ => true
  | a :: p', b :: s' => Ascii.eqb a b && startsWith p' s'
  | _ :: _, [] => false
  end.

(** [s.includes(p)]. *)
Fixpoint includes (s p : jsstring) : bool :=
  startsWith p s ||
  match s with
  | [] => false
  | _ :: s' => includes s' p
  end.

(** Truthiness of a string: the empty string is falsy. *)
Definition truthy (s : jsstring) : bool :=
  match s with [] => false | _ => true end.

End Js.

Import Js.

(* ===================================================================== *)
(** * Regular expressions *)
(* ===================================================================== *)

Module Regex.

(** One item of a pattern: a character class repeated between [lo] and
    [hi] times, greedily (a literal character is the class of that
    character with [lo = hi = 1]). *)
Record item := Item { cls : ascii -> bool; lo : nat; hi : nat }.

(** A pattern is a sequence of items; a regex is a list of alternative
    patterns, tried in order at each position. *)
Definition pattern := list item.
Definition regex := list pattern.

(** The length of the longest run of class characters at the head of
    [s], at most [n]. *)
Fixpoint spanClass (c : ascii -> bool) (n : nat) (s : jsstring) : nat :=
  match n, s with
  | S n', a :: s' => if c a then S (spanClass c n' s') else 0
  | _, _ => 0
  end.

(** Backtracking of one greedy item: try [n] repetitions, then [n - 1],
    down to [lo], each time running the continuation [k] (the rest of the
    pattern) on what is left. The result lists what each item matched. *)
Fixpoint tryDown (k : jsstring -> option (list jsstring)) (lo : nat)
         (s : jsstring) (n : nat) : option (list jsstring) :=
  if n <? lo then None
  else
    match k (skipn n s) with
    | Some caps => Some (firstn n s :: caps)
    | None =>
        match n with
        | 0 => None
        | S n' => tryDown k lo s n'
        end
    end.

Fixpoint matchHere (p : pattern) (s : jsstring) : option (list jsstring) :=
  match p with
  | [] => Some []
  | it :: p' => tryDown (matchHere p') (lo it) s (spanClass (cls it) (hi it) s)
  end.

Fixpoint matchAlts (r : regex) (s : jsstring) : option (list jsstring) :=
  match r with
  | [] => None
  | p :: r' =>
      match matchHere p s with
      | Some caps => Some caps
      | None => matchAlts r' s
      end
  end.

(** A successful match: where it starts and what each item matched. *)
Record result := Result { index : nat; groups : list jsstring }.

(** [match[0]]. *)
Definition matched (m : result) : jsstring := concat (groups m).

(** [match[i]] for a capture group put around item [i]. *)
Definition group (m : result) (i : nat) : jsstring := nth i (groups m) [].

Definition lastIndexAfter (m : result) : nat := index m + length (matched m).

(** The leftmost position of [s], numbered from [i], at which the regex
    matches. *)
Fixpoint searchFrom (r : regex) (s : jsstring) (i : nat) : option result :=
  match matchAlts r s with
  | Some caps => Some (Result i caps)
  | None =>
      match s with
      | [] => None
      | _ :: s' => searchFrom r s' (S i)
      end
  end.

(** [re.exec(s)] with [re.lastIndex = lastIndex]; for a regex without
    the [g] flag [lastIndex] is 0. *)
Definition exec (r : regex) (s : jsstring) (lastIndex : nat) : option result :=
  if length s <? lastIndex then None
  else searchFrom r (skipn lastIndex s) lastIndex.

(** [s.match(re)] for a regex without the [g] flag. *)
Definition match_ (r : regex) (s : jsstring) : option result := exec r s 0.

(** The matches [while ((m = re.exec(s)) !== null)] runs through, for a
    regex with the [g] flag whose matches are never empty. The loop is
    cut after [fuel] rounds; for the pattern of full addresses
    [execLoop_full_fuel] shows that [S (length s)] rounds are never used
    up. *)
Fixpoint execLoop (fuel : nat) (r : regex) (s : jsstring) (lastIndex : nat)
  : list result :=
  match fuel with
  | 0 => []
  | S fuel' =>
      match exec r s lastIndex with
      | None => []
      | Some m => m :: execLoop fuel' r s (lastIndexAfter m)
      end
  end.

Definition execAll (r : regex) (s : jsstring) : list result :=
  execLoop (S (length s)) r s 0.

(** ** Character classes of the patterns in the code (all of them carry
    the [i] flag) *)

Definition isChar (a : ascii) (c : ascii) : bool := Ascii.eqb a c.

(** [x] under the [i] flag. *)
Definition isX (c : ascii) : bool := Ascii.eqb c "x" || Ascii.eqb c "X".

(** [[a-fA-F0-9]]. *)
Definition isHex (c : ascii) : bool :=
  inRange 48 57 c || inRange 97 102 c || inRange 65 70 c.

Definition lit (a : ascii) : item := Item (isChar a) 1 1.
Definition litX : item := Item isX 1 1.
Definition hexRep (lo hi : nat) : item := Item isHex lo hi.
Definition dots (lo hi : nat) : item := Item (isChar ".") lo hi.

End Regex.

Import Regex.

(* ===================================================================== *)
(** * utils/address.ts *)
(* ===================================================================== *)

Module Address.

(** [/0x[a-fA-F0-9]{40}/], used with the flags [gi] and [i]. *)
Definition FULL_ADDRESS_REGEX : regex := [[lit "0"; litX; hexRep 40 40]].

Definition normalizeAddress (address : jsstring) : jsstring :=
  toLowerCase address.

(** [/^0x[a-fA-F0-9]{40}$/i.test(address)]. *)
Definition isValidAddress (address : jsstring) : bool :=
  match matchAlts FULL_ADDRESS_REGEX address with
  | Some caps => length (concat caps) =? length address
  | None => false
  end.

Definition truncateAddress (address : jsstring) (startChars endChars : nat)
  : jsstring :=
  if length address <=? startChars + endChars + 2 then address
  else slice address 0 (startChars + 2) ++ str "..." ++ sliceLast address endChars.

Record AddressMatch := mkMatch {
  address : jsstring;
  fullMatch : jsstring;
  startIndex : nat;
  endIndex : nat;
  isTruncated : bool
}.

Definition toMatch (m : result) : AddressMatch :=
  {| address := normalizeAddress (matched m);
     fullMatch := matched m;
     startIndex := index m;
     endIndex := index m + length (matched m);
     isTruncated := false |}.

Definition findAddressesInText (text : jsstring) : list AddressMatch :=
  map toMatch (execAll FULL_ADDRESS_REGEX text).

(** [/0x([a-fA-F0-9]{3,8})\.{2,3}([a-fA-F0-9]{3,8})/i]; the two groups
    are items 2 and 4. *)
Definition TRUNCATED_REGEX : regex :=
  [[lit "0"; litX; hexRep 3 8; dots 2 3; hexRep 3 8]].

Fixpoint findKnown (prefix suffix : jsstring) (knownAddresses : list jsstring)
  : option jsstring :=
  match knownAddresses with
  | [] => None
  | address :: rest =>
      let normalized := normalizeAddress address in
      if Js.eqb (slice normalized 2 (2 + length prefix)) prefix
         && Js.eqb (sliceLast normalized (length suffix)) suffix
      then Some normalized
      else findKnown prefix suffix rest
  end.

Definition matchTruncatedAddress (truncated : jsstring)
           (knownAddresses : list jsstring) : option jsstring :=
  match match_ TRUNCATED_REGEX truncated with
  | None => None
  | Some m =>
      let prefix := toLowerCase (group m 2) in
      let suffix := toLowerCase (group m 4) in
      findKnown prefix suffix knownAddresses
  end.

End Address.

Import Address.


(* ===================================================================== *)
(** * The DOM *)
(* ===================================================================== *)

Module Dom.

#[local] Unset Elimination Schemes.

(** A node of the page: a text node, or an element with its tag (its
    lower-case local name), class list, attributes and children. Event
    listeners are not part of the tree. *)
Inductive node :=
| Text (data : jsstring)
| Elem (tag : jsstring) (classes : list jsstring)
       (attrs : list (jsstring * jsstring)) (children : list node).

#[local] Set Elimination Schemes.

(** An element as [parentElement] reaches it from a descendant: the
    element without its children. [isBody] tells [document.body] from the
    other elements. *)
Record element := mkElement {
  tagName : jsstring;
  classList : list jsstring;
  attributes : list (jsstring * jsstring);
  isBody : bool
}.

(** [classList.contains(c)]. *)
Definition contains (classes : list jsstring) (c : jsstring) : bool :=
  existsb (Js.eqb c) classes.

(** [classList.add(c)]. *)
Definition classAdd (c : jsstring) (classes : list jsstring) : list jsstring :=
  if contains classes c then classes else classes ++ [c].


(** [getAttribute(name)]; [None] is [null]. *)
Fixpoint getAttribute (attrs : list (jsstring * jsstring)) (name : jsstring)
  : option jsstring :=
  match attrs with
  | [] => None
  | (k, v) :: rest => if Js.eqb name k then Some v else getAttribute rest name
  end.

Definition getAttributeNames (attrs : list (jsstring * jsstring)) : list jsstring :=
  map fst attrs.

(** [getAttribute(name) || '']. *)
Definition attributeOrEmpty (attrs : list (jsstring * jsstring)) (name : jsstring)
  : jsstring :=
  match getAttribute attrs name with
  | Some v => v
  | None => []
  end.

(** [el.closest(tag)] on the chain of [el] and its ancestors. *)
Fixpoint closest (tag : jsstring) (chain : list element) : option element :=
  match chain with
  | [] => None
  | el :: up => if Js.eqb (tagName el) tag then Some el else closest tag up
  end.

(** The getter of [textContent]. *)
Fixpoint textContent (n : node) : jsstring :=
  match n with
  | Text s => s
  | Elem _ _ _ cs => concat (map textContent cs)
  end.

Definition textContents (ns : list node) : jsstring :=
  concat (map textContent ns).

(** The setter of [textContent] on a new element: one text node, none for
    the empty string. *)
Definition setTextContent (s : jsstring) : list node :=
  match s with
  | [] => []
  | _ => [Text s]
  end.

(** The document: its root element [<html>] and the body. *)
Record document := mkDocument {
  documentElement : element;
  body : node
}.

End Dom.

Import Dom.

(* ===================================================================== *)
(** * content/index.ts: the annotation walk *)
(* ===================================================================== *)

Module Content.

Record tagData := mkTag { name : jsstring; entity : option jsstring }.

(** The module variables of the content script the walk reads. *)
Record env := mkEnv {
  enabled : bool;
  knownAddresses : list jsstring;
  tagCache : list (jsstring * tagData)
}.

(** [tagCache.get(key)]. *)
Fixpoint cacheGet (cache : list (jsstring * tagData)) (key : jsstring)
  : option tagData :=
  match cache with
  | [] => None
  | (k, v) :: rest => if Js.eqb key k then Some v else cacheGet rest key
  end.

Definition wt_processed : jsstring := str "wt-processed".
Definition wt_address_wrapper : jsstring := str "wt-address-wrapper".
Definition wt_address_text : jsstring := str "wt-address-text".

(** The classes [isAlreadyProcessed] looks for: the marker and the classes
    of the injected elements. *)
Definition markerClasses : list jsstring :=
  [wt_processed; wt_address_wrapper; wt_address_text; str "wt-indicator";
   str "wt-control-panel"; str "wt-control-panel-bridge";
   str "wt-panel-header"; str "wt-panel-address"].

Definition hasMarker (classes : list jsstring) : bool :=
  existsb (contains classes) markerClasses.

(** [isAlreadyProcessed(element)], on the chain of the element and its
    ancestors. *)
Fixpoint isAlreadyProcessed (chain : list element) : bool :=
  match chain with
  | [] => false
  | element :: up => hasMarker (classList element) || isAlreadyProcessed up
  end.

Definition skippedTags : list jsstring :=
  [str "script"; str "style"; str "noscript"; str "textarea"; str "input"].

(** The filter of the tree walker, for a text node whose parent chain is
    [chain]: [true] is [FILTER_ACCEPT]. *)
Definition acceptNode (chain : list element) : bool :=
  match chain with
  | [] => false
  | parent :: _ =>
      if existsb (Js.eqb (toLowerCase (tagName parent))) skippedTags then false
      else if isAlreadyProcessed chain then false
      else true
  end.

Definition createAddressElement (e : env) (address displayText : jsstring) : node :=
  let normalizedAddr := normalizeAddress address in
  match cacheGet (tagCache e) normalizedAddr with
  | Some tagData =>
      Elem (str "span") (classAdd (str "wt-has-tag") [wt_address_wrapper])
           [(str "data-address", address)]
           [Elem (str "span") [str "wt-tag-label"] [] (setTextContent (name tagData));
            Elem (str "span") [str "wt-tag-short-address"] []
                 (setTextContent (str " (" ++ slice address 0 6 ++ str ")"))]
  | None =>
      Elem (str "span") [wt_address_wrapper]
           [(str "data-address", address)]
           [Elem (str "span") [wt_address_text] [] (setTextContent displayText)]
  end.

(** The loop of [processTextNode] over the matches, from [lastIndex] on. *)
Fixpoint buildFragment (e : env) (text : jsstring) (lastIndex : nat)
         (matches : list AddressMatch) : list node :=
  match matches with
  | [] =>
      if lastIndex <? length text then [Text (sliceFrom text lastIndex)] else []
  | m :: rest =>
      (if lastIndex <? startIndex m
       then [Text (slice text lastIndex (startIndex m))] else [])
      ++ createAddressElement e (address m) (fullMatch m)
      :: buildFragment e text (endIndex m) rest
  end.

(** What [wrapWithAddressElement] puts in place of a text node that has a
    parent (for one that has none it returns at once;
    [processTruncatedAddresses], which calls it, has returned before). *)
Definition wrapWithAddressElement (e : env) (text : jsstring)
           (startIndex length_ : nat) (fullAddress : jsstring) : list node :=
  (if 0 <? startIndex then [Text (slice text 0 startIndex)] else [])
  ++ [createAddressElement e fullAddress
        (slice text startIndex (startIndex + length_))]
  ++ (if startIndex + length_ <? length text
      then [Text (sliceFrom text (startIndex + length_))] else []).

(** [attr.match(addressRegex)] for an attribute value that may be [null]
    or empty, normalized. *)
Definition addressIn (value : option jsstring) : option jsstring :=
  match value with
  | Some v =>
      if truthy v then
        match match_ FULL_ADDRESS_REGEX v with
        | Some m => Some (normalizeAddress (matched m))
        | None => None
        end
      else None
  | None => None
  end.

Fixpoint firstAddressIn (values : list (option jsstring)) : option jsstring :=
  match values with
  | [] => None
  | v :: rest =>
      match addressIn v with
      | Some a => Some a
      | None => firstAddressIn rest
      end
  end.

Definition attributesToCheck (el : element) : list (option jsstring) :=
  map (getAttribute (attributes el))
      [str "title"; str "data-address"; str "data-original-title";
       str "data-clipboard-text"; str "data-bs-title"].

(** An href that points at a transaction. *)
Definition isTxHref (href : jsstring) : bool :=
  includes href (str "/tx/") || includes href (str "/transaction/").

Definition hrefAddress (el : element) : option jsstring :=
  match getAttribute (attributes el) (str "href") with
  | Some href =>
      if truthy href && negb (isTxHref href) then addressIn (Some href) else None
  | None => None
  end.

Definition dataAttributesOf (el : element) : list (option jsstring) :=
  map (getAttribute (attributes el))
      (filter (startsWith (str "data-")) (getAttributeNames (attributes el))).

(** [findAddressInAttributes(element)] on the chain of the element and its
    ancestors; the loop stops at [document.body]. *)
Fixpoint findAddressInAttributes (chain : list element) : option jsstring :=
  match chain with
  | [] => None
  | element :: up =>
      if isBody element then None
      else
        match firstAddressIn (attributesToCheck element) with
        | Some a => Some a
        | None =>
            match hrefAddress element with
            | Some a => Some a
            | None =>
                match firstAddressIn (dataAttributesOf element) with
                | Some a => Some a
                | None => findAddressInAttributes up
                end
            end
        end
  end.

(** [/0x[a-fA-F0-9]{2,10}(\.{2,3})[a-fA-F0-9]{2,10}|0x[a-fA-F0-9]{4,8}/i] *)
Definition ATTRIBUTE_TEXT_REGEX : regex :=
  [[lit "0"; litX; hexRep 2 10; dots 2 3; hexRep 2 10];
   [lit "0"; litX; hexRep 4 8]].

(** [/0x[a-fA-F0-9]{2,10}\.{2,3}[a-fA-F0-9]{2,10}/gi] *)
Definition truncatedRegex : regex :=
  [[lit "0"; litX; hexRep 2 10; dots 2 3; hexRep 2 10]].

(** [/\(0x[a-fA-F0-9]{3,6}\)/gi] *)
Definition shortRegex : regex :=
  [[lit "("; lit "0"; litX; hexRep 3 6; lit ")"]].

(** A [while ((m = re.exec(text)) !== null)] loop that returns at the
    first match [resolve] gives a truthy address for. *)
Fixpoint firstResolved (resolve : jsstring -> option jsstring)
         (ms : list result) : option (result * jsstring) :=
  match ms with
  | [] => None
  | m :: rest =>
      match resolve (matched m) with
      | Some a => if truthy a then Some (m, a) else firstResolved resolve rest
      | None => firstResolved resolve rest
      end
  end.

#[local] Unset Elimination Schemes.

(** A node with its identity: a text node that is in the document when
    the tree walker runs carries its number in document order, a text
    node created since carries none. *)
Inductive inode :=
| IText (id : option nat) (data : jsstring)
| IElem (tag : jsstring) (classes : list jsstring)
        (attrs : list (jsstring * jsstring)) (children : list inode).

Fixpoint erase (n : inode) : node :=
  match n with
  | IText _ s => Text s
  | IElem t cl at_ cs => Elem t cl at_ (map erase cs)
  end.

(** A node the walk has created. *)
Fixpoint created (n : node) : inode :=
  match n with
  | Text s => IText None s
  | Elem t cl at_ cs => IElem t cl at_ (map created cs)
  end.

Fixpoint numberList (f : nat -> node -> inode * nat) (k : nat) (cs : list node)
  : list inode * nat :=
  match cs with
  | [] => ([], k)
  | c :: r =>
      let '(c', k1) := f k c in
      let '(r', k2) := numberList f k1 r in
      (c' :: r', k2)
  end.

(** The text nodes numbered in document order, from [k] on. *)
Fixpoint number (k : nat) (n : node) : inode * nat :=
  match n with
  | Text s => (IText (Some k) s, S k)
  | Elem t cl at_ cs =>
      let '(cs', k') := numberList number k cs in
      (IElem t cl at_ cs', k')
  end.

(** The first loop of [scanPage]: [nodesToProcess], the text nodes the
    filter of the tree walker accepts, in document order. *)
Fixpoint nodesToProcess (chain : list element) (atBody : bool) (n : inode)
  : list nat :=
  match n with
  | IText _ _ => []
  | IElem t cl at_ cs =>
      let parent := mkElement t cl at_ atBody in
      flat_map (fun c =>
                  match c with
                  | IText (Some i) _ =>
                      if acceptNode (parent :: chain) then [i] else []
                  | IText None _ => []
                  | IElem _ _ _ _ => nodesToProcess (parent :: chain) false c
                  end) cs
  end.

(** The children of an element once the text node [id], if it is among
    them or below them, has been processed, and whether the element has
    been marked. *)
Fixpoint processAmong (below : inode -> inode)
         (process : jsstring -> list node * bool)
         (id : nat) (cs : list inode) : list inode * bool :=
  match cs with
  | [] => ([], false)
  | IText (Some i) s :: r =>
      let '(r', m2) := processAmong below process id r in
      if i =? id then
        let '(ns, m1) := process s in
        ((if m1 then map created ns else [IText (Some i) s]) ++ r', m1 || m2)
      else (IText (Some i) s :: r', m2)
  | IText None s :: r =>
      let '(r', m2) := processAmong below process id r in
      (IText None s :: r', m2)
  | c :: r =>
      let '(r', m2) := processAmong below process id r in
      (below c :: r', m2)
  end.

#[local] Set Elimination Schemes.

Section Walk.

(** [matchShortAddress] of [utils/address.ts], imported by the content
    script: the walk is parametric in it. *)
Variable matchShortAddress : jsstring -> list jsstring -> option jsstring.

(** The wrap [processTruncatedAddresses] decides on once the guards have
    passed: the position and length of the display text and the address. *)
Definition truncatedWrap (e : env) (chain : list element) (text : jsstring)
  : option (nat * nat * jsstring) :=
  let viaAttributes :=
    match findAddressInAttributes chain with
    | Some fullAddress =>
        if truthy fullAddress && includes text (str "0x") then
          match match_ ATTRIBUTE_TEXT_REGEX text with
          | Some m => Some (index m, length (matched m), fullAddress)
          | None => None
          end
        else None
    | None => None
    end in
  match viaAttributes with
  | Some w => Some w
  | None =>
      match firstResolved (fun t => matchTruncatedAddress t (knownAddresses e))
                          (execAll truncatedRegex text) with
      | Some (m, a) => Some (index m, length (matched m), a)
      | None =>
          match firstResolved (fun t => matchShortAddress t (knownAddresses e))
                              (execAll shortRegex text) with
          | Some (m, a) => Some (index m, length (matched m), a)
          | None => None
          end
      end
  end.

(** [textNode.parentElement] is not [null]: the chain of the parent and
    its ancestors is not empty. *)
Definition hasParent (chain : list element) : bool :=
  match chain with
  | [] => false
  | _ :: _ => true
  end.

(** [processTruncatedAddresses(textNode)]: the nodes that stand in place of
    the text node afterwards, and whether the parent was marked. [chain] is
    the parent of the text node and its ancestors, as they are now; the
    function returns at once for a text node without a parent. *)
Definition processTruncatedAddresses (e : env) (chain : list element)
           (text : jsstring)
  : list node * bool :=
  if negb (hasParent chain) || isAlreadyProcessed chain then ([Text text], false)
  else
    let href :=
      match closest (str "a") chain with
      | Some closestLink => attributeOrEmpty (attributes closestLink) (str "href")
      | None => []
      end in
    if isTxHref href then ([Text text], false)
    else
      match truncatedWrap e chain text with
      | Some (startIndex, length_, fullAddress) =>
          (wrapWithAddressElement e text startIndex length_ fullAddress, true)
      | None => ([Text text], false)
      end.

(** [processTextNode(textNode)], in the same terms: with matches and no
    parent the text node is left as it is. *)
Definition processTextNode (e : env) (chain : list element) (text : jsstring)
  : list node * bool :=
  match findAddressesInText text with
  | [] =>
      if 0 <? length (knownAddresses e)
      then processTruncatedAddresses e chain text
      else ([Text text], false)
  | matches =>
      if negb (hasParent chain) then ([Text text], false)
      else (buildFragment e text 0 matches, true)
  end.

(** The class list of an element some of whose text children the running
    walk has processed ([marked]) or not. *)
Definition marking (marked : bool) (classes : list jsstring) : list jsstring :=
  if marked then classAdd wt_processed classes else classes.

(** One round of the second loop of [scanPage]: [processTextNode] on the
    text node [id], wherever it is at or below [n] by now. *)
Fixpoint processTextNodeAt (e : env) (id : nat) (chain : list element)
         (atBody : bool) (n : inode) : inode :=
  match n with
  | IText i s => IText i s
  | IElem t cl at_ cs =>
      let parent := mkElement t cl at_ atBody in
      let '(cs', marked) :=
        processAmong (fun c => processTextNodeAt e id (parent :: chain) false c)
                     (fun s => processTextNode e (parent :: chain) s)
                     id cs in
      IElem t (marking marked cl) at_ cs'
  end.

(** The two loops of [scanPage] on the body: the text nodes get their
    numbers, the walker fills [nodesToProcess], and [processTextNode] runs
    on each of them in turn, on the tree as the rounds before have left
    it. *)
Definition scanBody (e : env) (above : list element) (body : node) : node :=
  let numbered := fst (number 0 body) in
  erase (fold_left (fun tree id => processTextNodeAt e id above true tree)
                   (nodesToProcess above true numbered) numbered).

(** [scanPage()]. With no body element there is nothing to walk. *)
Definition scanPage (e : env) (doc : document) : document :=
  if enabled e then
    match body doc with
    | Elem _ _ _ _ =>
        let html := documentElement doc in
        mkDocument html (scanBody e [html] (body doc))
    | Text _ => doc
    end
  else doc.






(** ** The two loops as one traversal

    What the two loops of [scanPage] come to, written as one recursion on
    the tree; [scanPage_scanPageWalk] shows that they agree. First the
    loop over the children of one element: [accept] is the answer of the
    walker's filter for the text children, [process] is [processTextNode]
    and [scanElem] the traversal below an element child, both given
    whether the element has been marked so far. *)
Fixpoint walk (accept : bool)
         (process : bool -> jsstring -> list node * bool)
         (scanElem : bool -> node -> node)
         (marked : bool) (cs : list node) : list node * bool :=
  match cs with
  | [] => ([], marked)
  | Text s :: rest =>
      if accept then
        let '(ns, m1) := process marked s in
        let '(rest', m2) := walk accept process scanElem (marked || m1) rest in
        (ns ++ rest', m2)
      else
        let '(rest', m2) := walk accept process scanElem marked rest in
        (Text s :: rest', m2)
  | c :: rest =>
      let c' := scanElem marked c in
      let '(rest', m2) := walk accept process scanElem marked rest in
      (c' :: rest', m2)
  end.

(** The traversal below one node. [nodesToProcess] is filled before any
    node is processed, so [acceptNode] sees every ancestor as it was before
    the walk ([before]); [processTextNode] sees the marks set so far
    ([now]). The children of an element are taken from left to right with
    the flag [marked] of their parent threaded through. *)
Fixpoint scanNode (e : env) (before now : list element) (atBody : bool)
         (n : node) : node :=
  match n with
  | Text s => Text s
  | Elem t cl at_ cs =>
      let parentBefore := mkElement t cl at_ atBody in
      let parentNow marked := mkElement t (marking marked cl) at_ atBody in
      let '(cs', marked) :=
        walk (acceptNode (parentBefore :: before))
             (fun marked s => processTextNode e (parentNow marked :: now) s)
             (fun marked c =>
                scanNode e (parentBefore :: before) (parentNow marked :: now)
                         false c)
             false cs in
      Elem t (marking marked cl) at_ cs'
  end.

(** [scanPage()] as that traversal. *)
Definition scanPageWalk (e : env) (doc : document) : document :=
  if enabled e then
    match body doc with
    | Elem _ _ _ _ =>
        let html := documentElement doc in
        mkDocument html (scanNode e [html] [html] true (body doc))
    | Text _ => doc
    end
  else doc.

End Walk.

End Content.

Import Content.

(* ===================================================================== *)
(** * content/index.ts: the hover panel *)
(* ===================================================================== *)

Module Hover.

(** What a pending timer runs: the arrow function [showControlPanel]
    gives to [setTimeout], which closes over [address], or the one of
    [hideControlPanelDelayed]. *)
Inductive callback :=
| ShowCallback (address : jsstring)
| HideCallback.

Record timer := mkTimer { timerId : nat; due : nat; action : callback }.

(** The module variables of the panel, and what the page and the browser
    hold for it: the clock (in ms), the pending timers in the order they
    were set, the [GET_TAGS] requests not answered yet (each one a call of
    [showControlPanelNow] suspended at its [await]), the panel elements
    attached to the body (by element id, with the address they were built
    for) and, for the statements only, the addresses panels were rendered
    for since the start. *)
Record state := mkState {
  controlPanel : option nat;
  controlPanelBridge : option nat;
  hideTimeout : option nat;
  showTimeout : option nat;
  currentPanelAddress : option jsstring;
  pendingShowAddress : option jsstring;
  clock : nat;
  nextId : nat;
  timers : list timer;
  requests : list jsstring;
  panels : list (nat * jsstring);
  rendered : list jsstring
}.

(** Timer ids start at 1: an id is truthy. *)
Definition initial : state :=
  mkState None None None None None None 0 1 [] [] [] [].

Definition isSome {A} (o : option A) : bool :=
  match o with Some _ => true | None => false end.

(** [a === b] for a value that is a string or [null] and a string. *)
Definition strictEq (a : option jsstring) (b : jsstring) : bool :=
  match a with Some x => Js.eqb x b | None => false end.

Definition setHideTimeout (v : option nat) (s : state) : state :=
  mkState (controlPanel s) (controlPanelBridge s) v (showTimeout s)
          (currentPanelAddress s) (pendingShowAddress s) (clock s) (nextId s)
          (timers s) (requests s) (panels s) (rendered s).

Definition setShowTimeout (v : option nat) (s : state) : state :=
  mkState (controlPanel s) (controlPanelBridge s) (hideTimeout s) v
          (currentPanelAddress s) (pendingShowAddress s) (clock s) (nextId s)
          (timers s) (requests s) (panels s) (rendered s).

Definition setPending (v : option jsstring) (s : state) : state :=
  mkState (controlPanel s) (controlPanelBridge s) (hideTimeout s) (showTimeout s)
          (currentPanelAddress s) v (clock s) (nextId s)
          (timers s) (requests s) (panels s) (rendered s).

Definition setTimers (v : list timer) (s : state) : state :=
  mkState (controlPanel s) (controlPanelBridge s) (hideTimeout s) (showTimeout s)
          (currentPanelAddress s) (pendingShowAddress s) (clock s) (nextId s)
          v (requests s) (panels s) (rendered s).

Definition setClock (v : nat) (s : state) : state :=
  mkState (controlPanel s) (controlPanelBridge s) (hideTimeout s) (showTimeout s)
          (currentPanelAddress s) (pendingShowAddress s) v (nextId s)
          (timers s) (requests s) (panels s) (rendered s).

Definition setRequests (v : list jsstring) (s : state) : state :=
  mkState (controlPanel s) (controlPanelBridge s) (hideTimeout s) (showTimeout s)
          (currentPanelAddress s) (pendingShowAddress s) (clock s) (nextId s)
          (timers s) v (panels s) (rendered s).

(** [window.setTimeout(cb, delay)]: the new state and the id. *)
Definition setTimeout (cb : callback) (delay : nat) (s : state) : state * nat :=
  (mkState (controlPanel s) (controlPanelBridge s) (hideTimeout s) (showTimeout s)
           (currentPanelAddress s) (pendingShowAddress s) (clock s) (S (nextId s))
           (timers s ++ [mkTimer (nextId s) (clock s + delay) cb])
           (requests s) (panels s) (rendered s),
   nextId s).

Definition clearTimeout (id : nat) (s : state) : state :=
  setTimers (filter (fun t => negb (timerId t =? id)) (timers s)) s.

(** [if (hideTimeout) { clearTimeout(hideTimeout); hideTimeout = null; }] *)
Definition cancelHide (s : state) : state :=
  match hideTimeout s with
  | Some id => setHideTimeout None (clearTimeout id s)
  | None => s
  end.

(** [if (showTimeout) { clearTimeout(showTimeout); showTimeout = null; }] *)
Definition cancelShow (s : state) : state :=
  match showTimeout s with
  | Some id => setShowTimeout None (clearTimeout id s)
  | None => s
  end.

Definition showControlPanel (address : jsstring) (s : state) : state :=
  if strictEq (currentPanelAddress s) address && isSome (controlPanel s)
  then cancelHide s
  else
    let s1 := cancelShow (cancelHide s) in
    let s2 := setPending (Some address) s1 in
    let '(s3, id) := setTimeout (ShowCallback address) 300 s2 in
    setShowTimeout (Some id) s3.

Definition hideControlPanelDelayed (s : state) : state :=
  let '(s1, id) := setTimeout HideCallback 500 s in
  setHideTimeout (Some id) s1.

(** [controlPanel.remove()] and [controlPanelBridge.remove()], each under
    its [if]. *)
Definition removePanel (s : state) : list (nat * jsstring) :=
  match controlPanel s with
  | Some id => filter (fun p => negb (fst p =? id)) (panels s)
  | None => panels s
  end.

(** The rest of [showControlPanelNow] once the tags have arrived: the old
    panel and bridge are removed, the new ones are built and attached. *)
Definition showControlPanelNow (address : jsstring) (s : state) : state :=
  mkState (Some (nextId s)) (Some (S (nextId s))) (hideTimeout s) (showTimeout s)
          (Some address) (pendingShowAddress s) (clock s) (S (S (nextId s)))
          (timers s) (requests s)
          (removePanel s ++ [(nextId s, address)])
          (rendered s ++ [address]).

(** The body of the hide timer, of the click listener of the document
    past its tests on the target, and (without the address) of the timer
    the save button sets. *)
Definition closePanel (s : state) : state :=
  mkState None None (hideTimeout s) (showTimeout s)
          None (pendingShowAddress s) (clock s) (nextId s)
          (timers s) (requests s) (removePanel s) (rendered s).

Definition runCallback (cb : callback) (s : state) : state :=
  match cb with
  | ShowCallback address =>
      if strictEq (pendingShowAddress s) address
      then setRequests (requests s ++ [address]) s
      else s
  | HideCallback => closePanel s
  end.

(** The pending timer to run next if time goes on to [deadline]: the one
    due first, the one set first among those. *)
Fixpoint earliest (deadline : nat) (ts : list timer) : option timer :=
  match ts with
  | [] => None
  | t :: rest =>
      match earliest deadline rest with
      | Some u =>
          if due t <=? deadline
          then (if due u <? due t then Some u else Some t)
          else Some u
      | None => if due t <=? deadline then Some t else None
      end
  end.

(** The timers due by [deadline] fire one after the other. No callback
    sets a timer, so there are at most [fuel = length (timers s)] of
    them. *)
Fixpoint fire (fuel deadline : nat) (s : state) : state :=
  match fuel with
  | 0 => s
  | S fuel' =>
      match earliest deadline (timers s) with
      | None => s
      | Some t =>
          fire fuel' deadline
               (runCallback (action t)
                  (setClock (Nat.max (clock s) (due t)) (clearTimeout (timerId t) s)))
      end
  end.

(** What happens to the panel. [MouseEnter a] is [mouseenter] on an
    element that carries the listeners for address [a]; [MouseLeave] is
    [mouseleave] on such an element, on the panel or on the bridge;
    [PanelEnter] is [mouseenter] on the panel or the bridge; [ClickOutside]
    is a click that passes the target tests of the document's listener;
    [Elapse ms] lets [ms] milliseconds pass; [Response] is the answer to
    the oldest pending [GET_TAGS] request. *)
Inductive event :=
| MouseEnter (address : jsstring)
| MouseLeave
| PanelEnter
| ClickOutside
| Elapse (ms : nat)
| Response.

Definition step (s : state) (ev : event) : state :=
  match ev with
  | MouseEnter address => showControlPanel address s
  | MouseLeave => hideControlPanelDelayed s
  | PanelEnter => if isSome (controlPanel s) then cancelHide s else s
  | ClickOutside => if isSome (controlPanel s) then closePanel s else s
  | Elapse ms =>
      setClock (clock s + ms) (fire (length (timers s)) (clock s + ms) s)
  | Response =>
      match requests s with
      | [] => s
      | address :: rest => showControlPanelNow address (setRequests rest s)
      end
  end.

Definition run (s : state) (evs : list event) : state := fold_left step evs s.

(** The address of the panel on the page, if there is one. *)
Definition shownAddress (s : state) : option jsstring :=
  match controlPanel s with
  | Some id =>
      match filter (fun p => fst p =? id) (panels s) with
      | (_, a) :: _ => Some a
      | [] => None
      end
  | None => None
  end.

End Hover.

(* ===================================================================== *)
(** * content/index.ts: the Arkham import *)
(* ===================================================================== *)

Module Arkham.

Record Tag := mkTag {
  address : jsstring;
  name : jsstring;
  entity : option jsstring;
  source : jsstring
}.

(** An element of the answer of [/user/entities]: [entity.name] and
    [entity.addresses?.evm || []]. *)
Record entityItem := mkEntity { entityName : jsstring; evm : list jsstring }.

(** An element of the answer of [/user/labels]. *)
Record labelItem := mkLabel {
  labelAddress : jsstring;
  labelName : jsstring;
  chainType : jsstring
}.

(** A [Map<string, Tag>]: the entries in insertion order. *)
Definition tagMap := list (jsstring * Tag).

Fixpoint mapGet (m : tagMap) (key : jsstring) : option Tag :=
  match m with
  | [] => None
  | (k, v) :: rest => if Js.eqb key k then Some v else mapGet rest key
  end.

(** [Map.prototype.set]: the value of a key that is present is replaced
    where it stands, a new key goes last. *)
Fixpoint mapSet (m : tagMap) (key : jsstring) (v : Tag) : tagMap :=
  match m with
  | [] => [(key, v)]
  | (k, w) :: rest =>
      if Js.eqb key k then (k, v) :: rest else (k, w) :: mapSet rest key v
  end.

Definition mapValues (m : tagMap) : list Tag := map snd m.

Definition arkham : jsstring := str "arkham".

(** The inner loop over [entity.addresses?.evm]. *)
Fixpoint setEntityAddresses (m : tagMap) (entityName : jsstring)
         (evmAddresses : list jsstring) : tagMap :=
  match evmAddresses with
  | [] => m
  | address :: rest =>
      let normalized := toLowerCase address in
      setEntityAddresses
        (mapSet m normalized (mkTag normalized entityName (Some entityName) arkham))
        entityName rest
  end.

Fixpoint setEntities (m : tagMap) (entitiesData : list entityItem) : tagMap :=
  match entitiesData with
  | [] => m
  | entity :: rest =>
      setEntities (setEntityAddresses m (entityName entity) (evm entity)) rest
  end.

(** One round of the loop over the labels. *)
Definition setLabel (m : tagMap) (item : labelItem) : tagMap :=
  if Js.eqb (chainType item) (str "evm") then
    let normalized := toLowerCase (labelAddress item) in
    let existing := mapGet m normalized in
    mapSet m normalized
           (mkTag normalized (labelName item)
                  (match existing with Some t => entity t | None => None end)
                  arkham)
  else m.

Definition setLabels (m : tagMap) (labelsData : list labelItem) : tagMap :=
  fold_left setLabel labelsData m.

(** The map [fetchArkhamLabels] has built when both requests are done;
    [None] is an answer that is not [ok]. *)
Definition arkhamTagMap (entitiesData : option (list entityItem))
           (labelsData : option (list labelItem)) : tagMap :=
  let m1 := match entitiesData with Some es => setEntities [] es | None => [] end in
  match labelsData with Some ls => setLabels m1 ls | None => m1 end.

(** [fetchArkhamLabels()]; [None] is the error it throws when it has found
    nothing. *)
Definition fetchArkhamLabels (entitiesData : option (list entityItem))
           (labelsData : option (list labelItem)) : option (list Tag) :=
  match mapValues (arkhamTagMap entitiesData labelsData) with
  | [] => None
  | tags => Some tags
  end.

End Arkham.

(* ===================================================================== *)
(** * content/index.ts: the observer of the page *)
(* ===================================================================== *)

Module Observer.

(** A pending timer of [window.setTimeout(scanPage, 500)]: its id and the
    time it is due. *)
Record timer := mkTimer { timerId : nat; due : nat }.

(** The module variable [scanDebounce] ([None] is [undefined], its value
    before the first timer is set), the clock (in ms), the pending timers
    in the order they were set and, for the statements only, the times at
    which a timer has called [scanPage]. *)
Record state := mkState {
  scanDebounce : option nat;
  clock : nat;
  nextId : nat;
  timers : list timer;
  scans : list nat
}.

Definition initial : state := mkState None 0 1 [] [].

(** [clearTimeout(id)]; an id that is [undefined] or names no pending
    timer clears nothing. *)
Definition clearTimeout (id : option nat) (s : state) : state :=
  match id with
  | Some i =>
      mkState (scanDebounce s) (clock s) (nextId s)
              (filter (fun t => negb (timerId t =? i)) (timers s)) (scans s)
  | None => s
  end.

(** [scanDebounce = window.setTimeout(scanPage, 500)]. *)
Definition setScanTimeout (s : state) : state :=
  mkState (Some (nextId s)) (clock s) (S (nextId s))
          (timers s ++ [mkTimer (nextId s) (clock s + 500)]) (scans s).

(** The loop over the mutation records, each given by
    [mutation.addedNodes.length]. *)
Definition shouldScan (mutations : list nat) : bool :=
  existsb (fun addedNodes => 0 <? addedNodes) mutations.

(** The callback of the [MutationObserver] of [observeDOM]. *)
Definition onMutations (mutations : list nat) (s : state) : state :=
  if shouldScan mutations
  then setScanTimeout (clearTimeout (scanDebounce s) s)
  else s.

(** The pending timer to run next if time goes on to [deadline]: the one
    due first, the one set first among those. *)
Fixpoint earliest (deadline : nat) (ts : list timer) : option timer :=
  match ts with
  | [] => None
  | t :: rest =>
      match earliest deadline rest with
      | Some u =>
          if due t <=? deadline
          then (if due u <? due t then Some u else Some t)
          else Some u
      | None => if due t <=? deadline then Some t else None
      end
  end.

(** A timer fires: it is no longer pending and [scanPage] is called. *)
Definition runTimer (t : timer) (s : state) : state :=
  mkState (scanDebounce s) (Nat.max (clock s) (due t)) (nextId s)
          (filter (fun u => negb (timerId u =? timerId t)) (timers s))
          (scans s ++ [Nat.max (clock s) (due t)]).

(** The timers due by [deadline] fire one after the other; the callback
    sets no timer, so there are at most [fuel = length (timers s)] of
    them. *)
Fixpoint fire (fuel deadline : nat) (s : state) : state :=
  match fuel with
  | 0 => s
  | S fuel' =>
      match earliest deadline (timers s) with
      | None => s
      | Some t => fire fuel' deadline (runTimer t s)
      end
  end.

(** [Mutations ms] is a call of the observer's callback with the records
    [ms]; [Elapse ms] lets [ms] milliseconds pass. *)
Inductive event :=
| Mutations (mutations : list nat)
| Elapse (ms : nat).

Definition step (s : state) (ev : event) : state :=
  match ev with
  | Mutations mutations => onMutations mutations s
  | Elapse ms =>
      let s' := fire (length (timers s)) (clock s + ms) s in
      mkState (scanDebounce s') (clock s + ms) (nextId s') (timers s') (scans s')
  end.

Definition run (s : state) (evs : list event) : state := fold_left step evs s.

End Observer.

(* ===================================================================== *)
(** * content/index.ts: the pages of Arkham and SnowScan *)
(* ===================================================================== *)

Module ArkhamPage.

Import Arkham.

(** What the import button shows when [importArkhamLabels] is done: the
    texts [No labels found], [Imported <count> labels] and
    [Import failed]. *)
Inductive buttonText :=
| NoLabelsFound
| Imported (count : option nat)
| ImportFailed.

(** [importArkhamLabels()] with the button on the page. [respond] is the
    answer of the background to [IMPORT_ARKHAM_TAGS]: [None] when
    [sendMessage] rejects or answers [undefined] (reading [count] throws),
    otherwise [response.count], which may be [undefined]. *)
Definition importArkhamLabels (entitiesData : option (list entityItem))
           (labelsData : option (list labelItem))
           (respond : list Tag -> option (option nat)) : buttonText :=
  match fetchArkhamLabels entitiesData labelsData with
  | None => ImportFailed
  | Some tags =>
      if length tags =? 0 then NoLabelsFound
      else
        match respond tags with
        | Some count => Imported count
        | None => ImportFailed
        end
  end.

(** A link [<a>] of the page: its classes and href, the addresses of the
    [mouseenter] listeners the script has put on it and how often the
    highlight was appended to its style. *)
Record link := mkLink {
  linkClasses : list jsstring;
  href : option jsstring;
  mouseenter : list jsstring;
  highlights : nat
}.

Definition wt_arkham_processed : jsstring := str "wt-arkham-processed".

(** [a[href*="/explorer/address/0x"]:not(.wt-arkham-processed):not(.wt-action-btn)] *)
Definition selected (l : link) : bool :=
  match href l with
  | Some h => includes h (str "/explorer/address/0x")
  | None => false
  end
  && negb (contains (linkClasses l) wt_arkham_processed)
  && negb (contains (linkClasses l) (str "wt-action-btn")).

(** The body of the loop of [handleArkhamAddresses] for one link. *)
Definition processLink (cache : list (jsstring * tagData)) (l : link) : link :=
  let classes := classAdd wt_arkham_processed (linkClasses l) in
  match addressIn (Some (match href l with Some h => h | None => [] end)) with
  | None => mkLink classes (href l) (mouseenter l) (highlights l)
  | Some address =>
      mkLink classes (href l) (mouseenter l ++ [address])
             (match cacheGet cache address with
              | Some _ => S (highlights l)
              | None => highlights l
              end)
  end.

(** The loop of [handleArkhamAddresses()] over the links of the document,
    in document order. *)
Definition handleArkhamAddresses (cache : list (jsstring * tagData))
           (links : list link) : list link :=
  map (fun l => if selected l then processLink cache l else l) links.

End ArkhamPage.

Module Snowscan.

Import Arkham.

(** One page of [/mynotes_address] as the loop of [fetchSnowscanNotes]
    sees it: whether the answer is [ok], the number of rows of the table,
    the records the loop over the rows pushes (their number is
    [pageCount]) and whether the loop over the pagination links finds a
    link to the next page. A request that throws ends the function with
    that error; such a run is not among the ones described here. *)
Record page := mkPage {
  ok : bool;
  rowCount : nat;
  pageTags : list Tag;
  foundNextPage : bool
}.

(** The loop [while (hasMorePages)], from the page [currentPage] on with
    the records [tags] collected so far: the records at the end and the
    pages requested, in order. [fetch p] is the answer to the request for
    page [p]. The loop is cut after [fuel] rounds;
    [fetchSnowscanNotes_page_limit] shows that 100 rounds are enough. *)
Fixpoint pagesLoop (fuel : nat) (fetch : nat -> page) (currentPage : nat)
         (tags : list Tag) : list Tag * list nat :=
  match fuel with
  | 0 => (tags, [])
  | S fuel' =>
      let p := fetch currentPage in
      if negb (ok p) then (tags, [currentPage])
      else if rowCount p =? 0 then (tags, [currentPage])
      else
        let tags' := tags ++ pageTags p in
        let pageCount := length (pageTags p) in
        if foundNextPage p && (0 <? pageCount) then
          if 100 <? S currentPage then (tags', [currentPage])
          else
            let '(all, requested) := pagesLoop fuel' fetch (S currentPage) tags' in
            (all, currentPage :: requested)
        else (tags', [currentPage])
  end.

(** [fetchSnowscanNotes()]; [None] is the error it throws when it has
    found nothing. *)
Definition fetchSnowscanNotes (fetch : nat -> page) : option (list Tag) :=
  match fst (pagesLoop 100 fetch 1 []) with
  | [] => None
  | tags => Some tags
  end.

End Snowscan.

(* ===================================================================== *)
(** * The vocabulary of the statements *)
(* ===================================================================== *)

(** What one item may match. *)
Definition itemOk (it : item) (w : jsstring) : Prop :=
  forallb (cls it) w = true /\ lo it <= length w /\ length w <= hi it.

(** A full address: [0x] (the [x] in either case) and 40 hex digits. *)
Definition fullShape (w : jsstring) : bool :=
  match w with
  | z :: x :: h => isChar "0" z && isX x && (length h =? 40) && forallb isHex h
  | _ => false
  end.

(** The canonical form: [0x] and 40 digits among [0-9a-f]. *)
Definition isCanonical (w : jsstring) : bool :=
  match w with
  | z :: x :: h =>
      isChar "0" z && isChar "x" x && (length h =? 40)
      && forallb (fun c => inRange 48 57 c || inRange 97 102 c) h
  | _ => false
  end.

(** A full address occurs in [T] at position [i]. *)
Definition occursAt (T : jsstring) (i : nat) : bool :=
  fullShape (slice T i (i + 42)).

(** The positions of [T] at which a full address occurs, in order. *)
Definition occurrences (T : jsstring) : list nat :=
  filter (occursAt T) (seq 0 (length T)).

(** No two occurrences share a character. *)
Definition disjointOccurrences (T : jsstring) : bool :=
  forallb (fun i =>
             forallb (fun j => (j <=? i) || (i + 42 <=? j)) (occurrences T))
          (occurrences T).

(** The matches come in order and none starts before the one before it
    ends (nor before [from]). *)
Fixpoint orderedFrom (from : nat) (ms : list AddressMatch) : Prop :=
  match ms with
  | [] => True
  | m :: rest => from <= startIndex m /\ orderedFrom (endIndex m) rest
  end.

(** What the record of one match holds, for the text [T] it was found in. *)
Definition matchOk (T : jsstring) (m : AddressMatch) : Prop :=
  startIndex m < endIndex m /\ endIndex m <= length T /\
  fullMatch m = slice T (startIndex m) (endIndex m) /\
  fullShape (fullMatch m) = true /\
  address m = toLowerCase (fullMatch m) /\
  isCanonical (address m) = true /\
  isTruncated m = false.

Definition sampleAddress : jsstring :=
  str "0xABCDEF0123456789abcdef0123456789abcd789A".

Definition sampleText : jsstring :=
  str "from " ++ sampleAddress ++ str " to 0X" ++ skipn 2 sampleAddress ++ str "!".

(** The display form [0x], a prefix [p] of [lo_] to [hi_] hex digits, 2 or
    3 dots [d] and a suffix [s] of [lo_] to [hi_] hex digits. *)
Definition truncatedShape (lo_ hi_ : nat) (x : ascii) (p d s : jsstring) : bool :=
  isX x
  && forallb isHex p && (lo_ <=? length p) && (length p <=? hi_)
  && forallb (isChar ".") d && (2 <=? length d) && (length d <=? 3)
  && forallb isHex s && (lo_ <=? length s) && (length s <=? hi_).

Definition truncatedText (x : ascii) (p d s : jsstring) : jsstring :=
  "0"%char :: x :: p ++ d ++ s.

(** The comparison in the words of the specification: the prefix against
    the characters of the known address after [0x], the suffix against its
    last characters, both without regard to case. *)
Definition sidesMatch (p s : jsstring) (known : jsstring) : bool :=
  Js.eqb (toLowerCase (slice known 2 (2 + length p))) (toLowerCase p)
  && Js.eqb (toLowerCase (sliceLast known (length s))) (toLowerCase s).

(** The resolution in the words of the specification: the first known
    address both sides match, in its normal form. *)
Definition resolveTruncated (p s : jsstring) (knownAddresses : list jsstring)
  : option jsstring :=
  option_map normalizeAddress (find (sidesMatch p s) knownAddresses).

Definition knownSample : jsstring :=
  str "0x123456789" ++ repeat "A"%char 27 ++ str "cDeF".

(** The address an injected wrapper element carries. *)
Definition wrapperAddress (n : node) : option jsstring :=
  match n with
  | Elem _ cl at_ _ =>
      if contains cl wt_address_wrapper
      then Some (attributeOrEmpty at_ (str "data-address"))
      else None
  | Text _ => None
  end.

(** None of the address elements among [ns] is for an address with an
    entry in the tag cache. *)
Definition untagged (e : env) (ns : list node) : bool :=
  forallb (fun n =>
             match wrapperAddress n with
             | Some a =>
                 match cacheGet (tagCache e) (normalizeAddress a) with
                 | Some _ => false
                 | None => true
                 end
             | None => true
             end) ns.

Definition plainEnv : env :=
  mkEnv true [] [(toLowerCase knownSample, mkTag (str "Vault") None)].

Definition noShortMatch (t : jsstring) (known : list jsstring)
  : option jsstring := None.

(** [removeAttribute(name)]. *)
Definition removeAttribute (name : jsstring) (attrs : list (jsstring * jsstring))
  : list (jsstring * jsstring) :=
  filter (fun kv => negb (Js.eqb name (fst kv))) attrs.

(** The element has an href that points at a transaction. *)
Definition isTxLink (el : element) : bool :=
  match getAttribute (attributes el) (str "href") with
  | Some href => isTxHref href
  | None => false
  end.

(** The element without its href when that points at a transaction. *)
Definition dropTxHref (el : element) : element :=
  if isTxLink el
  then mkElement (tagName el) (classList el)
                 (removeAttribute (str "href") (attributes el)) (isBody el)
  else el.

Definition txLink : element :=
  mkElement (str "a") []
            [(str "href",
              str "/tx/0xdeadbeef" ++ repeat "0"%char 32 ++ repeat "a"%char 24)]
            false.

(** The nodes of an element the first loop takes from its children. *)
Definition childrenToProcess (parent : element) (chain : list element)
           (cs : list inode) : list nat :=
  flat_map (fun c =>
              match c with
              | IText (Some i) _ =>
                  if acceptNode (parent :: chain) then [i] else []
              | IText None _ => []
              | IElem _ _ _ _ => nodesToProcess (parent :: chain) false c
              end) cs.

(** Induction on a node with identities. *)
Fixpoint inode_induction (P : inode -> Prop)
         (HT : forall i s, P (IText i s))
         (HE : forall t cl at_ cs, Forall P cs -> P (IElem t cl at_ cs))
         (n : inode) : P n :=
  match n with
  | IText i s => HT i s
  | IElem t cl at_ cs =>
      HE t cl at_ cs
         ((fix all (l : list inode) : Forall P l :=
             match l with
             | [] => Forall_nil P
             | c :: r => Forall_cons c (inode_induction P HT HE c) (all r)
             end) cs)
  end.

(** The numbers of the text nodes at or below [n], in document order. *)
Fixpoint ids (n : inode) : list nat :=
  match n with
  | IText (Some i) _ => [i]
  | IText None _ => []
  | IElem _ _ _ cs => flat_map ids cs
  end.

(** Every text node at or below [n] has a number. *)
Fixpoint numbered (n : inode) : bool :=
  match n with
  | IText (Some _) _ => true
  | IText None _ => false
  | IElem _ _ _ cs => forallb numbered cs
  end.

Definition isIElem (n : inode) : bool :=
  match n with IElem _ _ _ _ => true | IText _ _ => false end.

(** Induction on a node, with the property for all the children of an
    element. *)
Fixpoint node_induction (P : node -> Prop)
         (HT : forall s, P (Text s))
         (HE : forall t cl at_ cs, Forall P cs -> P (Elem t cl at_ cs))
         (n : node) : P n :=
  match n with
  | Text s => HT s
  | Elem t cl at_ cs =>
      HE t cl at_ cs
         ((fix all (l : list node) : Forall P l :=
             match l with
             | [] => Forall_nil P
             | c :: r => Forall_cons c (node_induction P HT HE c) (all r)
             end) cs)
  end.

Definition isElem (n : node) : bool :=
  match n with Elem _ _ _ _ => true | Text _ => false end.

(** [querySelectorAll('.' + c)] finds an element at or below [n]. *)
Fixpoint hasClass (c : jsstring) (n : node) : bool :=
  match n with
  | Text _ => false
  | Elem _ cl _ cs => contains cl c || existsb (hasClass c) cs
  end.

Definition sampleDocument : document :=
  mkDocument
    (mkElement (str "html") [] [] false)
    (Elem (str "body") [] []
       [Elem (str "p") [] []
          [Text (str "pay " ++ knownSample ++ str " or 0x1234...cDeF now")];
        Elem (str "script") [] [] [Text sampleAddress];
        Elem (str "a") [] [(str "href", str "/address/" ++ sampleAddress)]
          [Text (str "0xABCD...789A")]]).

Definition knownEnv : env :=
  mkEnv true [toLowerCase knownSample] (tagCache plainEnv).

Definition scannedDocument : document :=
  Eval vm_compute in scanPage noShortMatch knownEnv sampleDocument.







(** A text without an address before a paragraph with one. *)
Definition greetingDocument : document :=
  mkDocument
    (mkElement (str "html") [] [] false)
    (Elem (str "body") [] []
       [Text (str "hello ");
        Elem (str "p") [] [] [Text sampleAddress]]).


Import Hover.

Definition addressA : jsstring := toLowerCase sampleAddress.
Definition addressB : jsstring := toLowerCase knownSample.

(** The panel of B is up; the pointer goes over to A for 100 ms and comes
    back to B, where it rests. *)
Definition returnToShownPanel : list event :=
  [MouseEnter addressB; Elapse 300; Response;
   MouseLeave; MouseEnter addressA; Elapse 100;
   MouseLeave; MouseEnter addressB; Elapse 200; Response; Elapse 300].

(** A character of the display form after [0x]: a hex digit or a dot. *)
Definition hexOrDot (c : ascii) : bool := isHex c || isChar "." c.

(** An item that does not tell a character from its lower case. *)
Definition caseBlind (it : item) : Prop :=
  forall c, cls it (lowerChar c) = cls it c.

(** What the items matched, in lower case. *)
Definition lowerCaps (caps : option (list jsstring)) : option (list jsstring) :=
  option_map (map toLowerCase) caps.

Definition lowerResult (m : option result) : option result :=
  option_map (fun m => Result (index m) (map toLowerCase (groups m))) m.

(** [0x] or [0X] stands somewhere in the text. *)
Fixpoint has0x (s : jsstring) : bool :=
  match s with
  | z :: (x :: _) as rest => (isChar "0" z && isX x) || has0x rest
  | _ => false
  end.

(** A pattern that matches only a text with [0x] or [0X] in it. *)
Definition needs0x (p : pattern) : Prop :=
  forall s caps, matchHere p s = Some caps -> has0x s = true.

(** Every text at or below the node passes the test [still]. *)
Fixpoint allTexts (still : jsstring -> bool) (n : node) : bool :=
  match n with
  | Text s => still s
  | Elem _ _ _ cs => forallb (allTexts still) cs
  end.

(** No text at or below the node has [0x] or [0X] in it. *)
Definition quiet (n : node) : bool := allTexts (fun s => negb (has0x s)) n.

(** No full address occurs in a text at or below the node. *)
Definition plain (n : node) : bool :=
  allTexts (fun s => match occurrences s with [] => true | _ :: _ => false end) n.

Definition emptyCacheEnv : env := mkEnv true [toLowerCase knownSample] [].

Definition quietDocument : document :=
  mkDocument
    (mkElement (str "html") [] [] false)
    (Elem (str "body") [] []
       [Elem (str "p") [] [(str "title", sampleAddress)] [Text (str "1 x 0 = 0")];
        Text (str "(no address here)")]).

Definition truncatedDocument : document :=
  mkDocument
    (mkElement (str "html") [] [] false)
    (Elem (str "body") [] []
       [Elem (str "a") [] [(str "href", str "/address/" ++ sampleAddress)]
          [Text (str "0xABCD...789A")]]).

(** The panel variables and the page agree: with [controlPanel] set there
    is that one panel on the page, built for [currentPanelAddress], and a
    bridge; with [controlPanel] null there is none. *)
Definition panelConsistent (s : state) : Prop :=
  match controlPanel s with
  | Some id =>
      exists a, panels s = [(id, a)] /\ currentPanelAddress s = Some a /\
                isSome (controlPanelBridge s) = true
  | None =>
      panels s = [] /\ currentPanelAddress s = None /\ controlPanelBridge s = None
  end.

(** The addresses of the elements the pointer has entered. *)
Definition hovered (evs : list event) : list jsstring :=
  flat_map (fun ev => match ev with MouseEnter a => [a] | _ => [] end) evs.

(** Every address a show timer, a pending request, a rendered panel or a
    panel on the page is for is among [H]. *)
Definition addressesFrom (H : list jsstring) (s : state) : Prop :=
  (forall t a, In t (timers s) -> action t = ShowCallback a -> In a H) /\
  incl (requests s) H /\ incl (rendered s) H /\ incl (map snd (panels s)) H.

(** The ids of the pending timers are distinct and below [nextId]. *)
Definition timersFresh (s : state) : Prop :=
  NoDup (map timerId (timers s)) /\
  Forall (fun t => timerId t < nextId s) (timers s).

(** No scan is pending, or one: the timer [scanDebounce] names, due
    within 500 ms. *)
Definition onePending (s : Observer.state) : Prop :=
  Observer.timers s = [] \/
  exists id d, Observer.scanDebounce s = Some id /\
               Observer.timers s = [Observer.mkTimer id d] /\
               d <= Observer.clock s + 500.

(** Insertions one after the other, each followed by a pause. *)
Definition burst (pauses : list nat) : list Observer.event :=
  flat_map (fun p => [Observer.Mutations [1]; Observer.Elapse p]) pauses.

(** The answer of a request: [None] is an answer that is not [ok]. *)
Definition answered {A} (data : option (list A)) : list A :=
  match data with Some l => l | None => [] end.

(** The labels the loop of [fetchArkhamLabels] takes. *)
Definition evmLabels (ls : list Arkham.labelItem) : list Arkham.labelItem :=
  filter (fun l => Js.eqb (Arkham.chainType l) (str "evm")) ls.

(** Every entry of the map is filed under the address of its record, a
    string in lower case, and comes from Arkham. *)
Definition wellKeyed (m : Arkham.tagMap) : Prop :=
  Forall (fun kv => Arkham.address (snd kv) = fst kv /\
                    toLowerCase (fst kv) = fst kv /\
                    Arkham.source (snd kv) = Arkham.arkham) m.

Definition goodMap (m : Arkham.tagMap) : Prop :=
  NoDup (map fst m) /\ wellKeyed m.

(** The addresses of the address elements among the nodes, in order. *)
Definition wrapperAddresses (ns : list node) : list jsstring :=
  flat_map (fun n => match wrapperAddress n with Some a => [a] | None => [] end) ns.

(** The element is one the tree walker takes no text from. *)
Definition isSkipped (tag : jsstring) : bool :=
  existsb (Js.eqb (toLowerCase tag)) skippedTags.

(** The node with every text that stands directly in a [script], [style],
    [noscript], [textarea] or [input] element replaced by [f] of it. *)
Fixpoint mapSkipped (f : jsstring -> jsstring) (skipped : bool) (n : node) : node :=
  match n with
  | Text s => if skipped then Text (f s) else Text s
  | Elem t cl at_ cs => Elem t cl at_ (map (mapSkipped f (isSkipped t)) cs)
  end.

(** The document with these texts replaced. *)
Definition mapSkippedDocument (f : jsstring -> jsstring) (doc : document) : document :=
  mkDocument (documentElement doc) (mapSkipped f false (body doc)).

(* ===================================================================== *)
(** * Facts about strings and lists *)
(* ===================================================================== *)

Lemma eqb_eq a b : Js.eqb a b = true <-> a = b.
Proof.
  unfold Js.eqb. destruct (list_eq_dec ascii_dec a b); split; congruence.
Qed.

Lemma eqb_refl a : Js.eqb a a = true.
Proof. apply eqb_eq. reflexivity. Qed.

Lemma eqb_neq a b : Js.eqb a b = false <-> a <> b.
Proof.
  unfold Js.eqb. destruct (list_eq_dec ascii_dec a b); split; congruence.
Qed.

Lemma toLowerCase_length s : length (toLowerCase s) = length s.
Proof. apply length_map. Qed.

Lemma toLowerCase_app s t :
  toLowerCase (s ++ t) = toLowerCase s ++ toLowerCase t.
Proof. apply map_app. Qed.

Lemma app_eq_length {A} (a b c d : list A) :
  length a = length b -> a ++ c = b ++ d -> a = b /\ c = d.
Proof.
  revert b. induction a as [|x a IH]; intros [|y b] L E; simpl in *; try lia.
  - auto.
  - injection E as -> E. destruct (IH b) as [-> ->]; auto.
Qed.

Lemma skipn_app_length {A} (a b : list A) : skipn (length a) (a ++ b) = b.
Proof. induction a; simpl; auto. Qed.

Lemma firstn_app_length {A} (a b : list A) : firstn (length a) (a ++ b) = a.
Proof. induction a; simpl; congruence. Qed.

Lemma forallb_firstn {A} (f : A -> bool) n l :
  forallb f l = true -> forallb f (firstn n l) = true.
Proof.
  revert l. induction n; intros [|x l] H; simpl in *; auto.
  apply andb_prop in H as [-> H]. simpl. auto.
Qed.

(* ===================================================================== *)
(** * Facts about the matcher *)
(* ===================================================================== *)

Lemma spanClass_le c n s : spanClass c n s <= n.
Proof.
  revert s. induction n; intros [|a s]; simpl; try lia.
  destruct (c a); [specialize (IHn s)|]; lia.
Qed.

Lemma spanClass_length c n s : spanClass c n s <= length s.
Proof.
  revert s. induction n; intros [|a s]; simpl; try lia.
  destruct (c a); [specialize (IHn s)|]; lia.
Qed.

Lemma spanClass_forallb c n s : forallb c (firstn (spanClass c n s) s) = true.
Proof.
  revert s. induction n; intros [|a s]; simpl; auto.
  destruct (c a) eqn:E; simpl; auto. rewrite E. simpl. apply IHn.
Qed.

Lemma spanClass_prefix c n w rest :
  forallb c w = true -> length w <= n -> length w <= spanClass c n (w ++ rest).
Proof.
  revert n. induction w as [|a w IH]; intros n H L; simpl in *; [lia|].
  destruct n; [lia|]. simpl. apply andb_prop in H as [Ha Hw].
  rewrite Ha. specialize (IH n Hw). lia.
Qed.

Lemma tryDown_eq k l s n :
  tryDown k l s n =
  if n <? l then None
  else match k (skipn n s) with
       | Some caps => Some (firstn n s :: caps)
       | None => match n with 0 => None | S n' => tryDown k l s n' end
       end.
Proof. destruct n; reflexivity. Qed.

Lemma tryDown_sound k l s n caps :
  tryDown k l s n = Some caps ->
  exists j c, l <= j /\ j <= n /\ k (skipn j s) = Some c /\ caps = firstn j s :: c.
Proof.
  induction n as [|n IH]; rewrite tryDown_eq.
  - destruct (0 <? l) eqn:E; [discriminate|]. apply Nat.ltb_ge in E.
    destruct (k (skipn 0 s)) eqn:K; [|discriminate].
    intros [= <-]. exists 0, l0. repeat split; auto.
  - destruct (S n <? l) eqn:E; [discriminate|]. apply Nat.ltb_ge in E.
    destruct (k (skipn (S n) s)) eqn:K.
    + intros [= <-]. exists (S n), l0. repeat split; auto.
    + intros H. destruct (IH H) as (j & c & ? & ? & ? & ?).
      exists j, c. repeat split; auto.
Qed.

Lemma tryDown_complete k l s n j :
  l <= j -> j <= n -> k (skipn j s) <> None -> tryDown k l s n <> None.
Proof.
  intros Hl. induction n as [|n IH]; intros Hn K; rewrite tryDown_eq.
  - assert (j = 0) by lia. subst.
    destruct (0 <? l) eqn:E; [apply Nat.ltb_lt in E; lia|].
    destruct (k (skipn 0 s)); congruence.
  - destruct (S n <? l) eqn:E; [apply Nat.ltb_lt in E; lia|].
    destruct (k (skipn (S n) s)) eqn:K'; [congruence|].
    apply IH; auto.
    destruct (Nat.eq_dec j (S n)); [subst; congruence|lia].
Qed.

Lemma tryDown_hit k l s n caps :
  l <= n -> k (skipn n s) = Some caps ->
  tryDown k l s n = Some (firstn n s :: caps).
Proof.
  intros Hl K. rewrite tryDown_eq.
  destruct (n <? l) eqn:E; [apply Nat.ltb_lt in E; lia|]. now rewrite K.
Qed.

Lemma matchHere_sound p : forall s caps,
  matchHere p s = Some caps ->
  Forall2 itemOk p caps /\ exists rest, s = concat caps ++ rest.
Proof.
  induction p as [|it p IH]; intros s caps H; simpl in H.
  - injection H as <-. split; [constructor|]. exists s. reflexivity.
  - apply tryDown_sound in H as (j & c & Hlo & Hj & K & ->).
    destruct (IH _ _ K) as [F [rest R]].
    pose proof (spanClass_le (cls it) (hi it) s).
    pose proof (spanClass_length (cls it) (hi it) s).
    split.
    + constructor; auto. unfold itemOk.
      rewrite length_firstn, Nat.min_l by lia. repeat split; try lia.
      replace (firstn j s)
        with (firstn j (firstn (spanClass (cls it) (hi it) s) s)).
      * apply forallb_firstn, spanClass_forallb.
      * rewrite firstn_firstn. f_equal. lia.
    + exists rest. simpl. rewrite <- app_assoc, <- R. symmetry. apply firstn_skipn.
Qed.

Lemma matchHere_complete p ws rest :
  Forall2 itemOk p ws -> matchHere p (concat ws ++ rest) <> None.
Proof.
  induction 1 as [|it w p ws [Hc [Hl Hh]] F IH]; simpl; [congruence|].
  rewrite <- app_assoc.
  apply tryDown_complete with (j := length w); auto.
  - apply spanClass_prefix; auto.
  - rewrite skipn_app_length. exact IH.
Qed.

(** The greedy choice succeeds at once when the item cannot take more
    than [w] and the rest of the pattern matches what follows. *)
Lemma matchHere_step it p w rest caps :
  itemOk it w ->
  (length w = hi it \/ match rest with [] => True | a :: _ => cls it a = false end) ->
  matchHere p rest = Some caps ->
  matchHere (it :: p) (w ++ rest) = Some (w :: caps).
Proof.
  intros [Hc [Hl Hh]] Stop K. simpl.
  assert (E : spanClass (cls it) (hi it) (w ++ rest) = length w).
  { clear K Hl. revert Hh Stop. generalize (hi it) as n.
    induction w as [|a w IH]; intros n Hh Stop; simpl in *.
    - destruct n; auto. destruct rest; simpl; auto.
      destruct Stop as [?|Stop]; [lia|now rewrite Stop].
    - destruct n; [lia|]. simpl. apply andb_prop in Hc as [-> Hc].
      f_equal. apply IH; auto; [lia|]. destruct Stop; [left; lia|right; auto]. }
  rewrite E.
  rewrite (tryDown_hit (matchHere p) (lo it) (w ++ rest) (length w) caps); auto.
  - now rewrite firstn_app_length.
  - now rewrite skipn_app_length.
Qed.

Lemma searchFrom_Some r : forall s i m,
  searchFrom r s i = Some m ->
  exists k, index m = i + k /\ k <= length s /\
            matchAlts r (skipn k s) = Some (groups m) /\
            forall j, j < k -> matchAlts r (skipn j s) = None.
Proof.
  induction s as [|a s IH]; intros i m H; simpl in H.
  - destruct (matchAlts r []) eqn:E; [|discriminate]. injection H as <-.
    exists 0. simpl. repeat split; auto; try lia; intros; lia.
  - destruct (matchAlts r (a :: s)) eqn:E.
    + injection H as <-. exists 0. simpl. repeat split; auto; try lia;
        intros; lia.
    + destruct (IH _ _ H) as (k & Hi & Hk & Hm & Hn).
      exists (S k). simpl. repeat split; auto; try lia.
      intros [|j] Hj; simpl; auto. apply Hn. lia.
Qed.

Lemma searchFrom_None r : forall s i,
  searchFrom r s i = None ->
  forall j, j <= length s -> matchAlts r (skipn j s) = None.
Proof.
  induction s as [|a s IH]; intros i H j Hj; simpl in H.
  - destruct (matchAlts r []) eqn:E; [discriminate|].
    simpl in Hj. replace j with 0 by lia. exact E.
  - destruct (matchAlts r (a :: s)) eqn:E; [discriminate|].
    destruct j; simpl; auto. apply (IH _ H). simpl in Hj. lia.
Qed.

Lemma exec_Some r s L m :
  exec r s L = Some m ->
  L <= index m /\ index m <= length s /\
  matchAlts r (skipn (index m) s) = Some (groups m) /\
  forall j, L <= j -> j < index m -> matchAlts r (skipn j s) = None.
Proof.
  unfold exec. destruct (length s <? L) eqn:E; [discriminate|].
  apply Nat.ltb_ge in E. intros H.
  apply searchFrom_Some in H as (k & Hi & Hk & Hm & Hn).
  rewrite length_skipn in Hk. rewrite skipn_skipn in Hm.
  rewrite Hi. repeat split; try lia.
  - now rewrite Nat.add_comm.
  - intros j H1 H2. specialize (Hn (j - L)). rewrite skipn_skipn in Hn.
    replace (j - L + L) with j in Hn by lia. apply Hn. lia.
Qed.

Lemma exec_None r s L :
  exec r s L = None ->
  forall j, L <= j -> j <= length s -> matchAlts r (skipn j s) = None.
Proof.
  unfold exec. destruct (length s <? L) eqn:E.
  - apply Nat.ltb_lt in E. intros; lia.
  - intros H j H1 H2. pose proof (searchFrom_None _ _ _ H (j - L)) as N.
    rewrite length_skipn, skipn_skipn in N.
    replace (j - L + L) with j in N by lia. apply N. lia.
Qed.

(* ===================================================================== *)
(** * Full addresses in a text *)
(* ===================================================================== *)

Lemma matchAlts_single p s : matchAlts [p] s = matchHere p s.
Proof. simpl. destruct (matchHere p s); reflexivity. Qed.

Lemma fullShape_inv w :
  fullShape w = true ->
  exists z x h, w = z :: x :: h /\ isChar "0" z = true /\ isX x = true /\
                length h = 40 /\ forallb isHex h = true.
Proof.
  destruct w as [|z [|x h]]; unfold fullShape; try discriminate.
  intros H. repeat (apply andb_prop in H as [H ?]).
  apply Nat.eqb_eq in H1. exists z, x, h. auto.
Qed.

Lemma full_match_shape s z x h rest :
  s = z :: x :: h ++ rest ->
  isChar "0" z = true -> isX x = true -> length h = 40 ->
  forallb isHex h = true ->
  matchAlts FULL_ADDRESS_REGEX s = Some [[z]; [x]; h].
Proof.
  intros -> Hz Hx Hl Hh. unfold FULL_ADDRESS_REGEX. rewrite matchAlts_single.
  change (z :: x :: h ++ rest) with ([z] ++ ([x] ++ (h ++ rest))).
  apply matchHere_step; [| left; reflexivity |].
  { unfold itemOk. cbn [cls lo hi lit forallb length]. rewrite Hz. auto. }
  apply matchHere_step; [| left; reflexivity |].
  { unfold itemOk. cbn [cls lo hi litX forallb length]. rewrite Hx. auto. }
  apply matchHere_step; [| left; exact Hl | reflexivity].
  unfold itemOk. cbn [cls lo hi hexRep]. rewrite Hl. auto.
Qed.

Lemma full_match_inv s caps :
  matchAlts FULL_ADDRESS_REGEX s = Some caps ->
  exists z x h rest, s = z :: x :: h ++ rest /\ caps = [[z]; [x]; h] /\
    isChar "0" z = true /\ isX x = true /\ length h = 40 /\
    forallb isHex h = true.
Proof.
  unfold FULL_ADDRESS_REGEX. rewrite matchAlts_single. intros H.
  apply matchHere_sound in H as [F [rest ->]].
  inversion F as [|? w1 ? c1 [H1 [L1 U1]] F1]; subst.
  inversion F1 as [|? w2 ? c2 [H2 [L2 U2]] F2]; subst.
  inversion F2 as [|? w3 ? c3 [H3 [L3 U3]] F3]; subst.
  inversion F3; subst. simpl in *.
  destruct w1 as [|z [|]]; simpl in *; try lia.
  destruct w2 as [|x [|]]; simpl in *; try lia.
  exists z, x, w3, rest. rewrite app_nil_r.
  rewrite !andb_true_r in *. repeat split; auto. lia.
Qed.

Lemma full_match_iff s :
  matchAlts FULL_ADDRESS_REGEX s =
  if fullShape (firstn 42 s)
  then Some [firstn 1 s; firstn 1 (skipn 1 s); firstn 40 (skipn 2 s)]
  else None.
Proof.
  destruct (fullShape (firstn 42 s)) eqn:F.
  - apply fullShape_inv in F as (z & x & h & E & Hz & Hx & Hl & Hh).
    assert (S : s = z :: x :: h ++ skipn 42 s).
    { rewrite <- (firstn_skipn 42 s) at 1. now rewrite E. }
    rewrite (full_match_shape s z x h (skipn 42 s) S Hz Hx Hl Hh).
    set (rest := skipn 42 s) in S. clearbody rest. subst s.
    assert (F40 : firstn 40 (h ++ rest) = h)
      by (rewrite <- Hl; apply firstn_app_length).
    change (Some [[z]; [x]; h] = Some [[z]; [x]; firstn 40 (h ++ rest)]).
    now rewrite F40.
  - destruct (matchAlts FULL_ADDRESS_REGEX s) as [caps|] eqn:M; auto.
    apply full_match_inv in M as (z & x & h & rest & -> & _ & Hz & Hx & Hl & Hh).
    change (z :: x :: h ++ rest) with ((z :: x :: h) ++ rest) in F.
    replace 42 with (length (z :: x :: h)) in F by (simpl; lia).
    rewrite firstn_app_length in F. unfold fullShape in F.
    rewrite Hz, Hx, Hh, Hl in F. discriminate.
Qed.

Lemma occursAt_match T i :
  occursAt T i = true <-> matchAlts FULL_ADDRESS_REGEX (skipn i T) <> None.
Proof.
  unfold occursAt, slice. replace (i + 42 - i) with 42 by lia.
  rewrite full_match_iff. destruct (fullShape (firstn 42 (skipn i T)));
    split; congruence.
Qed.

Lemma occursAt_length T i : occursAt T i = true -> i + 42 <= length T.
Proof.
  unfold occursAt, slice. replace (i + 42 - i) with 42 by lia. intros H.
  apply fullShape_inv in H as (z & x & h & E & _ & _ & Hl & _).
  apply (f_equal (@length ascii)) in E.
  rewrite length_firstn, length_skipn in E. cbn [length] in E. lia.
Qed.

(** One round of the loop of [findAddressesInText]. *)
Lemma exec_full_Some T L m :
  exec FULL_ADDRESS_REGEX T L = Some m ->
  L <= index m /\ index m + 42 <= length T /\
  occursAt T (index m) = true /\
  matched m = slice T (index m) (index m + 42) /\
  lastIndexAfter m = index m + 42 /\
  forall j, L <= j -> j < index m -> occursAt T j = false.
Proof.
  intros H. apply exec_Some in H as (H1 & H2 & H3 & H4).
  assert (O : occursAt T (index m) = true).
  { apply occursAt_match. congruence. }
  pose proof (occursAt_length _ _ O) as Len.
  assert (M : matched m = slice T (index m) (index m + 42)).
  { unfold matched, slice. replace (index m + 42 - index m) with 42 by lia.
    apply full_match_inv in H3 as (z & x & h & rest & E & -> & _ & _ & Hl & _).
    rewrite E. change (concat [[z]; [x]; h]) with (z :: x :: h ++ []).
    change (firstn 42 (z :: x :: h ++ rest)) with (z :: x :: firstn 40 (h ++ rest)).
    rewrite app_nil_r, <- Hl, firstn_app_length. reflexivity. }
  repeat split; auto.
  - unfold lastIndexAfter. rewrite M. unfold slice.
    rewrite length_firstn, length_skipn. lia.
  - intros j Hj1 Hj2. specialize (H4 j Hj1 Hj2).
    destruct (occursAt T j) eqn:Oj; auto.
    apply occursAt_match in Oj. congruence.
Qed.

Lemma exec_full_None T L :
  exec FULL_ADDRESS_REGEX T L = None ->
  forall j, L <= j -> occursAt T j = false.
Proof.
  intros H j Hj. destruct (occursAt T j) eqn:O; auto.
  pose proof (occursAt_length _ _ O).
  apply occursAt_match in O. exfalso. apply O.
  apply (exec_None _ _ _ H); lia.
Qed.

(** A fact about one character, by running through the characters. *)
Ltac by_character c :=
  destruct c as [[] [] [] [] [] [] [] []]; vm_compute;
  repeat split; congruence.

Lemma lower_hex c :
  isHex c = true ->
  (inRange 48 57 (lowerChar c) || inRange 97 102 (lowerChar c)) = true.
Proof.
  by_character c.
Qed.

Lemma lower_x c : isX c = true -> lowerChar c = "x"%char.
Proof.
  by_character c.
Qed.

Lemma lower_zero c : isChar "0" c = true -> lowerChar c = "0"%char.
Proof.
  by_character c.
Qed.

Lemma fullShape_canonical w : fullShape w = true -> isCanonical (toLowerCase w) = true.
Proof.
  intros H. apply fullShape_inv in H as (z & x & h & -> & Hz & Hx & Hl & Hh).
  unfold toLowerCase. cbn [map]. unfold isCanonical.
  rewrite (lower_zero _ Hz), (lower_x _ Hx), length_map, Hl.
  change (forallb (fun c => inRange 48 57 c || inRange 97 102 c)
                  (map lowerChar h) = true).
  clear Hl. induction h as [|c h IH]; cbn [map forallb] in *; auto.
  apply andb_prop in Hh as [Hc Hh]. rewrite (lower_hex _ Hc). auto.
Qed.

Lemma execLoop_full_ok T : forall fuel L,
  Forall (matchOk T) (map toMatch (execLoop fuel FULL_ADDRESS_REGEX T L)) /\
  orderedFrom L (map toMatch (execLoop fuel FULL_ADDRESS_REGEX T L)).
Proof.
  induction fuel as [|fuel IH]; intros L; simpl; [split; [constructor|exact I]|].
  destruct (exec FULL_ADDRESS_REGEX T L) as [m|] eqn:E;
    [|split; [constructor|exact I]].
  destruct (exec_full_Some _ _ _ E) as (H1 & H2 & H3 & H4 & H5 & _).
  assert (Len : length (matched m) = 42).
  { unfold lastIndexAfter in H5. lia. }
  destruct (IH (lastIndexAfter m)) as [IH1 IH2]. simpl. split.
  - constructor; auto. unfold matchOk, toMatch. simpl. rewrite Len.
    unfold occursAt in H3. rewrite <- H4 in H3.
    repeat split; auto; try lia. now apply fullShape_canonical.
  - split; auto.
Qed.

Lemma filter_nothing {A} (f : A -> bool) l :
  (forall x, In x l -> f x = false) -> filter f l = [].
Proof.
  induction l as [|a l IH]; intros H; simpl; auto.
  rewrite (H a) by (left; auto). apply IH. intros x Hx. apply H. now right.
Qed.

Lemma filter_seq_skip (f : nat -> bool) : forall d L n,
  (forall j, L <= j -> j < L + d -> f j = false) -> d <= n ->
  filter f (seq L n) = filter f (seq (L + d) (n - d)).
Proof.
  induction d as [|d IH]; intros L n H Hd.
  - now rewrite Nat.add_0_r, Nat.sub_0_r.
  - destruct n as [|n]; [lia|]. cbn [seq filter].
    rewrite (H L) by lia. rewrite (IH (S L) n); try lia.
    + now replace (S L + d) with (L + S d) by lia.
    + intros j H1 H2. apply H; lia.
Qed.

Lemma filter_seq_hit (f : nat -> bool) L n :
  0 < n -> f L = true ->
  filter f (seq L n) = L :: filter f (seq (S L) (n - 1)).
Proof.
  destruct n as [|n]; [lia|]. intros _ H. cbn [seq filter]. rewrite H.
  now replace (S n - 1) with n by lia.
Qed.

Lemma execLoop_full_positions T :
  (forall i j, occursAt T i = true -> occursAt T j = true -> i < j -> i + 42 <= j) ->
  forall fuel L, L <= length T -> length T - L < fuel ->
  map index (execLoop fuel FULL_ADDRESS_REGEX T L)
  = filter (occursAt T) (seq L (length T - L)).
Proof.
  intros Apart. induction fuel as [|fuel IH]; intros L HL HF; [lia|].
  cbn [execLoop].
  destruct (exec FULL_ADDRESS_REGEX T L) as [m|] eqn:E.
  - destruct (exec_full_Some _ _ _ E) as (H1 & H2 & H3 & H4 & H5 & H6).
    cbn [map]. set (i := index m) in *.
    rewrite (filter_seq_skip (occursAt T) (i - L) L); try lia.
    2:{ intros j Hj1 Hj2. apply H6; lia. }
    replace (L + (i - L)) with i by lia.
    rewrite (filter_seq_hit (occursAt T) i); auto; try lia.
    f_equal.
    rewrite (filter_seq_skip (occursAt T) 41 (S i)); try lia.
    2:{ intros j Hj1 Hj2. destruct (occursAt T j) eqn:O; auto.
        pose proof (Apart i j H3 O). lia. }
    rewrite IH; try lia. rewrite H5. f_equal. f_equal; lia.
  - symmetry. apply filter_nothing. intros j Hj. apply in_seq in Hj.
    apply (exec_full_None _ _ E). lia.
Qed.

(** The loop stops because [exec] answers [null], not because the rounds
    are used up: more rounds give the same matches. *)
Lemma execLoop_full_fuel T : forall f1 f2 L,
  L <= length T -> length T - L < f1 -> length T - L < f2 ->
  execLoop f1 FULL_ADDRESS_REGEX T L = execLoop f2 FULL_ADDRESS_REGEX T L.
Proof.
  induction f1 as [|f1 IH]; intros [|f2] L HL H1 H2; try lia. simpl.
  destruct (exec FULL_ADDRESS_REGEX T L) as [m|] eqn:E; auto.
  destruct (exec_full_Some _ _ _ E) as (? & ? & _ & _ & H5 & _).
  f_equal. apply IH; lia.
Qed.

Lemma disjointOccurrences_apart T :
  disjointOccurrences T = true ->
  forall i j, occursAt T i = true -> occursAt T j = true -> i < j -> i + 42 <= j.
Proof.
  unfold disjointOccurrences. intros D i j Hi Hj Lt.
  assert (In_occ : forall n, occursAt T n = true -> In n (occurrences T)).
  { intros n Hn. apply filter_In. split; auto. apply in_seq.
    pose proof (occursAt_length _ _ Hn). lia. }
  rewrite forallb_forall in D. specialize (D i (In_occ i Hi)).
  rewrite forallb_forall in D. specialize (D j (In_occ j Hj)).
  apply orb_prop in D as [D|D]; [apply Nat.leb_le in D|apply Nat.leb_le in D]; lia.
Qed.

(** C2. Every text [T] in which [k] full addresses ([0x] and 40 hex
    digits, in either case) occur, no two of them sharing a character: the
    matches [findAddressesInText] returns are exactly [k], one at each
    occurrence, ordered by [startIndex] and not overlapping; each has
    [0 <= startIndex < endIndex <= length T], its [fullMatch] is the slice
    of [T] between the two, and its [address] is that slice in lower case,
    [0x] and 40 digits among [0-9a-f]. The loop of the function ends by
    itself: any larger number of rounds gives the same matches. *)
Theorem findAddressesInText_spec (T : jsstring) (k : nat) :
  disjointOccurrences T = true ->
  length (occurrences T) = k ->
  length (findAddressesInText T) = k /\
  map startIndex (findAddressesInText T) = occurrences T /\
  orderedFrom 0 (findAddressesInText T) /\
  Forall (matchOk T) (findAddressesInText T) /\
  forall fuel, length T < fuel ->
    map toMatch (execLoop fuel FULL_ADDRESS_REGEX T 0) = findAddressesInText T.
Proof.
  intros D K. unfold findAddressesInText, execAll.
  assert (P : map startIndex
                (map toMatch (execLoop (S (length T)) FULL_ADDRESS_REGEX T 0))
              = occurrences T).
  { rewrite map_map. change (fun x => startIndex (toMatch x)) with index.
    rewrite execLoop_full_positions; try lia.
    - unfold occurrences. now rewrite Nat.sub_0_r.
    - now apply disjointOccurrences_apart. }
  destruct (execLoop_full_ok T (S (length T)) 0) as [Ok Ord].
  repeat split; auto.
  - rewrite <- K, <- P. now rewrite !length_map.
  - intros fuel Hf. f_equal. apply execLoop_full_fuel; lia.
Qed.

Lemma findAddressesInText_spec_witness :
  disjointOccurrences sampleText = true /\
  length (occurrences sampleText) = 2 /\
  length (findAddressesInText sampleText) = 2.
Proof.
  split; [reflexivity|]. split; [reflexivity|].
  exact (proj1 (findAddressesInText_spec sampleText 2 eq_refl eq_refl)).
Defined.

(* ===================================================================== *)
(** * Truncated addresses *)
(* ===================================================================== *)

Lemma slice_lower a i j : slice (toLowerCase a) i j = toLowerCase (slice a i j).
Proof. unfold slice, toLowerCase. now rewrite skipn_map, firstn_map. Qed.

Lemma sliceLast_lower a n : sliceLast (toLowerCase a) n = toLowerCase (sliceLast a n).
Proof.
  unfold sliceLast, toLowerCase. destruct (n =? 0); auto.
  now rewrite length_map, skipn_map.
Qed.

Lemma findKnown_resolve p s known :
  findKnown (toLowerCase p) (toLowerCase s) known = resolveTruncated p s known.
Proof.
  unfold resolveTruncated.
  induction known as [|a known IH]; cbn [findKnown find option_map]; auto.
  unfold normalizeAddress at 1 2. rewrite slice_lower, sliceLast_lower.
  rewrite !toLowerCase_length. fold (sidesMatch p s a).
  destruct (sidesMatch p s a); auto.
Qed.

Lemma findKnown_from_known prefix suffix known :
  findKnown prefix suffix known = None \/
  exists a, In a known /\ findKnown prefix suffix known = Some (normalizeAddress a).
Proof.
  induction known as [|a known IH]; cbn [findKnown]; auto.
  destruct (_ && _).
  - right. exists a. split; [left|]; auto.
  - destruct IH as [IH|(b & Hb & IH)]; auto.
    right. exists b. split; [right|]; auto.
Qed.

Lemma dot_not_hex c : isChar "." c = true -> isHex c = false.
Proof. by_character c. Qed.

Lemma hex_not_dot c : isHex c = true -> isChar "." c = false.
Proof. by_character c. Qed.

Lemma truncatedShape_inv l h x p d s :
  truncatedShape l h x p d s = true ->
  isX x = true /\
  (forallb isHex p = true /\ l <= length p /\ length p <= h) /\
  (forallb (isChar ".") d = true /\ 2 <= length d /\ length d <= 3) /\
  (forallb isHex s = true /\ l <= length s /\ length s <= h).
Proof.
  unfold truncatedShape. intros H.
  repeat (apply andb_prop in H as [H ?]).
  repeat match goal with
         | H : (_ <=? _) = true |- _ => apply Nat.leb_le in H
         end.
  repeat split; auto.
Qed.

(** On a text of the shape of its own pattern the matcher takes the whole
    prefix and the whole suffix. *)
Lemma match_truncated_shape x p d s :
  truncatedShape 3 8 x p d s = true ->
  match_ TRUNCATED_REGEX (truncatedText x p d s)
  = Some (Result 0 [["0"%char]; [x]; p; d; s]).
Proof.
  intros H.
  apply truncatedShape_inv in H
    as (Hx & (Hp & Lp & Up) & (Hd & Ld & Ud) & (Hs & Ls & Us)).
  unfold match_, exec. cbn [length Nat.ltb Nat.leb skipn searchFrom].
  assert (M : matchAlts TRUNCATED_REGEX (truncatedText x p d s)
              = Some [["0"%char]; [x]; p; d; s]).
  { unfold TRUNCATED_REGEX. rewrite matchAlts_single. unfold truncatedText.
    replace (p ++ d ++ s) with (p ++ (d ++ (s ++ []))) by now rewrite app_nil_r.
    change ("0"%char :: x :: p ++ d ++ s ++ [])
      with (["0"%char] ++ ([x] ++ (p ++ (d ++ (s ++ []))))).
    apply matchHere_step; [| left; reflexivity |].
    { unfold itemOk. cbn [cls lo hi lit forallb length]. auto. }
    apply matchHere_step; [| left; reflexivity |].
    { unfold itemOk. cbn [cls lo hi litX forallb length]. rewrite Hx. auto. }
    apply matchHere_step.
    { unfold itemOk. cbn [cls lo hi hexRep]. auto. }
    { right. destruct d as [|c d]; [simpl in Ld; lia|].
      cbn [app cls hexRep]. cbn [forallb] in Hd. apply andb_prop in Hd as [Hc _].
      now apply dot_not_hex. }
    apply matchHere_step.
    { unfold itemOk. cbn [cls lo hi dots]. auto. }
    { right. destruct s as [|c s]; [simpl in Ls; lia|].
      cbn [cls dots]. cbn [forallb] in Hs. apply andb_prop in Hs as [Hc _].
      now apply hex_not_dot. }
    apply matchHere_step; [| right; exact I | reflexivity].
    unfold itemOk. cbn [cls lo hi hexRep]. auto. }
  destruct (truncatedText x p d s) eqn:E; [discriminate|].
  cbn [searchFrom]. now rewrite M.
Qed.

Lemma match_truncated_inv t m :
  match_ TRUNCATED_REGEX t = Some m ->
  exists pre x p d s post,
    truncatedShape 3 8 x p d s = true /\
    t = pre ++ truncatedText x p d s ++ post.
Proof.
  unfold match_. intros H. apply exec_Some in H as (_ & Hi & M & _).
  unfold TRUNCATED_REGEX in M. rewrite matchAlts_single in M.
  apply matchHere_sound in M as [F [rest R]].
  inversion F as [|? w1 ? c1 [Ca [La Ua]] F1]; subst.
  inversion F1 as [|? w2 ? c2 [Cb [Lb Ub]] F2]; subst.
  inversion F2 as [|? w3 ? c3 [Cc [Lc Uc]] F3]; subst.
  inversion F3 as [|? w4 ? c4 [Cd [Ld Ud]] F4]; subst.
  inversion F4 as [|? w5 ? c5 [Ce [Le Ue]] F5]; subst.
  inversion F5; subst.
  cbn [cls lo hi lit litX hexRep dots] in *.
  destruct w1 as [|z [|]]; cbn [length] in *; try lia.
  destruct w2 as [|x [|]]; cbn [length] in *; try lia.
  cbn [forallb] in Ca, Cb. rewrite andb_true_r in Ca, Cb.
  assert (z = "0"%char) by (symmetry; now apply Ascii.eqb_eq). subst z.
  exists (firstn (index m) t), x, w3, w4, w5, rest. split.
  - unfold truncatedShape. rewrite Cb, Cc, Cd, Ce. cbn [andb].
    repeat (apply andb_true_intro; split);
      solve [reflexivity | apply Nat.leb_le; lia].
  - rewrite <- (firstn_skipn (index m) t) at 1. f_equal. rewrite R.
    match goal with E : _ = groups m |- _ => rewrite <- E end.
    unfold truncatedText. cbn [concat app]. rewrite app_nil_r.
    now rewrite <- !app_assoc.
Qed.

(** C3, as the code has it. For every display text of the shape [0x],
    3 to 8 hex digits, 2 or 3 dots, 3 to 8 hex digits (the bounds of the
    resolver's own pattern) and every list of known addresses,
    [matchTruncatedAddress] compares prefix and suffix, without regard to
    case, with the characters after [0x] and the last characters of each
    known address and returns the first known address both match, in lower
    case, and [null] when none does; it returns [null] for every text
    that has no part of that shape. *)
Theorem matchTruncatedAddress_resolves :
  (forall x p d s knownAddresses,
      truncatedShape 3 8 x p d s = true ->
      matchTruncatedAddress (truncatedText x p d s) knownAddresses
      = resolveTruncated p s knownAddresses) /\
  (forall t knownAddresses,
      (forall pre x p d s post,
          truncatedShape 3 8 x p d s = true ->
          t <> pre ++ truncatedText x p d s ++ post) ->
      matchTruncatedAddress t knownAddresses = None).
Proof.
  split.
  - intros x p d s known H. unfold matchTruncatedAddress.
    rewrite (match_truncated_shape _ _ _ _ H).
    cbn [group groups nth]. apply findKnown_resolve.
  - intros t known H. unfold matchTruncatedAddress.
    destruct (match_ TRUNCATED_REGEX t) as [m|] eqn:M; auto.
    apply match_truncated_inv in M as (pre & x & p & d & s & post & Sh & E).
    exfalso. exact (H pre x p d s post Sh E).
Qed.

Lemma matchTruncatedAddress_resolves_witness :
  truncatedShape 3 8 "x" (str "1234") (str "...") (str "cdef") = true /\
  matchTruncatedAddress (str "0x1234...cdef") [sampleAddress; knownSample]
  = Some (toLowerCase knownSample).
Proof.
  split; [reflexivity|].
  exact (proj1 matchTruncatedAddress_resolves
               "x"%char (str "1234") (str "...") (str "cdef")
               [sampleAddress; knownSample] eq_refl).
Defined.

(** C3 as stated fails. A prefix of 9 hex digits has the shape the claim
    gives (3 to 10 digits) and both sides match a known address, yet the
    code returns [null]; and a text that is not of the shape but has a part
    of it is resolved, not refused. *)
Lemma matchTruncatedAddress_claimed_shape_fails :
  (truncatedShape 3 10 "x" (str "123456789") (str "...") (str "cdef") = true /\
   resolveTruncated (str "123456789") (str "cdef") [knownSample]
   = Some (toLowerCase knownSample) /\
   matchTruncatedAddress (truncatedText "x" (str "123456789") (str "...") (str "cdef"))
                         [knownSample] = None) /\
  matchTruncatedAddress (str "see 0x1234...cdef!") [knownSample]
  = Some (toLowerCase knownSample).
Proof. vm_compute. auto. Qed.

(** C10. Whatever the text and the known addresses, [matchTruncatedAddress]
    returns [null] or the lower-case form of one of the known addresses,
    and always [null] when there is no known address. *)
Theorem matchTruncatedAddress_from_known :
  forall truncated knownAddresses,
    (matchTruncatedAddress truncated knownAddresses = None \/
     exists a, In a knownAddresses /\
               matchTruncatedAddress truncated knownAddresses
               = Some (normalizeAddress a)) /\
    matchTruncatedAddress truncated [] = None.
Proof.
  intros t known. unfold matchTruncatedAddress.
  destruct (match_ TRUNCATED_REGEX t) as [m|]; auto.
  split; [apply findKnown_from_known|reflexivity].
Qed.

(* ===================================================================== *)
(** * More about utils/address.ts *)
(* ===================================================================== *)

Lemma fullShape_length w : fullShape w = true -> length w = 42.
Proof.
  intros H. apply fullShape_inv in H as (z & x & h & -> & _ & _ & Hl & _).
  cbn [length]. lia.
Qed.

(** The anchored pattern of [isValidAddress] takes the whole string. *)
Lemma isValidAddress_eq_fullShape a : isValidAddress a = fullShape a.
Proof.
  unfold isValidAddress. rewrite full_match_iff.
  destruct (fullShape (firstn 42 a)) eqn:F.
  - pose proof (fullShape_length _ F) as L.
    assert (C : length (concat [firstn 1 a; firstn 1 (skipn 1 a);
                                firstn 40 (skipn 2 a)]) = 42).
    { cbn [concat]. rewrite app_nil_r, !length_app, !length_firstn, !length_skipn.
      rewrite length_firstn in L. lia. }
    rewrite C. destruct (42 =? length a) eqn:E.
    + apply Nat.eqb_eq in E. rewrite firstn_all2 in F by lia. now rewrite F.
    + apply Nat.eqb_neq in E. destruct (fullShape a) eqn:G; auto.
      apply fullShape_length in G. lia.
  - destruct (fullShape a) eqn:G; auto.
    pose proof (fullShape_length _ G). rewrite firstn_all2 in F by lia. congruence.
Qed.

(** X1. [isValidAddress] accepts exactly the strings that are [0x] (the
    [x] in either case) and 40 hex digits and nothing else: 42 characters,
    no text before or after. *)
Theorem isValidAddress_exactly_full (a : jsstring) :
  isValidAddress a = true <->
  exists x h, a = "0"%char :: x :: h /\ isX x = true /\ length h = 40 /\
              forallb isHex h = true.
Proof.
  rewrite isValidAddress_eq_fullShape. split.
  - intros H. apply fullShape_inv in H as (z & x & h & -> & Hz & Hx & Hl & Hh).
    exists x, h. repeat split; auto. f_equal.
    symmetry. now apply Ascii.eqb_eq.
  - intros (x & h & -> & Hx & Hl & Hh). unfold fullShape.
    rewrite Hx, Hl, Hh. reflexivity.
Qed.

Lemma lowerChar_idempotent c : lowerChar (lowerChar c) = lowerChar c.
Proof. by_character c. Qed.

Lemma toLowerCase_idempotent s : toLowerCase (toLowerCase s) = toLowerCase s.
Proof.
  unfold toLowerCase. rewrite map_map. apply map_ext. apply lowerChar_idempotent.
Qed.

Lemma lower_isHex c : isHex (lowerChar c) = isHex c.
Proof. by_character c. Qed.

Lemma lower_isX c : isX (lowerChar c) = isX c.
Proof. by_character c. Qed.

Lemma lower_isZero c : isChar "0" (lowerChar c) = isChar "0" c.
Proof. by_character c. Qed.

Lemma lower_isDot c : isChar "." (lowerChar c) = isChar "." c.
Proof. by_character c. Qed.

Lemma forallb_lower (f : ascii -> bool) s :
  (forall c, f (lowerChar c) = f c) ->
  forallb f (toLowerCase s) = forallb f s.
Proof.
  intros H. induction s as [|c s IH]; cbn [toLowerCase map forallb]; auto.
  rewrite H. f_equal. exact IH.
Qed.

Lemma fullShape_lower a : fullShape (toLowerCase a) = fullShape a.
Proof.
  destruct a as [|z [|x h]]; auto.
  change (toLowerCase (z :: x :: h))
    with (lowerChar z :: lowerChar x :: toLowerCase h).
  unfold fullShape. rewrite lower_isZero, lower_isX, toLowerCase_length.
  now rewrite (forallb_lower isHex h lower_isHex).
Qed.

Lemma isCanonical_fullShape w : isCanonical w = true -> fullShape w = true.
Proof.
  destruct w as [|z [|x h]]; unfold isCanonical, fullShape; try discriminate.
  intros H. repeat (apply andb_prop in H as [H ?]).
  rewrite H, H1. unfold isX. rewrite Ascii.eqb_sym. unfold isChar in H2. rewrite H2.
  cbn [orb andb]. clear - H0.
  induction h as [|c h IH]; cbn [forallb] in *; auto.
  apply andb_prop in H0 as [Hc Hh]. rewrite (IH Hh), andb_true_r.
  unfold isHex. rewrite Hc. reflexivity.
Qed.

(** X2. [normalizeAddress] applied twice is [normalizeAddress] applied
    once; it makes no string valid and no valid string invalid; and its
    result is in canonical form ([0x] and 40 digits among [0-9a-f]) exactly
    when the string it was given is a valid address. *)
Theorem normalizeAddress_idempotent (a : jsstring) :
  normalizeAddress (normalizeAddress a) = normalizeAddress a /\
  isValidAddress (normalizeAddress a) = isValidAddress a /\
  isCanonical (normalizeAddress a) = isValidAddress a.
Proof.
  unfold normalizeAddress. rewrite !isValidAddress_eq_fullShape.
  split; [apply toLowerCase_idempotent|]. split; [apply fullShape_lower|].
  destruct (fullShape a) eqn:F.
  - now apply fullShape_canonical.
  - destruct (isCanonical (toLowerCase a)) eqn:C; auto.
    apply isCanonical_fullShape in C. rewrite fullShape_lower in C. congruence.
Qed.

(** X3. A string longer than [startChars + endChars + 2] is cut down by
    [truncateAddress] to its first [startChars + 2] characters, three
    dots and its last [endChars] characters when [endChars] is not 0:
    [startChars + endChars + 5] characters in all. *)
Theorem truncateAddress_shape (a : jsstring) (startChars endChars : nat) :
  startChars + endChars + 2 < length a -> 0 < endChars ->
  truncateAddress a startChars endChars
  = firstn (startChars + 2) a ++ str "..." ++ skipn (length a - endChars) a /\
  length (truncateAddress a startChars endChars) = startChars + endChars + 5.
Proof.
  intros L E. unfold truncateAddress.
  destruct (length a <=? startChars + endChars + 2) eqn:C;
    [apply Nat.leb_le in C; lia|].
  unfold slice, sliceLast. destruct (endChars =? 0) eqn:Z;
    [apply Nat.eqb_eq in Z; lia|].
  rewrite Nat.sub_0_r. cbn [skipn]. split; auto.
  rewrite !length_app, length_firstn, length_skipn.
  cbn [str list_ascii_of_string length]. lia.
Qed.

Lemma truncateAddress_shape_witness :
  6 + 4 + 2 < length sampleAddress /\ 0 < 4 /\
  truncateAddress sampleAddress 6 4 = str "0xABCDEF...789A".
Proof.
  assert (L : 6 + 4 + 2 < length sampleAddress) by (vm_compute; lia).
  assert (E : 0 < 4) by lia.
  split; [exact L|]. split; [exact E|].
  rewrite (proj1 (truncateAddress_shape sampleAddress 6 4 L E)). reflexivity.
Defined.

(** X4. With [endChars = 0] the result of [truncateAddress] does not end
    with the dots: [address.slice(-0)] is the whole string, so a string
    longer than [startChars + 2] comes back as its first [startChars + 2]
    characters, three dots and the whole string again. *)
Theorem truncateAddress_zero_end (a : jsstring) (startChars : nat) :
  startChars + 2 < length a ->
  truncateAddress a startChars 0 = firstn (startChars + 2) a ++ str "..." ++ a.
Proof.
  intros H. unfold truncateAddress, slice, sliceLast.
  destruct (length a <=? startChars + 0 + 2) eqn:C;
    [apply Nat.leb_le in C; lia|].
  now rewrite Nat.sub_0_r.
Qed.

Lemma truncateAddress_zero_end_witness :
  truncateAddress sampleAddress 6 0 = str "0xABCDEF..." ++ sampleAddress.
Proof.
  rewrite (truncateAddress_zero_end sampleAddress 6); [reflexivity|].
  vm_compute. lia.
Defined.

Lemma isZero_eq z : isChar "0" z = true -> z = "0"%char.
Proof. unfold isChar. intros H. symmetry. now apply Ascii.eqb_eq. Qed.

Lemma forallb_skipn {A} (f : A -> bool) n l :
  forallb f l = true -> forallb f (skipn n l) = true.
Proof.
  revert l. induction n; intros [|x l] H; simpl in *; auto.
  apply andb_prop in H as [_ H]. auto.
Qed.

(** The display form of a full address. *)
Lemma truncateAddress_full a s e :
  fullShape a = true -> s + e < 40 -> 0 < e ->
  exists x h, a = "0"%char :: x :: h /\ isX x = true /\ length h = 40 /\
              forallb isHex h = true /\
              truncateAddress a s e
              = truncatedText x (firstn s h) (str "...") (skipn (40 - e) h).
Proof.
  intros F L E. apply fullShape_inv in F as (z & x & h & -> & Hz & Hx & Hl & Hh).
  apply isZero_eq in Hz. subst z. exists x, h. repeat split; auto.
  unfold truncateAddress. cbn [length]. rewrite Hl.
  destruct (S (S 40) <=? s + e + 2) eqn:C; [apply Nat.leb_le in C; lia|].
  unfold slice, sliceLast, truncatedText.
  destruct (e =? 0) eqn:Z; [apply Nat.eqb_eq in Z; lia|].
  rewrite Nat.sub_0_r. replace (s + 2) with (S (S s)) by lia.
  replace (length ("0"%char :: x :: h) - e) with (S (S (40 - e)))
    by (cbn [length]; lia).
  reflexivity.
Qed.

(** X5. What [truncateAddress] makes of a valid address with 3 to 8
    characters kept on either side (6 and 4 by default),
    [matchTruncatedAddress] resolves back to that address, in lower case,
    when it stands first among the known addresses. *)
Theorem truncateAddress_resolves_back
        (a : jsstring) (startChars endChars : nat) (rest : list jsstring) :
  isValidAddress a = true ->
  3 <= startChars <= 8 -> 3 <= endChars <= 8 ->
  matchTruncatedAddress (truncateAddress a startChars endChars) (a :: rest)
  = Some (normalizeAddress a).
Proof.
  intros V [S1 S2] [E1 E2]. rewrite isValidAddress_eq_fullShape in V.
  destruct (truncateAddress_full a startChars endChars V)
    as (x & h & -> & Hx & Hl & Hh & ->); try lia.
  set (p := firstn startChars h). set (q := skipn (40 - endChars) h).
  assert (Lp : length p = startChars) by (unfold p; rewrite length_firstn; lia).
  assert (Lq : length q = endChars) by (unfold q; rewrite length_skipn; lia).
  assert (Sh : truncatedShape 3 8 x p (str "...") q = true).
  { unfold truncatedShape. rewrite Hx, Lp, Lq.
    unfold p, q. rewrite forallb_firstn, forallb_skipn by exact Hh.
    cbn [andb]. repeat (apply andb_true_intro; split);
      solve [reflexivity | apply Nat.leb_le; lia]. }
  unfold matchTruncatedAddress. rewrite (match_truncated_shape _ _ _ _ Sh).
  cbn [group groups nth]. rewrite findKnown_resolve.
  unfold resolveTruncated. cbn [find].
  assert (M : sidesMatch p q ("0"%char :: x :: h) = true).
  { unfold sidesMatch, slice, sliceLast. rewrite Lp, Lq.
    destruct (endChars =? 0) eqn:Z; [apply Nat.eqb_eq in Z; lia|].
    replace (2 + startChars - 2) with startChars by lia.
    replace (length ("0"%char :: x :: h) - endChars) with (S (S (40 - endChars)))
      by (cbn [length]; lia).
    cbn [skipn]. fold p q. now rewrite !eqb_refl. }
  now rewrite M.
Qed.

Lemma truncateAddress_resolves_back_witness :
  matchTruncatedAddress (truncateAddress sampleAddress 6 4)
                        [sampleAddress; knownSample]
  = Some (normalizeAddress sampleAddress).
Proof.
  apply (truncateAddress_resolves_back sampleAddress 6 4 [knownSample]).
  - reflexivity.
  - lia.
  - lia.
Defined.

Lemma isX_not_hexOrDot c : isX c = true -> hexOrDot c = false.
Proof. by_character c. Qed.

Lemma isX_not_zero c : isX c = true -> c <> "0"%char.
Proof. by_character c. Qed.

Lemma forallb_in_mid {A} (f : A -> bool) pre x post :
  forallb f (pre ++ x :: post) = true -> f x = true.
Proof.
  rewrite forallb_app. intros H. apply andb_prop in H as [_ H].
  cbn [forallb] in H. now apply andb_prop in H as [H _].
Qed.

(** In a text that is [0x] and then hex digits and dots only, the pattern
    of truncated addresses can match at the start only. *)
Lemma truncated_only_at_start x0 body pre x p d s post :
  isX x0 = true -> forallb hexOrDot body = true -> isX x = true ->
  "0"%char :: x0 :: body = pre ++ truncatedText x p d s ++ post ->
  pre = [].
Proof.
  intros Hx0 Hb Hx E. destruct pre as [|c pre]; auto. exfalso.
  unfold truncatedText in E. cbn [app] in E. injection E as _ E.
  destruct pre as [|c' pre]; cbn [app] in E.
  - injection E as E _. now apply (isX_not_zero _ Hx0).
  - injection E as _ E. rewrite E in Hb.
    change (pre ++ "0"%char :: x :: (p ++ d ++ s) ++ post)
      with (pre ++ ["0"%char] ++ x :: ((p ++ d ++ s) ++ post)) in Hb.
    rewrite app_assoc in Hb.
    apply forallb_in_mid in Hb. rewrite (isX_not_hexOrDot _ Hx) in Hb.
    discriminate.
Qed.

(** X6. What [truncateAddress] makes of a valid address with 9 or more
    characters kept at the start, as the header of the panel does with
    [truncateAddress(address, 10, 8)], [matchTruncatedAddress] resolves to
    no address, whatever the known addresses are. *)
Theorem long_prefix_never_resolved
        (a : jsstring) (startChars endChars : nat) (known : list jsstring) :
  isValidAddress a = true ->
  9 <= startChars -> 0 < endChars -> startChars + endChars < 40 ->
  matchTruncatedAddress (truncateAddress a startChars endChars) known = None.
Proof.
  intros V S1 E1 L. rewrite isValidAddress_eq_fullShape in V.
  destruct (truncateAddress_full a startChars endChars V)
    as (x0 & h & -> & Hx0 & Hl & Hh & ->); try lia.
  unfold matchTruncatedAddress.
  destruct (match_ TRUNCATED_REGEX _) as [m|] eqn:M; auto. exfalso.
  apply match_truncated_inv in M as (pre & x & p & d & s & post & Sh & E).
  apply truncatedShape_inv in Sh
    as (Hx & (Hp & Lp & Up) & (Hd & Ld & Ud) & _).
  assert (pre = []).
  { unfold truncatedText at 1 in E.
    apply (truncated_only_at_start x0 _ pre x p d s post Hx0) in E; auto.
    rewrite !forallb_app. unfold hexOrDot.
    assert (W : forall l, forallb isHex l = true ->
                forallb (fun c => isHex c || isChar "." c) l = true).
    { induction l as [|c l IH]; cbn [forallb]; auto. intros G.
      apply andb_prop in G as [-> G]. cbn [orb andb]. auto. }
    rewrite (W _ (forallb_firstn _ startChars _ Hh)).
    rewrite (W _ (forallb_skipn _ (40 - endChars) _ Hh)).
    reflexivity. }
  subst pre. unfold truncatedText in E. cbn [app] in E. injection E as _ E.
  apply (f_equal (fun l => nth_error l (length p))) in E.
  rewrite nth_error_app1 in E by (rewrite length_firstn; lia).
  rewrite <- !app_assoc in E. rewrite nth_error_app2 in E by lia.
  rewrite Nat.sub_diag in E.
  destruct d as [|c d]; [simpl in Ld; lia|]. cbn [app nth_error] in E.
  cbn [forallb] in Hd. apply andb_prop in Hd as [Hc _].
  apply nth_error_In in E.
  assert (G : isHex c = true).
  { pose proof (forallb_firstn isHex startChars h Hh) as G.
    rewrite forallb_forall in G. now apply G. }
  rewrite (dot_not_hex _ Hc) in G. discriminate.
Qed.

Lemma long_prefix_never_resolved_witness :
  matchTruncatedAddress (truncateAddress sampleAddress 10 8) [sampleAddress] = None.
Proof.
  apply (long_prefix_never_resolved sampleAddress 10 8 [sampleAddress]).
  - reflexivity.
  - lia.
  - lia.
  - lia.
Defined.

(** An occurrence at or after [L] starts a match or lies inside one. *)
Lemma execLoop_full_cover T : forall fuel L,
  L <= length T -> length T - L < fuel ->
  forall i, L <= i -> occursAt T i = true ->
  exists m, In m (execLoop fuel FULL_ADDRESS_REGEX T L) /\
            index m <= i < index m + 42.
Proof.
  induction fuel as [|fuel IH]; intros L HL HF i Hi O; [lia|].
  cbn [execLoop].
  destruct (exec FULL_ADDRESS_REGEX T L) as [m|] eqn:E.
  - destruct (exec_full_Some _ _ _ E) as (H1 & H2 & H3 & H4 & H5 & H6).
    destruct (Nat.lt_ge_cases i (index m)) as [Lt|Ge].
    { rewrite (H6 i Hi Lt) in O. discriminate. }
    destruct (Nat.lt_ge_cases i (index m + 42)) as [In_|Out].
    + exists m. split; [left; reflexivity|lia].
    + destruct (IH (lastIndexAfter m)) with (i := i) as (m' & Hm & Hr);
        try lia; auto.
      exists m'. split; [right; exact Hm|exact Hr].
  - rewrite (exec_full_None _ _ E i Hi) in O. discriminate.
Qed.

Lemma findAddressesInText_covers T :
  Forall (fun i => exists m, In m (findAddressesInText T) /\
                             startIndex m <= i < endIndex m)
         (occurrences T).
Proof.
  unfold findAddressesInText, execAll.
  destruct (execLoop_full_ok T (S (length T)) 0) as [Ok _].
  apply Forall_forall. intros i Hi. apply filter_In in Hi as [_ O].
  destruct (execLoop_full_cover T (S (length T)) 0) with (i := i)
    as (m & Hm & Hr); try lia; auto.
  exists (toMatch m). split; [now apply in_map|].
  assert (M : matchOk T (toMatch m)).
  { rewrite Forall_forall in Ok. apply Ok. now apply in_map. }
  destruct M as (_ & _ & _ & Sh & _).
  apply fullShape_inv in Sh as (z & x & h & Eq & _ & _ & Hl & _).
  cbn [toMatch startIndex endIndex fullMatch] in *. rewrite Eq. cbn [length]. lia.
Qed.

Lemma findAddressesInText_nil T :
  findAddressesInText T = [] <-> occurrences T = [].
Proof.
  split; intros E.
  - pose proof (findAddressesInText_covers T) as Cover. rewrite E in Cover.
    destruct (occurrences T) as [|i r]; auto.
    inversion Cover as [|? ? (m & [] & _) _].
  - unfold findAddressesInText, execAll.
    destruct (execLoop (S (length T)) FULL_ADDRESS_REGEX T 0) as [|m r] eqn:R; auto.
    exfalso. cbn [execLoop] in R.
    destruct (exec FULL_ADDRESS_REGEX T 0) as [m0|] eqn:X; [|discriminate].
    destruct (exec_full_Some _ _ _ X) as (_ & H2 & H3 & _).
    assert (I : In (index m0) (occurrences T)).
    { apply filter_In. split; auto. apply in_seq. lia. }
    rewrite E in I. destruct I.
Qed.

(** X7. Whatever the text, also when full addresses overlap in it: every
    match [findAddressesInText] returns is a full address of the text with
    the right bounds and its lower-case form, the matches come in order
    and do not overlap, every position at which a full address occurs is
    inside one of the matches, and no match is returned exactly when no
    full address occurs. *)
Theorem findAddressesInText_any_text (T : jsstring) :
  Forall (matchOk T) (findAddressesInText T) /\
  orderedFrom 0 (findAddressesInText T) /\
  Forall (fun i => exists m, In m (findAddressesInText T) /\
                             startIndex m <= i < endIndex m)
         (occurrences T) /\
  (findAddressesInText T = [] <-> occurrences T = []).
Proof.
  destruct (execLoop_full_ok T (S (length T)) 0) as [Ok Ord].
  split; [exact Ok|]. split; [exact Ord|].
  split; [apply findAddressesInText_covers|apply findAddressesInText_nil].
Qed.

Lemma spanClass_lower f n s :
  (forall c, f (lowerChar c) = f c) ->
  spanClass f n (toLowerCase s) = spanClass f n s.
Proof.
  intros H. revert s.
  induction n; intros [|a s]; cbn [toLowerCase map spanClass]; auto.
  rewrite H. destruct (f a); auto.
Qed.

Lemma tryDown_lower k k' l s :
  (forall t, k' (toLowerCase t) = lowerCaps (k t)) ->
  forall n, tryDown k' l (toLowerCase s) n = lowerCaps (tryDown k l s n).
Proof.
  intros K.
  assert (Sk : forall n, skipn n (toLowerCase s) = toLowerCase (skipn n s))
    by (intros n; unfold toLowerCase; now rewrite skipn_map).
  assert (Fi : forall n, firstn n (toLowerCase s) = toLowerCase (firstn n s))
    by (intros n; unfold toLowerCase; now rewrite firstn_map).
  induction n as [|n IH]; rewrite (tryDown_eq k'), (tryDown_eq k);
    rewrite Sk, K, Fi.
  - destruct (0 <? l); auto. destruct (k (skipn 0 s)); reflexivity.
  - destruct (S n <? l); auto. destruct (k (skipn (S n) s)); [reflexivity|].
    exact IH.
Qed.

Lemma matchHere_lower p :
  Forall caseBlind p ->
  forall s, matchHere p (toLowerCase s) = lowerCaps (matchHere p s).
Proof.
  induction 1 as [|it p B F IH]; intros s; cbn [matchHere]; auto.
  rewrite (spanClass_lower _ _ _ B). now apply tryDown_lower.
Qed.

Lemma matchAlts_lower r :
  Forall (Forall caseBlind) r ->
  forall s, matchAlts r (toLowerCase s) = lowerCaps (matchAlts r s).
Proof.
  induction 1 as [|p r B F IH]; intros s; cbn [matchAlts]; auto.
  rewrite (matchHere_lower p B).
  destruct (matchHere p s); cbn [lowerCaps option_map]; auto.
Qed.

Lemma searchFrom_lower r :
  Forall (Forall caseBlind) r ->
  forall s i, searchFrom r (toLowerCase s) i = lowerResult (searchFrom r s i).
Proof.
  intros B. induction s as [|a s IH]; intros i; cbn [toLowerCase map searchFrom].
  - change (@nil ascii) with (toLowerCase []) at 1. rewrite (matchAlts_lower r B).
    destruct (matchAlts r []); reflexivity.
  - change (lowerChar a :: map lowerChar s) with (toLowerCase (a :: s)).
    rewrite (matchAlts_lower r B). destruct (matchAlts r (a :: s)); [reflexivity|].
    apply IH.
Qed.

Lemma match_lower r s :
  Forall (Forall caseBlind) r ->
  match_ r (toLowerCase s) = lowerResult (match_ r s).
Proof.
  intros B. unfold match_, exec. cbn [Nat.ltb Nat.leb skipn].
  now apply searchFrom_lower.
Qed.

Lemma TRUNCATED_REGEX_caseBlind : Forall (Forall caseBlind) TRUNCATED_REGEX.
Proof.
  repeat constructor; intros c; cbn [cls lit litX hexRep dots].
  - apply lower_isZero.
  - apply lower_isX.
  - apply lower_isHex.
  - apply lower_isDot.
  - apply lower_isHex.
Qed.

Lemma findKnown_lower_known prefix suffix known :
  findKnown prefix suffix (map toLowerCase known) = findKnown prefix suffix known.
Proof.
  induction known as [|a known IH]; cbn [map findKnown]; auto.
  unfold normalizeAddress. rewrite toLowerCase_idempotent, IH. reflexivity.
Qed.

(** X8. [matchTruncatedAddress] does not tell upper case from lower case,
    neither in the display text nor in the known addresses: the text and
    the addresses put in lower case resolve to the same address. *)
Theorem matchTruncatedAddress_ignores_case
        (truncated : jsstring) (knownAddresses : list jsstring) :
  matchTruncatedAddress (toLowerCase truncated) (map toLowerCase knownAddresses)
  = matchTruncatedAddress truncated knownAddresses.
Proof.
  unfold matchTruncatedAddress.
  rewrite (match_lower _ _ TRUNCATED_REGEX_caseBlind).
  destruct (match_ TRUNCATED_REGEX truncated) as [m|];
    cbn [lowerResult option_map]; auto.
  unfold group. cbn [groups].
  change (@nil ascii) with (toLowerCase []).
  rewrite !map_nth, !toLowerCase_idempotent.
  apply findKnown_lower_known.
Qed.

(** X24. A valid address, taken as a text, is found by
    [findAddressesInText] as one match that covers it from position 0 to
    42, with its lower-case form as the address. *)
Theorem valid_address_found_whole (a : jsstring) :
  isValidAddress a = true ->
  findAddressesInText a = [mkMatch (normalizeAddress a) a 0 42 false].
Proof.
  intros V. rewrite isValidAddress_eq_fullShape in V.
  pose proof (fullShape_length _ V) as L.
  unfold findAddressesInText, execAll. rewrite L.
  change (execLoop 43 FULL_ADDRESS_REGEX a 0)
    with (match exec FULL_ADDRESS_REGEX a 0 with
          | None => []
          | Some m => m :: execLoop 42 FULL_ADDRESS_REGEX a (lastIndexAfter m)
          end).
  destruct (exec FULL_ADDRESS_REGEX a 0) as [m|] eqn:E.
  - destruct (exec_full_Some _ _ _ E) as (_ & H2 & _ & H4 & H5 & _).
    assert (I : index m = 0) by lia.
    assert (M : matched m = a).
    { rewrite H4, I. unfold slice. cbn [skipn]. apply firstn_all2. lia. }
    rewrite H5, I. cbn [Nat.add].
    change (execLoop 42 FULL_ADDRESS_REGEX a 42)
      with (match exec FULL_ADDRESS_REGEX a 42 with
            | None => []
            | Some m => m :: execLoop 41 FULL_ADDRESS_REGEX a (lastIndexAfter m)
            end).
    destruct (exec FULL_ADDRESS_REGEX a 42) as [m'|] eqn:E'.
    + destruct (exec_full_Some _ _ _ E') as (? & ? & _). lia.
    + cbn [map]. unfold toMatch. rewrite M, I, L. reflexivity.
  - pose proof (exec_full_None _ _ E 0 (Nat.le_refl 0)) as O.
    unfold occursAt, slice in O. cbn [skipn] in O.
    rewrite firstn_all2 in O by lia. congruence.
Qed.

Lemma valid_address_found_whole_witness :
  findAddressesInText sampleAddress
  = [mkMatch (normalizeAddress sampleAddress) sampleAddress 0 42 false].
Proof.
  apply (valid_address_found_whole sampleAddress). reflexivity.
Defined.

(* ===================================================================== *)
(** * The replacement of a text node *)
(* ===================================================================== *)

Lemma wrapperAddress_created e a d :
  wrapperAddress (createAddressElement e a d) = Some a.
Proof.
  unfold createAddressElement.
  destruct (cacheGet (tagCache e) (normalizeAddress a)); reflexivity.
Qed.

Lemma textContent_created e a d :
  cacheGet (tagCache e) (normalizeAddress a) = None ->
  textContent (createAddressElement e a d) = d.
Proof.
  unfold createAddressElement. intros ->.
  destruct d; cbn; auto. now rewrite !app_nil_r.
Qed.

Lemma untagged_created e a d rest :
  untagged e (createAddressElement e a d :: rest) = true ->
  cacheGet (tagCache e) (normalizeAddress a) = None /\ untagged e rest = true.
Proof.
  unfold untagged. cbn [forallb]. rewrite wrapperAddress_created.
  destruct (cacheGet (tagCache e) (normalizeAddress a)); cbn [andb]; auto.
  discriminate.
Qed.

Lemma untagged_app e a b :
  untagged e (a ++ b) = untagged e a && untagged e b.
Proof. apply forallb_app. Qed.

Lemma textContents_app a b :
  textContents (a ++ b) = textContents a ++ textContents b.
Proof. unfold textContents. now rewrite map_app, concat_app. Qed.

Lemma slice_skipn T a b : a <= b -> slice T a b ++ skipn b T = skipn a T.
Proof.
  intros H. unfold slice.
  rewrite <- (firstn_skipn (b - a) (skipn a T)) at 2.
  rewrite skipn_skipn. now replace (b - a + a) with b by lia.
Qed.

Lemma skipn_all_nil {A} n (l : list A) : length l <= n -> skipn n l = [].
Proof. intros H. now apply skipn_all2. Qed.

Lemma buildFragment_lossless e T : forall ms lastIndex,
  orderedFrom lastIndex ms -> Forall (matchOk T) ms ->
  untagged e (buildFragment e T lastIndex ms) = true ->
  textContents (buildFragment e T lastIndex ms) = skipn lastIndex T.
Proof.
  induction ms as [|m ms IH]; intros lastIndex Ord Ok U; cbn [buildFragment] in *.
  - destruct (lastIndex <? length T) eqn:E.
    + unfold textContents. cbn. now rewrite app_nil_r.
    + apply Nat.ltb_ge in E. now rewrite skipn_all_nil.
  - destruct Ord as [O1 O2]. inversion Ok as [|? ? Hm Ok']; subst.
    destruct Hm as (M1 & M2 & M3 & _).
    rewrite untagged_app in U. apply andb_prop in U as [_ U].
    apply untagged_created in U as [Un U].
    rewrite textContents_app.
    change (textContents (?x :: ?r)) with (textContent x ++ textContents r).
    rewrite textContent_created by auto. rewrite IH by auto.
    rewrite M3, slice_skipn by lia.
    destruct (lastIndex <? startIndex m) eqn:E.
    + unfold textContents at 1. cbn [map concat textContent].
      rewrite app_nil_r. apply slice_skipn. apply Nat.ltb_lt in E. lia.
    + apply Nat.ltb_ge in E. now replace lastIndex with (startIndex m) by lia.
Qed.

Lemma wrapWithAddressElement_lossless e T start len a :
  untagged e (wrapWithAddressElement e T start len a) = true ->
  textContents (wrapWithAddressElement e T start len a) = T.
Proof.
  unfold wrapWithAddressElement. intros U.
  rewrite untagged_app in U. apply andb_prop in U as [_ U].
  cbn [app] in U. apply untagged_created in U as [Un _].
  rewrite textContents_app. cbn [app].
  change (textContents (?x :: ?r)) with (textContent x ++ textContents r).
  rewrite textContent_created by auto.
  assert (Tail : textContents
                   (if start + len <? length T
                    then [Text (sliceFrom T (start + len))] else [])
                 = skipn (start + len) T).
  { destruct (start + len <? length T) eqn:E.
    - unfold textContents. cbn. now rewrite app_nil_r.
    - apply Nat.ltb_ge in E. now rewrite skipn_all_nil. }
  rewrite Tail, slice_skipn by lia.
  destruct (0 <? start) eqn:E.
  - unfold textContents. cbn [map concat textContent]. rewrite app_nil_r.
    now rewrite slice_skipn by lia.
  - apply Nat.ltb_ge in E. now replace start with 0 by lia.
Qed.

(** C4. Whatever [processTextNode] puts in place of a text node, when no
    address element among it is for an address with an entry in the tag
    cache, the text contents of the replacement nodes, one after the
    other, are the text of the node, character for character. *)
Theorem processTextNode_lossless
  (matchShortAddress : jsstring -> list jsstring -> option jsstring)
  (e : env) (chain : list element) (text : jsstring) :
  untagged e (fst (processTextNode matchShortAddress e chain text)) = true ->
  textContents (fst (processTextNode matchShortAddress e chain text)) = text.
Proof.
  unfold processTextNode.
  pose proof (execLoop_full_ok text (S (length text)) 0) as [Ok Ord].
  fold (execAll FULL_ADDRESS_REGEX text) in Ok, Ord.
  fold (findAddressesInText text) in Ok, Ord.
  destruct (findAddressesInText text) as [|m ms] eqn:F.
  - assert (Same : textContents [Text text] = text)
      by (unfold textContents; cbn; now rewrite app_nil_r).
    destruct (0 <? length (knownAddresses e)); auto.
    unfold processTruncatedAddresses.
    destruct (negb (hasParent chain) || isAlreadyProcessed chain); auto.
    destruct (isTxHref _); auto.
    destruct (truncatedWrap matchShortAddress e chain text) as [[[i l] a]|]; auto.
    cbn [fst]. apply wrapWithAddressElement_lossless.
  - destruct (negb (hasParent chain)).
    + intros _. unfold textContents. cbn. now rewrite app_nil_r.
    + cbn [fst]. intros U. now rewrite buildFragment_lossless.
Qed.

Lemma processTextNode_lossless_witness :
  untagged plainEnv
    (fst (processTextNode noShortMatch plainEnv
            [mkElement (str "p") [] [] false] sampleText)) = true /\
  textContents
    (fst (processTextNode noShortMatch plainEnv
            [mkElement (str "p") [] [] false] sampleText)) = sampleText.
Proof.
  split; [reflexivity|].
  exact (processTextNode_lossless noShortMatch plainEnv
           [mkElement (str "p") [] [] false] sampleText eq_refl).
Defined.

(* ===================================================================== *)
(** * Transaction links *)
(* ===================================================================== *)

Lemma getAttribute_removed attrs name :
  getAttribute (removeAttribute name attrs) name = None.
Proof.
  induction attrs as [|[k v] attrs IH]; cbn [removeAttribute filter fst]; auto.
  destruct (Js.eqb name k) eqn:E; cbn [negb]; auto.
  cbn [getAttribute]. now rewrite E.
Qed.

Lemma getAttribute_other attrs name other :
  Js.eqb other name = false ->
  getAttribute (removeAttribute name attrs) other = getAttribute attrs other.
Proof.
  intros N. induction attrs as [|[k v] attrs IH];
    cbn [removeAttribute filter fst getAttribute]; auto.
  destruct (Js.eqb name k) eqn:E; cbn [negb].
  - apply eqb_eq in E. subst k. now rewrite N.
  - cbn [getAttribute]. fold (removeAttribute name attrs). now rewrite IH.
Qed.

Lemma dataNames_removed attrs :
  filter (startsWith (str "data-"))
         (getAttributeNames (removeAttribute (str "href") attrs))
  = filter (startsWith (str "data-")) (getAttributeNames attrs).
Proof.
  unfold getAttributeNames.
  induction attrs as [|[k v] attrs IH]; cbn [removeAttribute filter map fst]; auto.
  fold (removeAttribute (str "href") attrs).
  destruct (Js.eqb (str "href") k) eqn:E; cbn [negb map filter fst].
  - apply eqb_eq in E. subst k. rewrite IH.
    now change (startsWith (str "data-") (str "href")) with false.
  - now rewrite IH.
Qed.

Lemma dropTxHref_same el :
  isBody (dropTxHref el) = isBody el /\
  attributesToCheck (dropTxHref el) = attributesToCheck el /\
  hrefAddress (dropTxHref el) = hrefAddress el /\
  dataAttributesOf (dropTxHref el) = dataAttributesOf el.
Proof.
  unfold dropTxHref, isTxLink.
  destruct (getAttribute (attributes el) (str "href")) as [href|] eqn:G; auto.
  destruct (isTxHref href) eqn:Tx; auto.
  split; [reflexivity|]. split; [|split].
  - unfold attributesToCheck. cbn [attributes map].
    now rewrite !getAttribute_other by reflexivity.
  - unfold hrefAddress. cbn [attributes].
    rewrite getAttribute_removed, G, Tx. now rewrite andb_false_r.
  - unfold dataAttributesOf. cbn [attributes]. rewrite dataNames_removed.
    apply map_ext_in. intros name Hn. apply filter_In in Hn as [_ Hn].
    apply getAttribute_other. apply eqb_neq. intros ->. discriminate Hn.
Qed.

(** C9. [findAddressInAttributes] gives the same answer when the href of
    every element whose href contains [/tx/] or [/transaction/] is taken
    away: nothing it returns comes from such an href. And
    [processTruncatedAddresses] leaves a text node alone when the href of
    the closest link contains one of the two. *)
Theorem transaction_href_never_used :
  (forall chain,
      findAddressInAttributes (map dropTxHref chain)
      = findAddressInAttributes chain) /\
  (forall matchShortAddress e chain text link,
      closest (str "a") chain = Some link ->
      isTxLink link = true ->
      processTruncatedAddresses matchShortAddress e chain text
      = ([Text text], false)).
Proof.
  split.
  - induction chain as [|el chain IH]; cbn [map findAddressInAttributes]; auto.
    destruct (dropTxHref_same el) as (-> & -> & -> & ->). now rewrite IH.
  - intros ms e chain text link C Tx. unfold processTruncatedAddresses.
    destruct (negb (hasParent chain) || isAlreadyProcessed chain); auto.
    rewrite C.
    unfold isTxLink in Tx. unfold attributeOrEmpty.
    destruct (getAttribute (attributes link) (str "href")); [|discriminate].
    now rewrite Tx.
Qed.

Lemma transaction_href_never_used_witness :
  closest (str "a") [mkElement (str "span") [] [] false; txLink] = Some txLink /\
  isTxLink txLink = true /\
  findAddressInAttributes [mkElement (str "span") [] [] false; txLink] = None /\
  processTruncatedAddresses noShortMatch plainEnv
    [mkElement (str "span") [] [] false; txLink] (str "0xdead...aaaa")
  = ([Text (str "0xdead...aaaa")], false).
Proof.
  split; [reflexivity|]. split; [reflexivity|]. split.
  - rewrite <- (proj1 transaction_href_never_used). reflexivity.
  - exact (proj2 transaction_href_never_used noShortMatch plainEnv
                 [mkElement (str "span") [] [] false; txLink]
                 (str "0xdead...aaaa") txLink eq_refl eq_refl).
Defined.

(* ===================================================================== *)
(** * The annotation walk, run twice *)
(* ===================================================================== *)

Section WalkFacts.

Variable process : bool -> jsstring -> list node * bool.
Variable scanElem : bool -> node -> node.

Lemma walk_rejected : forall accept cs marked,
  accept = false ->
  Forall (fun c => forall m, scanElem m c = c) cs ->
  walk accept process scanElem marked cs = (cs, marked).
Proof.
  intros accept cs marked ->. induction cs as [|c cs IH]; intros F; cbn [walk]; auto.
  inversion F as [|? ? Hc F']; subst.
  destruct c as [s|t cl at_ ch]; rewrite (IH F'); auto. now rewrite Hc.
Qed.

Lemma walk_mono : forall accept cs marked cs' marked',
  walk accept process scanElem marked cs = (cs', marked') ->
  marked = true -> marked' = true.
Proof.
  intros accept. induction cs as [|c cs IH]; intros m cs' m' W ->.
  - now injection W.
  - destruct c as [s|t cl at_ ch]; cbn [walk] in W.
    + destruct accept.
      * destruct (process true s) as [ns m1].
        destruct (walk true process scanElem (true || m1) cs) as [r m2] eqn:R.
        injection W as _ <-. now apply (IH _ _ _ R).
      * destruct (walk false process scanElem true cs) as [r m2] eqn:R.
        injection W as _ <-. now apply (IH _ _ _ R).
    + destruct (walk accept process scanElem true cs) as [r m2] eqn:R.
      injection W as _ <-. now apply (IH _ _ _ R).
Qed.

Hypothesis process_unmarked :
  forall s ns, process false s = (ns, false) -> ns = [Text s].

Hypothesis scanElem_elem :
  forall c, isElem c = true -> isElem (scanElem false c) = true.

(** A pass that marks nothing leaves children on which a second pass
    changes nothing. *)
Lemma walk_stable : forall accept cs cs',
  Forall (fun c => scanElem false (scanElem false c) = scanElem false c) cs ->
  walk accept process scanElem false cs = (cs', false) ->
  walk accept process scanElem false cs' = (cs', false).
Proof.
  intros accept. induction cs as [|c cs IH]; intros cs' F W.
  - injection W as <-. reflexivity.
  - inversion F as [|? ? Hc F']; subst.
    destruct c as [s|t cl at_ ch]; cbn [walk] in W.
    + destruct accept eqn:A.
      * destruct (process false s) as [ns m1] eqn:P. cbn [orb] in W.
        destruct (walk true process scanElem m1 cs) as [r m2] eqn:R.
        injection W as <- ->.
        destruct m1; [now pose proof (walk_mono _ _ _ _ _ R eq_refl)|].
        pose proof (process_unmarked _ _ P) as ->. cbn [app walk].
        rewrite P. cbn [orb]. rewrite (IH _ F' R). reflexivity.
      * destruct (walk false process scanElem false cs) as [r m2] eqn:R.
        injection W as <- ->. cbn [walk]. now rewrite (IH _ F' eq_refl).
    + destruct (walk accept process scanElem false cs) as [r m2] eqn:R.
      injection W as <- ->.
      pose proof (scanElem_elem (Elem t cl at_ ch) eq_refl) as E.
      destruct (scanElem false (Elem t cl at_ ch)) as [|t' cl' at' ch'] eqn:S;
        [discriminate|].
      cbn [walk]. rewrite Hc, (IH _ F' eq_refl). reflexivity.
Qed.

End WalkFacts.

Lemma contains_classAdd c cl : contains (classAdd c cl) c = true.
Proof.
  unfold classAdd. destruct (contains cl c) eqn:E; auto.
  unfold contains. rewrite existsb_app. cbn. rewrite eqb_refl.
  now rewrite orb_true_r.
Qed.

Lemma hasMarker_marked cl : hasMarker (marking true cl) = true.
Proof.
  unfold hasMarker, marking, markerClasses. cbn [existsb].
  now rewrite contains_classAdd.
Qed.

Lemma acceptNode_rejected chain :
  isAlreadyProcessed chain = true -> acceptNode chain = false.
Proof.
  unfold acceptNode. destruct chain as [|p up]; auto. intros ->.
  now destruct (existsb _ skippedTags).
Qed.

Section ScanFacts.

Variable matchShortAddress : jsstring -> list jsstring -> option jsstring.
Variable e : env.

Lemma processTextNode_unmarked chain s ns :
  processTextNode matchShortAddress e chain s = (ns, false) -> ns = [Text s].
Proof.
  unfold processTextNode, processTruncatedAddresses.
  destruct (findAddressesInText s);
    [|destruct (negb (hasParent chain)); [now intros [= <-]|discriminate]].
  destruct (0 <? length (knownAddresses e)); [|now intros [= <-]].
  destruct (negb (hasParent chain) || isAlreadyProcessed chain);
    [now intros [= <-]|].
  destruct (isTxHref _); [now intros [= <-]|].
  destruct (truncatedWrap matchShortAddress e chain s) as [[[i l] a]|];
    [discriminate|now intros [= <-]].
Qed.

Lemma scanNode_elem before now b n :
  isElem n = true -> isElem (scanNode matchShortAddress e before now b n) = true.
Proof.
  destruct n as [s|t cl at_ cs]; [discriminate|]. intros _. cbn [scanNode].
  now destruct (walk _ _ _ false cs).
Qed.

(** Below an element that carries the marker or a class of the injected
    elements the walk changes nothing. *)
Lemma scanNode_rejected : forall n before now b,
  isAlreadyProcessed before = true ->
  scanNode matchShortAddress e before now b n = n.
Proof.
  induction n as [s|t cl at_ cs IH] using node_induction; intros before now b H;
    cbn [scanNode]; auto.
  rewrite walk_rejected; auto.
  - apply acceptNode_rejected. cbn [isAlreadyProcessed]. rewrite H.
    apply orb_true_r.
  - eapply Forall_impl; [|exact IH]. intros c Hc m. apply Hc.
    cbn [isAlreadyProcessed]. rewrite H. apply orb_true_r.
Qed.

Lemma scanNode_marked_self t cl at_ cs before now b :
  hasMarker cl = true ->
  scanNode matchShortAddress e before now b (Elem t cl at_ cs) = Elem t cl at_ cs.
Proof.
  intros H. cbn [scanNode].
  assert (P : isAlreadyProcessed (mkElement t cl at_ b :: before) = true).
  { cbn [isAlreadyProcessed classList]. now rewrite H. }
  rewrite walk_rejected; auto.
  - now apply acceptNode_rejected.
  - apply Forall_forall. intros c _ m. now apply scanNode_rejected.
Qed.

(** A second walk over what a first walk has left changes nothing. *)
Lemma scanNode_idempotent : forall n chain b,
  scanNode matchShortAddress e chain chain b
           (scanNode matchShortAddress e chain chain b n)
  = scanNode matchShortAddress e chain chain b n.
Proof.
  induction n as [s|t cl at_ cs IH] using node_induction; intros chain b;
    cbn [scanNode]; auto.
  destruct (walk _ _ _ false cs) as [cs' m] eqn:W.
  destruct m.
  - apply scanNode_marked_self, hasMarker_marked.
  - cbn [marking scanNode].
    rewrite (walk_stable _ _) with (cs := cs) (cs' := cs'); auto.
    + intros s ns. apply processTextNode_unmarked.
    + intros c. apply scanNode_elem.
    + eapply Forall_impl; [|exact IH]. intros c Hc. apply Hc.
Qed.

End ScanFacts.

Lemma scanPageWalk_idempotent matchShortAddress e doc :
  scanPageWalk matchShortAddress e (scanPageWalk matchShortAddress e doc)
  = scanPageWalk matchShortAddress e doc.
Proof.
  unfold scanPageWalk. destruct (enabled e); [|reflexivity].
  destruct (body doc) as [s|t cl at_ cs] eqn:B.
  - now rewrite B.
  - cbn [body documentElement].
    pose proof (scanNode_elem matchShortAddress e [documentElement doc]
                              [documentElement doc] true (Elem t cl at_ cs) eq_refl) as E.
    destruct (scanNode matchShortAddress e _ _ true (Elem t cl at_ cs))
      as [|t' cl' at' cs'] eqn:S; [discriminate|].
    rewrite <- S. now rewrite scanNode_idempotent.
Qed.

(* ===================================================================== *)
(** * The two loops and the traversal *)
(* ===================================================================== *)

Lemma erase_created n : erase (created n) = n.
Proof.
  induction n as [s|t cl at_ cs IH] using node_induction; cbn [created erase]; auto.
  f_equal. rewrite map_map. induction IH as [|c cs Hc _ IH]; cbn [map]; congruence.
Qed.

Lemma erase_created_list ns : map erase (map created ns) = ns.
Proof.
  rewrite map_map. induction ns as [|n ns IH]; cbn [map]; auto.
  now rewrite erase_created, IH.
Qed.

Lemma ids_created n : ids (created n) = [].
Proof.
  induction n as [s|t cl at_ cs IH] using node_induction; cbn [created ids]; auto.
  induction IH as [|c cs Hc _ IH]; cbn [map flat_map]; auto.
  now rewrite Hc, IH.
Qed.

Lemma ids_created_list ns : flat_map ids (map created ns) = [].
Proof.
  induction ns as [|n ns IH]; cbn [map flat_map]; auto.
  now rewrite ids_created, IH.
Qed.

Lemma marking_marking a m cl : marking a (marking m cl) = marking (m || a) cl.
Proof.
  destruct a, m; cbn [marking orb]; auto.
  unfold classAdd at 1. now rewrite contains_classAdd.
Qed.

Section AmongFacts.

Variable below : inode -> inode.
Variable process : jsstring -> list node * bool.
Variable id : nat.

Lemma processAmong_absent : forall cs,
  Forall (fun c => ~ In id (ids c) -> below c = c) cs ->
  ~ In id (flat_map ids cs) ->
  processAmong below process id cs = (cs, false).
Proof.
  induction cs as [|c cs IH]; intros F N; cbn [processAmong]; auto.
  inversion F as [|? ? Hc F']; subst. cbn [flat_map] in N.
  assert (N1 : ~ In id (ids c)) by (intros H; apply N, in_or_app; auto).
  assert (N2 : ~ In id (flat_map ids cs)) by (intros H; apply N, in_or_app; auto).
  rewrite (IH F' N2).
  destruct c as [[i|] s|t cl at_ ch]; auto.
  - destruct (i =? id) eqn:E; auto. apply Nat.eqb_eq in E. subst.
    exfalso. apply N1. now left.
  - now rewrite Hc.
Qed.

Lemma processAmong_app : forall D R,
  processAmong below process id (D ++ R)
  = (fst (processAmong below process id D) ++ fst (processAmong below process id R),
     snd (processAmong below process id D) || snd (processAmong below process id R)).
Proof.
  induction D as [|c D IH]; intros R; cbn [app processAmong fst snd].
  - now destruct (processAmong below process id R).
  - rewrite IH.
    destruct (processAmong below process id D) as [D' m1].
    destruct (processAmong below process id R) as [R' m2]. cbn [fst snd].
    destruct c as [[i|] s|t cl at_ ch]; cbn [fst snd app]; auto.
    destruct (i =? id); cbn [fst snd app]; auto.
    destruct (process s) as [ns m]. cbn [fst snd].
    now rewrite <- app_assoc, orb_assoc.
Qed.

Lemma processAmong_ids : forall cs,
  Forall (fun c => incl (ids (below c)) (ids c)) cs ->
  incl (flat_map ids (fst (processAmong below process id cs))) (flat_map ids cs).
Proof.
  induction cs as [|c cs IH]; intros F; cbn [processAmong]; [easy|].
  inversion F as [|? ? Hc F']; subst. specialize (IH F').
  destruct (processAmong below process id cs) as [r' m2]. cbn [fst] in IH.
  destruct c as [[i|] s|t cl at_ ch]; cbn [fst flat_map].
  - destruct (i =? id).
    + destruct (process s) as [ns m1]. cbn [fst]. rewrite flat_map_app.
      apply incl_app_app; auto. destruct m1.
      * rewrite ids_created_list. easy.
      * cbn. apply incl_refl.
    + cbn [fst flat_map]. apply incl_app_app; auto. apply incl_refl.
  - cbn [ids app]. exact IH.
  - apply incl_app_app; auto.
Qed.

End AmongFacts.

Lemma nodesToProcess_ids : forall n chain b,
  incl (nodesToProcess chain b n) (ids n).
Proof.
  induction n as [i s|t cl at_ cs IH] using inode_induction; intros chain b;
    cbn [nodesToProcess ids]; [easy|].
  induction IH as [|c cs Hc _ IH]; cbn [flat_map]; [easy|].
  apply incl_app_app; auto.
  destruct c as [[i|] s|tc clc atc ch]; try easy;
    try (destruct (acceptNode _); [apply incl_refl|easy]); try apply Hc.
Qed.

Section LoopFacts.

Variable matchShortAddress : jsstring -> list jsstring -> option jsstring.
Variable e : env.

#[local] Abbreviation processAt := (processTextNodeAt matchShortAddress e).

Lemma processAt_absent : forall n id chain b,
  ~ In id (ids n) -> processAt id chain b n = n.
Proof.
  induction n as [i s|t cl at_ cs IH] using inode_induction; intros id chain b N;
    cbn [processTextNodeAt]; auto.
  rewrite processAmong_absent; auto.
  eapply Forall_impl; [|exact IH]. intros c Hc Nc. now apply Hc.
Qed.

Lemma processAt_ids : forall n id chain b,
  incl (ids (processAt id chain b n)) (ids n).
Proof.
  induction n as [i s|t cl at_ cs IH] using inode_induction; intros id chain b;
    cbn [processTextNodeAt]; [apply incl_refl|].
  match goal with
  | |- context [processAmong ?f ?p id cs] =>
      pose proof (processAmong_ids f p id cs) as H;
      destruct (processAmong f p id cs) as [cs' m]
  end.
  cbn [ids fst] in *. apply H.
  eapply Forall_impl; [|exact IH]. intros c Hc. apply Hc.
Qed.

Lemma processAt_elem n id chain b :
  isIElem n = true -> isIElem (processAt id chain b n) = true.
Proof.
  destruct n as [i s|t cl at_ cs]; [discriminate|]. intros _.
  cbn [processTextNodeAt]. now destruct (processAmong _ _ id cs).
Qed.

Lemma fold_processAt_ids L : forall n chain b,
  incl (ids (fold_left (fun c id => processAt id chain b c) L n)) (ids n).
Proof.
  induction L as [|i L IH]; intros n chain b; cbn [fold_left]; [apply incl_refl|].
  eapply incl_tran; [apply IH|apply processAt_ids].
Qed.

Lemma fold_processAt_elem L : forall n chain b,
  isIElem n = true ->
  isIElem (fold_left (fun c id => processAt id chain b c) L n) = true.
Proof.
  induction L as [|i L IH]; intros n chain b H; cbn [fold_left]; auto.
  apply IH. now apply processAt_elem.
Qed.

(** The rounds for the text nodes below one child change that child
    only. *)
Lemma fold_in_child t cl at_ b now D r : forall L c,
  isIElem c = true ->
  (forall i, In i L -> ~ In i (flat_map ids D) /\ ~ In i (flat_map ids r)) ->
  fold_left (fun tree id => processAt id now b tree) L
            (IElem t cl at_ (D ++ c :: r))
  = IElem t cl at_
          (D ++ fold_left (fun c id => processAt id (mkElement t cl at_ b :: now) false c)
                          L c :: r).
Proof.
  induction L as [|i L IH]; intros c Hc N; cbn [fold_left]; auto.
  destruct (N i (or_introl eq_refl)) as [ND Nr].
  assert (Step : processAt i now b (IElem t cl at_ (D ++ c :: r))
                 = IElem t cl at_
                         (D ++ processAt i (mkElement t cl at_ b :: now) false c :: r)).
  { cbn [processTextNodeAt]. rewrite processAmong_app.
    rewrite (processAmong_absent _ _ i D); auto.
    2:{ apply Forall_forall. intros x _ Hx. now apply processAt_absent. }
    destruct c as [ci cs|tc clc atc ch]; [discriminate|].
    cbn [processAmong]. rewrite (processAmong_absent _ _ i r); auto.
    apply Forall_forall. intros x _ Hx. now apply processAt_absent. }
  rewrite Step. apply IH.
  - now apply processAt_elem.
  - intros j Hj. apply N. now right.
Qed.


(** What the two loops do below an element is what the walk does: the
    rounds for the children [cs] still to come, with the children [D]
    already done before them. *)
Lemma loops_children t cl at_ b before now : forall cs,
  Forall (fun c => forall before now b,
              NoDup (ids c) -> numbered c = true ->
              erase (fold_left (fun tree id => processAt id now b tree)
                               (nodesToProcess before b c) c)
              = scanNode matchShortAddress e before now b (erase c)) cs ->
  NoDup (flat_map ids cs) ->
  forallb numbered cs = true ->
  forall D m,
    (forall i, In i (flat_map ids D) -> ~ In i (flat_map ids cs)) ->
    exists cs' m',
      fold_left (fun tree id => processAt id now b tree)
                (childrenToProcess (mkElement t cl at_ b) before cs)
                (IElem t (marking m cl) at_ (D ++ cs))
      = IElem t (marking m' cl) at_ (D ++ cs') /\
      walk (acceptNode (mkElement t cl at_ b :: before))
           (fun marked s =>
              processTextNode matchShortAddress e
                              (mkElement t (marking marked cl) at_ b :: now) s)
           (fun marked c =>
              scanNode matchShortAddress e (mkElement t cl at_ b :: before)
                       (mkElement t (marking marked cl) at_ b :: now) false c)
           m (map erase cs)
      = (map erase cs', m').
Proof.
  induction cs as [|c cs IH]; intros F ND Num D m Dis.
  - exists [], m. split; reflexivity.
  - inversion F as [|? ? Hc F']; subst.
    cbn [flat_map] in ND. cbn [forallb] in Num.
    apply andb_prop in Num as [Numc Num].
    assert (NDc : NoDup (ids c)) by (eapply NoDup_app_remove_r; exact ND).
    assert (NDr : NoDup (flat_map ids cs)) by (eapply NoDup_app_remove_l; exact ND).
    assert (Sep : forall i, In i (ids c) -> ~ In i (flat_map ids cs)).
    { clear - ND. induction (ids c) as [|x l IHl]; intros i Hi; [easy|].
      cbn [app] in ND. inversion ND as [|? ? Hx ND']; subst.
      destruct Hi as [->|Hi]; [|now apply IHl].
      intros H. apply Hx, in_or_app. now right. }
    assert (DisC : forall i, In i (flat_map ids D) -> ~ In i (ids c)).
    { intros i Hi H. apply (Dis i Hi). cbn [flat_map]. apply in_or_app. now left. }
    assert (DisR : forall i, In i (flat_map ids D) -> ~ In i (flat_map ids cs)).
    { intros i Hi H. apply (Dis i Hi). cbn [flat_map]. apply in_or_app. now right. }
    destruct c as [[i|] s|tc clc atc ch]; [| discriminate |].
    + (* a text node *)
      cbn [childrenToProcess flat_map map erase walk].
      fold (childrenToProcess (mkElement t cl at_ b) before cs).
      destruct (acceptNode (mkElement t cl at_ b :: before)) eqn:A.
      * cbn [app fold_left].
        destruct (processTextNode matchShortAddress e
                    (mkElement t (marking m cl) at_ b :: now) s) as [ns m1] eqn:P.
        set (X := if m1 then map created ns else [IText (Some i) s]).
        assert (Step : processAt i now b
                         (IElem t (marking m cl) at_ (D ++ IText (Some i) s :: cs))
                       = IElem t (marking (m || m1) cl) at_ ((D ++ X) ++ cs)).
        { cbn [processTextNodeAt]. rewrite processAmong_app.
          rewrite (processAmong_absent _ _ i D); auto.
          2:{ apply Forall_forall. intros x _ Hx. now apply processAt_absent. }
          2:{ intros H. apply (DisC i H). now left. }
          cbn [processAmong]. rewrite (processAmong_absent _ _ i cs); auto.
          2:{ apply Forall_forall. intros x _ Hx. now apply processAt_absent. }
          2:{ apply Sep. now left. }
          rewrite Nat.eqb_refl, P. cbn [fst snd orb]. rewrite orb_false_r.
          rewrite marking_marking. fold X. now rewrite <- app_assoc. }
        rewrite Step.
        destruct (IH F' NDr Num (D ++ X) (m || m1)) as (cs' & m' & E1 & E2).
        { intros j Hj. rewrite flat_map_app in Hj. apply in_app_or in Hj as [Hj|Hj].
          - now apply DisR.
          - unfold X in Hj. destruct m1.
            + now rewrite ids_created_list in Hj.
            + cbn in Hj. destruct Hj as [<-|[]]. apply Sep. now left. }
        exists (X ++ cs'), m'. split.
        -- rewrite E1. now rewrite <- app_assoc.
        -- rewrite E2. rewrite map_app. f_equal. f_equal. unfold X.
           destruct m1; [symmetry; apply erase_created_list|].
           cbn [map erase].
           eapply processTextNode_unmarked. exact P.
      * cbn [app].
        destruct (IH F' NDr Num (D ++ [IText (Some i) s]) m) as (cs' & m' & E1 & E2).
        { intros j Hj. rewrite flat_map_app in Hj. apply in_app_or in Hj as [Hj|Hj].
          - now apply DisR.
          - cbn in Hj. destruct Hj as [<-|[]]. apply Sep. now left. }
        exists (IText (Some i) s :: cs'), m'. split.
        -- rewrite <- app_assoc in E1. cbn [app] in E1. rewrite E1.
           now rewrite <- app_assoc.
        -- rewrite E2. reflexivity.
    + (* an element *)
      cbn [childrenToProcess flat_map].
      fold (childrenToProcess (mkElement t cl at_ b) before cs).
      rewrite fold_left_app.
      set (c := IElem tc clc atc ch) in *.
      set (L := nodesToProcess (mkElement t cl at_ b :: before) false c).
      rewrite (fold_in_child t (marking m cl) at_ b now D cs L c eq_refl).
      2:{ intros j Hj. apply nodesToProcess_ids in Hj. split.
          - intros H. now apply (DisC j H).
          - now apply Sep. }
      set (c1 := fold_left
                   (fun c0 id =>
                      processAt id (mkElement t (marking m cl) at_ b :: now) false c0)
                   L c).
      assert (E : erase c1
                  = scanNode matchShortAddress e (mkElement t cl at_ b :: before)
                             (mkElement t (marking m cl) at_ b :: now) false (erase c)).
      { apply Hc; auto. }
      destruct (IH F' NDr Num (D ++ [c1]) m) as (cs' & m' & E1 & E2).
      { intros j Hj. rewrite flat_map_app in Hj. apply in_app_or in Hj as [Hj|Hj].
        - now apply DisR.
        - cbn [flat_map] in Hj. rewrite app_nil_r in Hj.
          apply fold_processAt_ids in Hj. now apply Sep. }
      exists (c1 :: cs'), m'. split.
      * rewrite <- app_assoc in E1. cbn [app] in E1. rewrite E1.
        now rewrite <- app_assoc.
      * cbn [map]. rewrite E. unfold c at 1. cbn [erase walk].
        fold (erase c). rewrite E2. reflexivity.
Qed.

(** The two loops below a node whose text nodes carry distinct numbers
    are the walk. *)
Lemma loops_scanNode : forall n before now b,
  NoDup (ids n) -> numbered n = true ->
  erase (fold_left (fun tree id => processAt id now b tree)
                   (nodesToProcess before b n) n)
  = scanNode matchShortAddress e before now b (erase n).
Proof.
  induction n as [i s|t cl at_ cs IH] using inode_induction;
    intros before now b ND Num; [reflexivity|].
  cbn [ids numbered] in ND, Num.
  destruct (loops_children t cl at_ b before now cs IH ND Num [] false)
    as (cs' & m' & E1 & E2); [easy|].
  cbn [nodesToProcess]. fold (childrenToProcess (mkElement t cl at_ b) before cs).
  cbn [app marking] in E1. rewrite E1. cbn [erase scanNode].
  cbn [marking] in E2. rewrite E2. reflexivity.
Qed.

End LoopFacts.

Lemma numberList_spec cs :
  Forall (fun c => forall k,
              erase (fst (number k c)) = c /\
              numbered (fst (number k c)) = true /\
              ids (fst (number k c)) = seq k (snd (number k c) - k) /\
              k <= snd (number k c)) cs ->
  forall k,
    map erase (fst (numberList number k cs)) = cs /\
    forallb numbered (fst (numberList number k cs)) = true /\
    flat_map ids (fst (numberList number k cs))
    = seq k (snd (numberList number k cs) - k) /\
    k <= snd (numberList number k cs).
Proof.
  induction 1 as [|c cs Hc _ IH]; intros k; cbn [numberList].
  - cbn [fst snd map forallb flat_map]. rewrite Nat.sub_diag. repeat split; auto.
  - destruct (Hc k) as (E1 & N1 & I1 & L1).
    destruct (number k c) as [c' k1]. cbn [fst snd] in *.
    destruct (IH k1) as (E2 & N2 & I2 & L2).
    destruct (numberList number k1 cs) as [r' k2]. cbn [fst snd] in *.
    cbn [map forallb flat_map]. rewrite E1, E2, N1, N2, I1, I2.
    repeat split; auto; try lia.
    replace (k2 - k) with ((k1 - k) + (k2 - k1)) by lia.
    rewrite seq_app. do 2 f_equal. lia.
Qed.

Lemma number_spec : forall n k,
  erase (fst (number k n)) = n /\
  numbered (fst (number k n)) = true /\
  ids (fst (number k n)) = seq k (snd (number k n) - k) /\
  k <= snd (number k n).
Proof.
  induction n as [s|t cl at_ cs IH] using node_induction; intros k;
    cbn [number].
  - cbn [fst snd erase numbered ids]. replace (S k - k) with 1 by lia.
    repeat split; auto.
  - destruct (numberList_spec cs IH k) as (E & N & I & L).
    destruct (numberList number k cs) as [cs' k']. cbn [fst snd] in *.
    cbn [erase numbered ids]. rewrite E. auto.
Qed.

Lemma scanBody_scanNode ms e above body :
  scanBody ms e above body = scanNode ms e above above true body.
Proof.
  unfold scanBody. destruct (number_spec body 0) as (E & N & I & _).
  rewrite loops_scanNode; auto.
  - now rewrite E.
  - rewrite I. apply seq_NoDup.
Qed.

(** The two loops of [scanPage], with the text nodes told apart by their
    identity, give the document the walk gives. *)
Theorem scanPage_scanPageWalk ms e doc :
  scanPage ms e doc = scanPageWalk ms e doc.
Proof.
  unfold scanPage, scanPageWalk. destruct (enabled e); auto.
  destruct (body doc); auto. now rewrite scanBody_scanNode.
Qed.

(** C1, as the code has it. Running [scanPage] a second time on the
    document a first run has left gives the document of the first run:
    elements, classes and text nodes are the same, nothing is wrapped
    again. The walker's filter refuses every text node whose parent or an
    ancestor carries the marker or a class of the injected elements, and
    [processTextNode] marks the parent whenever it puts something in place
    of the text node: a text node it does not mark for is left as it
    is. *)
Theorem scanPage_idempotent :
  forall matchShortAddress e doc,
    scanPage matchShortAddress e (scanPage matchShortAddress e doc)
    = scanPage matchShortAddress e doc /\
    (forall chain, acceptNode chain && isAlreadyProcessed chain = false) /\
    (forall chain text ns,
        processTextNode matchShortAddress e chain text = (ns, false) ->
        ns = [Text text]).
Proof.
  intros ms e doc. split; [|split].
  - rewrite !scanPage_scanPageWalk. apply scanPageWalk_idempotent.
  - intros chain. destruct (isAlreadyProcessed chain) eqn:P.
    + now rewrite acceptNode_rejected.
    + apply andb_false_r.
  - intros chain text ns. apply processTextNode_unmarked.
Qed.

(** C1 as stated fails. It is not so that no text node is processed
    twice: a text node in which nothing is found sets no marker. On the
    page with the text [hello ] before a paragraph that holds an address,
    the first walk processes both text nodes and marks the paragraph; the
    text [hello ] is still the first child of the unmarked body, the
    second walk takes it again, and [processTextNode] runs on it a second
    time (and leaves it as it is). *)
Lemma unmatched_text_processed_again :
  let html := documentElement greetingDocument in
  let once := scanPage noShortMatch plainEnv greetingDocument in
  nodesToProcess [html] true (fst (number 0 (body greetingDocument))) = [0; 1] /\
  fst (number 0 (body greetingDocument))
  = IElem (str "body") [] []
          [IText (Some 0) (str "hello ");
           IElem (str "p") [] [] [IText (Some 1) sampleAddress]] /\
  hasClass wt_processed (body once) = true /\
  nodesToProcess [html] true (fst (number 0 (body once))) = [0] /\
  match fst (number 0 (body once)) with
  | IElem _ classes _ (first :: _) =>
      classes = [] /\ first = IText (Some 0) (str "hello ")
  | _ => False
  end /\
  processTextNode noShortMatch plainEnv
                  [mkElement (str "body") [] [] true; html] (str "hello ")
  = ([Text (str "hello ")], false).
Proof. vm_compute. repeat split; reflexivity. Qed.

(* ===================================================================== *)
(** * The tags have changed *)
(* ===================================================================== *)



















(** The walk on the sample page: the full address in the paragraph and
    the truncated one in the link are wrapped, the script is left alone,
    and a second walk changes nothing. *)
Example scanPage_sample :
  scanPage noShortMatch knownEnv sampleDocument = scannedDocument /\
  hasClass wt_address_wrapper (body sampleDocument) = false /\
  hasClass wt_address_wrapper (body scannedDocument) = true /\
  textContent (body scannedDocument)
  = str "pay Vault (0x1234) or 0x1234...cDeF now" ++ sampleAddress
    ++ str "0xABCD...789A" /\
  scanPage noShortMatch knownEnv scannedDocument = scannedDocument.
Proof. vm_compute. auto. Qed.

(* ===================================================================== *)
(** * More about the annotation walk *)
(* ===================================================================== *)

Lemma addressIn_canonical v a : addressIn v = Some a -> isCanonical a = true.
Proof.
  unfold addressIn. destruct v as [v|]; [|discriminate].
  destruct (truthy v); [|discriminate]. unfold match_.
  destruct (exec FULL_ADDRESS_REGEX v 0) as [m|] eqn:E; [|discriminate].
  intros [= <-]. destruct (exec_full_Some _ _ _ E) as (_ & _ & O & M & _).
  unfold occursAt in O. rewrite <- M in O. now apply fullShape_canonical.
Qed.

Lemma firstAddressIn_canonical vs a :
  firstAddressIn vs = Some a -> isCanonical a = true.
Proof.
  induction vs as [|v vs IH]; cbn [firstAddressIn]; [discriminate|].
  destruct (addressIn v) as [b|] eqn:E; auto.
  intros [= <-]. now apply (addressIn_canonical v).
Qed.

(** X9. Whatever the attributes of the element and its ancestors hold,
    an address [findAddressInAttributes] returns is in canonical form:
    [0x] and 40 digits among [0-9a-f]. *)
Theorem findAddressInAttributes_canonical (chain : list element) (a : jsstring) :
  findAddressInAttributes chain = Some a -> isCanonical a = true.
Proof.
  induction chain as [|el chain IH]; cbn [findAddressInAttributes]; [discriminate|].
  destruct (isBody el); [discriminate|].
  destruct (firstAddressIn (attributesToCheck el)) as [b|] eqn:E1.
  { intros [= <-]. now apply firstAddressIn_canonical in E1. }
  destruct (hrefAddress el) as [b|] eqn:E2.
  { intros [= <-]. unfold hrefAddress in E2.
    destruct (getAttribute (attributes el) (str "href")) as [href|]; [|discriminate].
    destruct (truthy href && negb (isTxHref href)); [|discriminate].
    now apply addressIn_canonical in E2. }
  destruct (firstAddressIn (dataAttributesOf el)) as [b|] eqn:E3; auto.
  intros [= <-]. now apply firstAddressIn_canonical in E3.
Qed.

Lemma findAddressInAttributes_canonical_witness :
  findAddressInAttributes
    [mkElement (str "span") [] [] false;
     mkElement (str "a") [] [(str "href", str "/address/" ++ sampleAddress)] false]
  = Some (toLowerCase sampleAddress) /\
  isCanonical (toLowerCase sampleAddress) = true.
Proof.
  split; [reflexivity|].
  apply (findAddressInAttributes_canonical
           [mkElement (str "span") [] [] false;
            mkElement (str "a") [] [(str "href", str "/address/" ++ sampleAddress)]
                      false]).
  reflexivity.
Defined.

(** X10. [findAddressInAttributes] stops at [document.body]: the
    attributes of the body and of what is above it are never looked at, so
    the answer is the one for the elements below the body alone. *)
Theorem findAddressInAttributes_stops_at_body
        (below above : list element) (tag : jsstring) (classes : list jsstring)
        (attrs : list (jsstring * jsstring)) :
  findAddressInAttributes (below ++ mkElement tag classes attrs true :: above)
  = findAddressInAttributes below.
Proof.
  induction below as [|el below IH]; cbn [app findAddressInAttributes isBody]; auto.
  now rewrite IH.
Qed.

(** ** The text of the page under the walk *)

Lemma untagged_empty e ns : tagCache e = [] -> untagged e ns = true.
Proof.
  intros E. unfold untagged. apply forallb_forall. intros n _.
  destruct (wrapperAddress n); auto. now rewrite E.
Qed.

Lemma textContents_single s : textContents [Text s] = s.
Proof. unfold textContents. cbn. apply app_nil_r. Qed.

Lemma processTextNode_text ms e chain text :
  tagCache e = [] ->
  textContents (fst (processTextNode ms e chain text)) = text.
Proof.
  intros E. unfold processTextNode.
  pose proof (execLoop_full_ok text (S (length text)) 0) as [Ok Ord].
  fold (execAll FULL_ADDRESS_REGEX text) in Ok, Ord.
  fold (findAddressesInText text) in Ok, Ord.
  destruct (findAddressesInText text) as [|m ms'] eqn:F.
  - destruct (0 <? length (knownAddresses e)); [|apply textContents_single].
    unfold processTruncatedAddresses.
    destruct (negb (hasParent chain) || isAlreadyProcessed chain);
      [apply textContents_single|].
    destruct (isTxHref _); [apply textContents_single|].
    destruct (truncatedWrap ms e chain text) as [[[i l] a]|];
      [|apply textContents_single].
    cbn [fst]. apply wrapWithAddressElement_lossless. now apply untagged_empty.
  - destruct (negb (hasParent chain)); [apply textContents_single|].
    cbn [fst]. rewrite buildFragment_lossless; auto. now apply untagged_empty.
Qed.

Lemma walk_text process scanElem accept : forall cs marked,
  (forall m s, textContents (fst (process m s)) = s) ->
  Forall (fun c => forall m, textContent (scanElem m c) = textContent c) cs ->
  textContents (fst (walk accept process scanElem marked cs)) = textContents cs.
Proof.
  intros cs marked P. revert marked.
  induction cs as [|c cs IH]; intros marked F; cbn [walk]; auto.
  inversion F as [|? ? Hc F']; subst.
  destruct c as [s|t cl at_ ch].
  - destruct accept.
    + specialize (P marked s). destruct (process marked s) as [ns m1].
      specialize (IH (marked || m1) F').
      destruct (walk true process scanElem (marked || m1) cs) as [r m2].
      cbn [fst] in *. rewrite textContents_app, P, IH. reflexivity.
    + specialize (IH marked F').
      destruct (walk false process scanElem marked cs) as [r m2].
      cbn [fst] in *. unfold textContents in *. cbn [map concat]. now rewrite IH.
  - specialize (IH marked F').
    destruct (walk accept process scanElem marked cs) as [r m2].
    cbn [fst] in *. unfold textContents in *. cbn [map concat].
    now rewrite IH, Hc.
Qed.

Lemma scanNode_text ms e : tagCache e = [] ->
  forall n before now b,
    textContent (scanNode ms e before now b n) = textContent n.
Proof.
  intros E. induction n as [s|t cl at_ cs IH] using node_induction;
    intros before now b; cbn [scanNode]; auto.
  match goal with
  | |- context [walk ?a ?p ?s false cs] =>
      pose proof (walk_text p s a cs false) as W;
      destruct (walk a p s false cs) as [cs' m]
  end.
  cbn [textContent fst] in *. apply W.
  - intros m0 s. now apply processTextNode_text.
  - eapply Forall_impl; [|exact IH]. intros c Hc m0. apply Hc.
Qed.

(** X11. While the tag cache is empty, [scanPage] changes no character
    of the page: the text content of the body after the walk is its text
    content before, whatever was wrapped on the way. *)
Theorem scanPage_keeps_text
        (matchShortAddress : jsstring -> list jsstring -> option jsstring)
        (e : env) (doc : document) :
  tagCache e = [] ->
  textContent (body (scanPage matchShortAddress e doc)) = textContent (body doc).
Proof.
  intros E. rewrite scanPage_scanPageWalk. unfold scanPageWalk.
  destruct (enabled e); auto.
  destruct (body doc) as [s|t cl at_ cs] eqn:B; [now rewrite B|].
  cbn [body]. now apply scanNode_text.
Qed.

Lemma scanPage_keeps_text_witness :
  textContent (body (scanPage noShortMatch emptyCacheEnv sampleDocument))
  = textContent (body sampleDocument) /\
  body (scanPage noShortMatch emptyCacheEnv sampleDocument) <> body sampleDocument.
Proof.
  split.
  - apply (scanPage_keeps_text noShortMatch emptyCacheEnv sampleDocument).
    reflexivity.
  - vm_compute. discriminate.
Defined.

(** ** A page the walk leaves as it is *)

Lemma has0x_skipn : forall j s, has0x (skipn j s) = true -> has0x s = true.
Proof.
  induction j as [|j IH]; intros s H; [exact H|].
  destruct s as [|z s]; [discriminate|]. cbn [skipn] in H. apply IH in H.
  destruct s as [|x s]; [discriminate|].
  change (has0x (z :: x :: s)) with ((isChar "0" z && isX x) || has0x (x :: s)).
  rewrite H. apply orb_true_r.
Qed.

Lemma needs0x_head p : needs0x (lit "0" :: litX :: p).
Proof.
  intros s caps H. apply matchHere_sound in H as [F [rest ->]].
  inversion F as [|? w1 ? c1 [Ca [La Ua]] F1]; subst.
  inversion F1 as [|? w2 ? c2 [Cb [Lb Ub]] F2]; subst.
  cbn [cls lo hi lit litX] in *.
  destruct w1 as [|z [|]]; cbn [length] in *; try lia.
  destruct w2 as [|x [|]]; cbn [length] in *; try lia.
  cbn [forallb] in Ca, Cb. rewrite andb_true_r in Ca, Cb.
  cbn [concat app has0x]. now rewrite Ca, Cb.
Qed.

Lemma needs0x_paren p : needs0x (lit "(" :: lit "0" :: litX :: p).
Proof.
  intros s caps H. cbn [matchHere] in H.
  apply tryDown_sound in H as (j & c & _ & _ & K & _).
  apply (has0x_skipn j). exact (needs0x_head p _ _ K).
Qed.

Lemma no0x_matchAlts r s :
  Forall needs0x r -> has0x s = false -> matchAlts r s = None.
Proof.
  induction 1 as [|p r N F IH]; intros H; cbn [matchAlts]; auto.
  destruct (matchHere p s) as [caps|] eqn:M; auto.
  rewrite (N _ _ M) in H. discriminate.
Qed.

Lemma no0x_exec r s L :
  Forall needs0x r -> has0x s = false -> exec r s L = None.
Proof.
  intros N H. destruct (exec r s L) as [m|] eqn:E; auto.
  apply exec_Some in E as (_ & _ & M & _).
  rewrite no0x_matchAlts in M; auto; [discriminate|].
  destruct (has0x (skipn (index m) s)) eqn:G; auto.
  apply has0x_skipn in G. congruence.
Qed.

Lemma no0x_execAll r s :
  Forall needs0x r -> has0x s = false -> execAll r s = [].
Proof.
  intros N H. unfold execAll. cbn [execLoop]. now rewrite no0x_exec.
Qed.

Lemma processTextNode_no0x ms e chain text :
  has0x text = false ->
  processTextNode ms e chain text = ([Text text], false).
Proof.
  intros H. unfold processTextNode, findAddressesInText.
  rewrite no0x_execAll; auto; [|repeat constructor; apply needs0x_head].
  cbn [map]. destruct (0 <? length (knownAddresses e)); auto.
  unfold processTruncatedAddresses.
  destruct (negb (hasParent chain) || isAlreadyProcessed chain); auto.
  destruct (isTxHref _); auto.
  unfold truncatedWrap, match_.
  rewrite (no0x_exec ATTRIBUTE_TEXT_REGEX);
    auto; [|repeat constructor; apply needs0x_head].
  rewrite (no0x_execAll truncatedRegex);
    auto; [|repeat constructor; apply needs0x_head].
  rewrite (no0x_execAll shortRegex);
    auto; [|repeat constructor; apply needs0x_paren].
  cbn [firstResolved].
  destruct (findAddressInAttributes chain) as [a|]; auto.
  destruct (truthy a && includes text (str "0x")); auto.
Qed.

Lemma walk_same process scanElem accept : forall cs marked,
  Forall (fun c => match c with
                   | Text s => forall m, process m s = ([Text s], false)
                   | Elem _ _ _ _ => forall m, scanElem m c = c
                   end) cs ->
  walk accept process scanElem marked cs = (cs, marked).
Proof.
  induction cs as [|c cs IH]; intros marked F; cbn [walk]; auto.
  inversion F as [|? ? Hc F']; subst.
  destruct c as [s|t cl at_ ch].
  - destruct accept.
    + rewrite Hc, orb_false_r, (IH _ F'). reflexivity.
    + now rewrite (IH _ F').
  - now rewrite Hc, (IH _ F').
Qed.

(** A node all of whose texts [processTextNode] leaves alone is left
    alone by the walk. *)
Lemma scanNode_same ms e (still : jsstring -> bool) :
  (forall chain text, still text = true ->
                      processTextNode ms e chain text = ([Text text], false)) ->
  forall n before now b,
    allTexts still n = true -> scanNode ms e before now b n = n.
Proof.
  intros P. induction n as [s|t cl at_ cs IH] using node_induction;
    intros before now b Q; cbn [scanNode]; auto.
  cbn [allTexts] in Q. rewrite forallb_forall in Q.
  rewrite walk_same; auto.
  apply Forall_forall. intros c Hc. rewrite Forall_forall in IH.
  destruct c as [s|t' cl' at' ch'].
  - intros m. apply P. exact (Q _ Hc).
  - intros m. apply (IH _ Hc). exact (Q _ Hc).
Qed.

Lemma scanPageWalk_same ms e doc :
  (forall before now b, scanNode ms e before now b (body doc) = body doc) ->
  scanPageWalk ms e doc = doc.
Proof.
  intros H. unfold scanPageWalk. destruct (enabled e); auto.
  destruct doc as [html b]. cbn [body documentElement] in *.
  destruct b as [s|t cl at_ cs]; auto. now rewrite H.
Qed.

(** X12. A page none of whose texts has [0x] or [0X] in it is left by
    [scanPage] exactly as it is: no node is replaced and no class is
    added, whatever the attributes, the known addresses and the tag cache
    hold. *)
Theorem scanPage_leaves_quiet_page
        (matchShortAddress : jsstring -> list jsstring -> option jsstring)
        (e : env) (doc : document) :
  quiet (body doc) = true ->
  scanPage matchShortAddress e doc = doc.
Proof.
  intros Q. rewrite scanPage_scanPageWalk. apply scanPageWalk_same.
  intros before now b.
  apply (scanNode_same matchShortAddress e (fun s => negb (has0x s)));
    [|exact Q].
  intros chain text H. apply processTextNode_no0x. now destruct (has0x text).
Qed.

Lemma scanPage_leaves_quiet_page_witness :
  quiet (body quietDocument) = true /\
  scanPage noShortMatch knownEnv quietDocument = quietDocument.
Proof.
  split; [reflexivity|].
  apply (scanPage_leaves_quiet_page noShortMatch knownEnv quietDocument).
  reflexivity.
Defined.

(** X13. As long as no address is known, [scanPage] wraps full addresses
    only: a page in whose texts no full address occurs is left exactly as
    it is, also where a truncated address stands in a link whose href
    holds the full address. *)
Theorem scanPage_without_known_addresses
        (matchShortAddress : jsstring -> list jsstring -> option jsstring)
        (e : env) (doc : document) :
  knownAddresses e = [] ->
  plain (body doc) = true ->
  scanPage matchShortAddress e doc = doc.
Proof.
  intros K Q. rewrite scanPage_scanPageWalk. apply scanPageWalk_same.
  intros before now b.
  apply (scanNode_same matchShortAddress e
           (fun s => match occurrences s with [] => true | _ :: _ => false end));
    [|exact Q].
  intros chain text H. unfold processTextNode.
  assert (N : findAddressesInText text = []).
  { apply findAddressesInText_nil. now destruct (occurrences text). }
  now rewrite N, K.
Qed.

Lemma scanPage_without_known_addresses_witness :
  findAddressInAttributes
    [mkElement (str "a") [] [(str "href", str "/address/" ++ sampleAddress)] false]
  = Some (toLowerCase sampleAddress) /\
  scanPage noShortMatch (mkEnv true [] []) truncatedDocument = truncatedDocument.
Proof.
  split; [reflexivity|].
  apply (scanPage_without_known_addresses noShortMatch (mkEnv true [] [])
                                          truncatedDocument).
  - reflexivity.
  - reflexivity.
Defined.

(** ** The address elements of one text node *)

Lemma wrapperAddresses_app a b :
  wrapperAddresses (a ++ b) = wrapperAddresses a ++ wrapperAddresses b.
Proof. apply flat_map_app. Qed.

Lemma wrapperAddresses_text_if (c : bool) s :
  wrapperAddresses (if c then [Text s] else []) = [].
Proof. now destruct c. Qed.

Lemma wrapperAddresses_created e a d rest :
  wrapperAddresses (createAddressElement e a d :: rest) = a :: wrapperAddresses rest.
Proof.
  unfold wrapperAddresses. cbn [flat_map]. now rewrite wrapperAddress_created.
Qed.

Lemma wrapperAddresses_buildFragment e T : forall ms lastIndex,
  wrapperAddresses (buildFragment e T lastIndex ms) = map Address.address ms.
Proof.
  induction ms as [|m ms IH]; intros lastIndex; cbn [buildFragment map].
  - apply wrapperAddresses_text_if.
  - rewrite wrapperAddresses_app, wrapperAddresses_text_if.
    cbn [app]. now rewrite wrapperAddresses_created, IH.
Qed.

Lemma wrapperAddresses_wrap e T start len a :
  wrapperAddresses (wrapWithAddressElement e T start len a) = [a].
Proof.
  unfold wrapWithAddressElement.
  rewrite wrapperAddresses_app, wrapperAddresses_text_if. cbn [app].
  now rewrite wrapperAddresses_created, wrapperAddresses_text_if.
Qed.

(** X25. [processTextNode] marks the parent exactly when it puts an
    address element in place of the text. For a text node that has a
    parent and a text in which full addresses are found, the address
    elements are for the addresses of the matches, one for each and in
    their order; when no full address is found at most one address element
    is put in; and a text node without a parent is left as it is. *)
Theorem processTextNode_wrappers
        (matchShortAddress : jsstring -> list jsstring -> option jsstring)
        (e : env) (chain : list element) (text : jsstring) :
  (snd (processTextNode matchShortAddress e chain text) = true <->
   wrapperAddresses (fst (processTextNode matchShortAddress e chain text)) <> []) /\
  (chain <> [] ->
   findAddressesInText text <> [] ->
   wrapperAddresses (fst (processTextNode matchShortAddress e chain text))
   = map Address.address (findAddressesInText text)) /\
  (findAddressesInText text = [] ->
   length (wrapperAddresses (fst (processTextNode matchShortAddress e chain text)))
   <= 1) /\
  (chain = [] ->
   processTextNode matchShortAddress e chain text = ([Text text], false)).
Proof.
  assert (N : forall r : list node * bool,
            r = ([Text text], false) ->
            (snd r = true <-> wrapperAddresses (fst r) <> []) /\
            length (wrapperAddresses (fst r)) <= 1).
  { intros r ->. cbn. split; [split; [discriminate|congruence]|lia]. }
  unfold processTextNode.
  destruct (findAddressesInText text) as [|m ms] eqn:F.
  - assert (G : (snd (if 0 <? length (knownAddresses e)
                      then processTruncatedAddresses matchShortAddress e chain text
                      else ([Text text], false)) = true <->
                 wrapperAddresses
                   (fst (if 0 <? length (knownAddresses e)
                         then processTruncatedAddresses matchShortAddress e chain text
                         else ([Text text], false))) <> []) /\
                length (wrapperAddresses
                   (fst (if 0 <? length (knownAddresses e)
                         then processTruncatedAddresses matchShortAddress e chain text
                         else ([Text text], false)))) <= 1).
    { destruct (0 <? length (knownAddresses e)); [|now apply N].
      unfold processTruncatedAddresses.
      destruct (negb (hasParent chain) || isAlreadyProcessed chain);
        [now apply N|].
      destruct (isTxHref _); [now apply N|].
      destruct (truncatedWrap matchShortAddress e chain text) as [[[i l] a]|];
        [|now apply N].
      cbn [fst snd]. rewrite wrapperAddresses_wrap. cbn [length].
      split; [split; [discriminate|reflexivity]|lia]. }
    destruct G as [G1 G2]. split; [exact G1|]. split; [congruence|].
    split; [auto|]. intros ->.
    unfold processTruncatedAddresses. cbn [hasParent negb orb].
    now destruct (0 <? length (knownAddresses e)).
  - destruct chain as [|parent up]; cbn [hasParent negb].
    + split; [now apply N|]. split; [congruence|]. split; [discriminate|auto].
    + cbn [fst snd]. rewrite wrapperAddresses_buildFragment. cbn [map].
      split; [split; [discriminate|reflexivity]|].
      split; [auto|]. split; discriminate.
Qed.

Lemma processTextNode_wrappers_witness :
  wrapperAddresses
    (fst (processTextNode noShortMatch plainEnv
            [mkElement (str "p") [] [] false] sampleText))
  = [toLowerCase sampleAddress; toLowerCase sampleAddress].
Proof.
  rewrite (proj1 (proj2 (processTextNode_wrappers
                           noShortMatch plainEnv
                           [mkElement (str "p") [] [] false] sampleText)));
    [reflexivity|discriminate|discriminate].
Defined.

(** ** Text the walker takes no node from *)

Lemma mapSkipped_setTextContent f s :
  map (mapSkipped f false) (setTextContent s) = setTextContent s.
Proof. destruct s; reflexivity. Qed.

Lemma mapSkipped_created f e a d :
  mapSkipped f false (createAddressElement e a d) = createAddressElement e a d.
Proof.
  unfold createAddressElement.
  destruct (cacheGet (tagCache e) (normalizeAddress a)) as [t|].
  - cbn [mapSkipped map].
    change (isSkipped (str "span")) with false.
    now rewrite !mapSkipped_setTextContent.
  - cbn [mapSkipped map].
    change (isSkipped (str "span")) with false.
    now rewrite !mapSkipped_setTextContent.
Qed.

Lemma mapSkipped_text_if f (c : bool) s :
  map (mapSkipped f false) (if c then [Text s] else [])
  = if c then [Text s] else [].
Proof. now destruct c. Qed.

Lemma mapSkipped_buildFragment f e T : forall ms lastIndex,
  map (mapSkipped f false) (buildFragment e T lastIndex ms)
  = buildFragment e T lastIndex ms.
Proof.
  induction ms as [|m ms IH]; intros lastIndex; cbn [buildFragment].
  - apply mapSkipped_text_if.
  - rewrite map_app, mapSkipped_text_if. cbn [map].
    now rewrite mapSkipped_created, IH.
Qed.

Lemma mapSkipped_wrap f e T start len a :
  map (mapSkipped f false) (wrapWithAddressElement e T start len a)
  = wrapWithAddressElement e T start len a.
Proof.
  unfold wrapWithAddressElement.
  rewrite !map_app, !mapSkipped_text_if. cbn [map].
  now rewrite mapSkipped_created.
Qed.

Lemma mapSkipped_processTextNode f ms e chain text :
  map (mapSkipped f false) (fst (processTextNode ms e chain text))
  = fst (processTextNode ms e chain text).
Proof.
  unfold processTextNode.
  destruct (findAddressesInText text) as [|m l].
  - destruct (0 <? length (knownAddresses e)); [|reflexivity].
    unfold processTruncatedAddresses.
    destruct (negb (hasParent chain) || isAlreadyProcessed chain); [reflexivity|].
    destruct (isTxHref _); [reflexivity|].
    destruct (truncatedWrap ms e chain text) as [[[i n] a]|]; [|reflexivity].
    cbn [fst]. apply mapSkipped_wrap.
  - destruct (negb (hasParent chain)); [reflexivity|].
    cbn [fst]. apply mapSkipped_buildFragment.
Qed.

(** The loop over the children when the walker takes none of the texts. *)
Lemma walk_no_text process scanElem : forall cs marked,
  walk false process scanElem marked cs
  = (map (fun c => match c with
                   | Text s => Text s
                   | Elem _ _ _ _ => scanElem marked c
                   end) cs, marked).
Proof.
  induction cs as [|c cs IH]; intros marked; cbn [walk map]; auto.
  rewrite IH. now destruct c.
Qed.

Lemma acceptNode_skipped t cl at_ b chain :
  isSkipped t = true -> acceptNode (mkElement t cl at_ b :: chain) = false.
Proof. unfold acceptNode, isSkipped. cbn [tagName]. now intros ->. Qed.

Lemma walk_mapSkipped f process scanElem accept : forall cs marked,
  (forall m s, map (mapSkipped f false) (fst (process m s)) = fst (process m s)) ->
  Forall (fun c => forall m, scanElem m (mapSkipped f false c)
                             = mapSkipped f false (scanElem m c)) cs ->
  walk accept process scanElem marked (map (mapSkipped f false) cs)
  = (map (mapSkipped f false) (fst (walk accept process scanElem marked cs)),
     snd (walk accept process scanElem marked cs)).
Proof.
  intros cs marked P. revert marked.
  induction cs as [|c cs IH]; intros marked F; cbn [walk map]; auto.
  inversion F as [|? ? Hc F']; subst.
  destruct c as [s|t cl at_ ch].
  - cbn [mapSkipped walk]. destruct accept.
    + specialize (P marked s). destruct (process marked s) as [ns m1].
      rewrite (IH _ F').
      destruct (walk true process scanElem (marked || m1) cs) as [r m2].
      cbn [fst snd] in *. now rewrite map_app, P.
    + rewrite (IH _ F').
      destruct (walk false process scanElem marked cs) as [r m2].
      reflexivity.
  - change (mapSkipped f false (Elem t cl at_ ch))
      with (Elem t cl at_ (map (mapSkipped f (isSkipped t)) ch)) in *.
    cbn [walk]. rewrite (IH _ F').
    destruct (walk accept process scanElem marked cs) as [r m2].
    cbn [fst snd map]. now rewrite Hc.
Qed.

Lemma scanNode_mapSkipped f ms e : forall n before now b sk,
  scanNode ms e before now b (mapSkipped f sk n)
  = mapSkipped f sk (scanNode ms e before now b n).
Proof.
  induction n as [s|t cl at_ cs IH] using node_induction; intros before now b sk.
  - cbn [mapSkipped scanNode]. now destruct sk.
  - cbn [mapSkipped scanNode].
    destruct (isSkipped t) eqn:Sk.
    + rewrite (acceptNode_skipped t cl at_ b before Sk), !walk_no_text.
      cbn [mapSkipped]. rewrite Sk, !map_map. f_equal.
      apply map_ext_in. intros c Hc. rewrite Forall_forall in IH.
      destruct c as [s|t' cl' at' ch']; [reflexivity|].
      change (mapSkipped f true (Elem t' cl' at' ch'))
        with (Elem t' cl' at' (map (mapSkipped f (isSkipped t')) ch')).
      cbn beta iota.
      change (Elem t' cl' at' (map (mapSkipped f (isSkipped t')) ch'))
        with (mapSkipped f true (Elem t' cl' at' ch')).
      apply (IH _ Hc).
    + match goal with
      | |- context [walk ?a ?p ?s false (map _ cs)] =>
          rewrite (walk_mapSkipped f p s a cs false)
      end.
      * destruct (walk _ _ _ false cs) as [cs' m]. cbn [fst snd mapSkipped].
        now rewrite Sk.
      * intros m s. apply mapSkipped_processTextNode.
      * eapply Forall_impl; [|exact IH]. intros c Hc m. apply Hc.
Qed.

(** X27. [scanPage] neither reads nor changes a text that stands
    directly in a [script], [style], [noscript], [textarea] or [input]
    element: replacing these texts by any others before the walk gives the
    page that replacing them after the walk gives. *)
Theorem scanPage_skipped_text_untouched
        (matchShortAddress : jsstring -> list jsstring -> option jsstring)
        (e : env) (doc : document) (f : jsstring -> jsstring) :
  scanPage matchShortAddress e (mapSkippedDocument f doc)
  = mapSkippedDocument f (scanPage matchShortAddress e doc).
Proof.
  rewrite !scanPage_scanPageWalk. unfold scanPageWalk, mapSkippedDocument.
  destruct (enabled e); [|reflexivity].
  destruct doc as [html b]. cbn [body documentElement].
  destruct b as [s|t cl at_ cs]; [reflexivity|].
  change (mapSkipped f false (Elem t cl at_ cs))
    with (Elem t cl at_ (map (mapSkipped f (isSkipped t)) cs)).
  change (Elem t cl at_ (map (mapSkipped f (isSkipped t)) cs))
    with (mapSkipped f false (Elem t cl at_ cs)).
  cbn [body documentElement]. now rewrite scanNode_mapSkipped.
Qed.

(* ===================================================================== *)
(** * The hover panel *)
(* ===================================================================== *)

(** C6 fails on the code. With the panel of B on the page, A is hovered
    for 100 ms and then B again, for 500 ms without a break:
    [showControlPanel] returns early for B, without cancelling the show
    timer of A and without touching [pendingShowAddress], so 300 ms after
    the pointer entered A the timer passes its guard, and the panel of A
    replaces the panel of B while the pointer rests on B. *)
Theorem show_timer_survives_return_to_shown_panel :
  let before := run initial (firstn 8 returnToShownPanel) in
  let after := run initial returnToShownPanel in
  shownAddress before = Some addressB /\
  pendingShowAddress before = Some addressA /\
  timers before = [mkTimer 5 600 (ShowCallback addressA)] /\
  rendered after = [addressB; addressA] /\
  shownAddress after = Some addressA.
Proof. vm_compute. repeat split; reflexivity. Qed.

(** From the idle state the delay does what C6 says: A hovered for less
    than 300 ms, then B for 300 ms, renders one panel, for B. *)
Lemma show_delay_from_idle (a b : jsstring) (t : nat) :
  t < 300 ->
  rendered (run initial [MouseEnter a; Elapse t; MouseEnter b; Elapse 300; Response])
  = [b] /\
  shownAddress (run initial [MouseEnter a; Elapse t; MouseEnter b; Elapse 300; Response])
  = Some b.
Proof.
  intros Ht.
  assert (E1 : (300 <=? t) = false) by (apply Nat.leb_gt; lia).
  assert (E2 : (t + 300 <=? t + 300) = true) by (apply Nat.leb_le; lia).
  set (s1 := mkState None None None (Some 1) None (Some a) 0 2
                     [mkTimer 1 300 (ShowCallback a)] [] [] []).
  set (s2 := mkState None None None (Some 1) None (Some a) t 2
                     [mkTimer 1 300 (ShowCallback a)] [] [] []).
  set (s3 := mkState None None None (Some 2) None (Some b) t 3
                     [mkTimer 2 (t + 300) (ShowCallback b)] [] [] []).
  set (s4 := mkState None None None (Some 2) None (Some b) (t + 300) 3
                     [] [b] [] []).
  assert (S1 : step initial (MouseEnter a) = s1) by reflexivity.
  assert (S2 : step s1 (Elapse t) = s2).
  { unfold step, s1. cbn [timers length clock fire earliest due].
    change (0 + t) with t. rewrite E1. reflexivity. }
  assert (S3 : step s2 (MouseEnter b) = s3) by reflexivity.
  assert (S4 : step s3 (Elapse 300) = s4).
  { unfold step, s3. cbn [timers length clock fire earliest due].
    rewrite E2. cbn [action timerId due].
    unfold clearTimeout, setTimers, setClock, runCallback.
    cbn [timers filter timerId Nat.eqb negb clock pendingShowAddress strictEq
         controlPanel controlPanelBridge hideTimeout showTimeout
         currentPanelAddress nextId requests panels rendered].
    rewrite eqb_refl. unfold setRequests.
    cbn [timers filter timerId Nat.eqb negb clock pendingShowAddress strictEq
         controlPanel controlPanelBridge hideTimeout showTimeout
         currentPanelAddress nextId requests panels rendered app].
    reflexivity. }
  unfold run. cbn [fold_left]. rewrite S1, S2, S3, S4.
  split; [reflexivity|]. unfold s4. cbn [step requests].
  unfold showControlPanelNow, setRequests, shownAddress, removePanel.
  cbn [controlPanel panels nextId app filter fst Nat.eqb].
  reflexivity.
Qed.

(** C7 fails on the code. (1) [mouseleave] starts the hide timer and
    leaves the show timer alone: the pointer leaves A after 100 ms, the
    show timer stays pending and at 300 ms the panel of A is rendered.
    (2) A click outside closes the panel and clears no timer: the hide
    timer stays pending after the session is closed. (3)
    [hideControlPanelDelayed] overwrites [hideTimeout] without clearing
    the timer it held: after two [mouseleave] in a row the first hide
    timer can no longer be cancelled, and it closes the panel of B, shown
    since, under the pointer. *)
Theorem timers_left_pending :
  let left := run initial [MouseEnter addressA; Elapse 100; MouseLeave] in
  let shown := run left [Elapse 200; Response] in
  let closed := run initial [MouseEnter addressA; Elapse 300; Response;
                             MouseLeave; ClickOutside] in
  let moved := run initial [MouseEnter addressA; Elapse 300; Response;
                            MouseLeave; MouseLeave; MouseEnter addressB] in
  let later := run moved [Elapse 300; Response; Elapse 200] in
  (timers left = [mkTimer 1 300 (ShowCallback addressA);
                  mkTimer 2 600 HideCallback] /\
   shownAddress shown = Some addressA) /\
  (controlPanel closed = None /\ currentPanelAddress closed = None /\
   timers closed = [mkTimer 4 800 HideCallback]) /\
  (hideTimeout moved = None /\
   timers moved = [mkTimer 4 800 HideCallback;
                   mkTimer 6 600 (ShowCallback addressB)] /\
   rendered later = [addressA; addressB] /\
   shownAddress later = None).
Proof. vm_compute. repeat split; reflexivity. Qed.

(** ** What holds after every sequence of events *)

Lemma run_app s evs evs' : run s (evs ++ evs') = run (run s evs) evs'.
Proof. apply fold_left_app. Qed.

Lemma run_invariant (P : state -> Prop) :
  (forall s ev, P s -> P (step s ev)) ->
  forall evs s, P s -> P (run s evs).
Proof.
  intros St. induction evs as [|ev evs IH]; intros s H; cbn [run fold_left]; auto.
  apply IH. now apply St.
Qed.

Lemma cancelHide_panel s :
  controlPanel (cancelHide s) = controlPanel s /\
  controlPanelBridge (cancelHide s) = controlPanelBridge s /\
  currentPanelAddress (cancelHide s) = currentPanelAddress s /\
  panels (cancelHide s) = panels s.
Proof. unfold cancelHide. destruct (hideTimeout s); repeat split; reflexivity. Qed.

Lemma cancelShow_panel s :
  controlPanel (cancelShow s) = controlPanel s /\
  controlPanelBridge (cancelShow s) = controlPanelBridge s /\
  currentPanelAddress (cancelShow s) = currentPanelAddress s /\
  panels (cancelShow s) = panels s.
Proof. unfold cancelShow. destruct (showTimeout s); repeat split; reflexivity. Qed.

Lemma panelConsistent_same s s' :
  controlPanel s' = controlPanel s ->
  controlPanelBridge s' = controlPanelBridge s ->
  currentPanelAddress s' = currentPanelAddress s ->
  panels s' = panels s ->
  panelConsistent s -> panelConsistent s'.
Proof. unfold panelConsistent. intros -> -> -> ->. auto. Qed.

Lemma removePanel_consistent s : panelConsistent s -> removePanel s = [].
Proof.
  unfold panelConsistent, removePanel.
  destruct (controlPanel s) as [id|].
  - intros (a & -> & _). cbn [filter fst]. now rewrite Nat.eqb_refl.
  - now intros [-> _].
Qed.

Lemma closePanel_consistent s : panelConsistent s -> panelConsistent (closePanel s).
Proof.
  intros H. unfold panelConsistent, closePanel.
  cbn [controlPanel panels currentPanelAddress controlPanelBridge].
  now rewrite (removePanel_consistent s H).
Qed.

Lemma showControlPanelNow_consistent a s :
  panelConsistent s -> panelConsistent (showControlPanelNow a s).
Proof.
  intros H. unfold panelConsistent, showControlPanelNow.
  cbn [controlPanel panels currentPanelAddress controlPanelBridge isSome].
  rewrite (removePanel_consistent s H). exists a. auto.
Qed.

Lemma showControlPanel_consistent a s :
  panelConsistent s -> panelConsistent (showControlPanel a s).
Proof.
  intros H. unfold showControlPanel.
  destruct (strictEq (currentPanelAddress s) a && isSome (controlPanel s)).
  - destruct (cancelHide_panel s) as (A & B & C & D).
    exact (panelConsistent_same _ _ A B C D H).
  - destruct (cancelHide_panel s) as (A & B & C & D).
    destruct (cancelShow_panel (cancelHide s)) as (A' & B' & C' & D').
    apply (panelConsistent_same (cancelShow (cancelHide s))); auto.
    apply (panelConsistent_same s); auto; congruence.
Qed.

Lemma runCallback_consistent cb s :
  panelConsistent s -> panelConsistent (runCallback cb s).
Proof.
  intros H. destruct cb as [a|]; cbn [runCallback].
  - destruct (strictEq (pendingShowAddress s) a); auto.
  - now apply closePanel_consistent.
Qed.

Lemma fire_consistent d : forall fuel s,
  panelConsistent s -> panelConsistent (fire fuel d s).
Proof.
  induction fuel as [|fuel IH]; intros s H; cbn [fire]; auto.
  destruct (earliest d (timers s)) as [t|]; auto.
  apply IH, runCallback_consistent. exact H.
Qed.

Lemma step_consistent s ev : panelConsistent s -> panelConsistent (step s ev).
Proof.
  intros H. destruct ev as [a| | | |ms|]; cbn [step].
  - now apply showControlPanel_consistent.
  - exact H.
  - destruct (isSome (controlPanel s)); auto.
    destruct (cancelHide_panel s) as (A & B & C & D).
    exact (panelConsistent_same _ _ A B C D H).
  - destruct (isSome (controlPanel s)); auto. now apply closePanel_consistent.
  - apply (panelConsistent_same (fire (length (timers s)) (clock s + ms) s));
      try reflexivity.
    now apply fire_consistent.
  - destruct (requests s) as [|a rest]; auto.
    now apply showControlPanelNow_consistent.
Qed.

Lemma run_consistent evs : panelConsistent (run initial evs).
Proof.
  apply run_invariant; [apply step_consistent|].
  unfold panelConsistent. cbn. auto.
Qed.

Lemma shownAddress_consistent s :
  panelConsistent s ->
  length (panels s) <= 1 /\ shownAddress s = currentPanelAddress s /\
  (controlPanel s = None <-> panels s = []).
Proof.
  unfold panelConsistent, shownAddress.
  destruct (controlPanel s) as [id|].
  - intros (a & -> & -> & _). cbn [filter fst length]. rewrite Nat.eqb_refl.
    repeat split; auto; discriminate.
  - intros (-> & -> & _). repeat split; auto.
Qed.

(** X14. Whatever the pointer does, whenever time passes and whenever
    the answers to [GET_TAGS] arrive, there is never more than one panel
    on the page; the panel on the page is the one [controlPanel] refers
    to, it was built for [currentPanelAddress], and when [controlPanel] is
    null no panel is on the page. *)
Theorem one_panel_at_most (evs : list event) :
  length (panels (run initial evs)) <= 1 /\
  shownAddress (run initial evs) = currentPanelAddress (run initial evs) /\
  (controlPanel (run initial evs) = None <-> panels (run initial evs) = []).
Proof. apply shownAddress_consistent, run_consistent. Qed.

(** ** Where the addresses of the panels come from *)

Lemma addressesFrom_mono H H' s :
  incl H H' -> addressesFrom H s -> addressesFrom H' s.
Proof.
  intros I (T & Rq & Rn & Pn). repeat split.
  - intros t a Ht Ha. apply I. exact (T t a Ht Ha).
  - intros a Ha. apply I, Rq, Ha.
  - intros a Ha. apply I, Rn, Ha.
  - intros a Ha. apply I, Pn, Ha.
Qed.

Lemma addressesFrom_same H s s' :
  incl (timers s') (timers s) -> requests s' = requests s ->
  rendered s' = rendered s -> panels s' = panels s ->
  addressesFrom H s -> addressesFrom H s'.
Proof.
  intros I Eq Er Ep (T & Rq & Rn & Pn). unfold addressesFrom. rewrite Eq, Er, Ep.
  repeat split; auto. intros t a Ht. apply T, I, Ht.
Qed.

Lemma clearTimeout_timers id s : incl (timers (clearTimeout id s)) (timers s).
Proof. intros t Ht. cbn in Ht. now apply filter_In in Ht as [Ht _]. Qed.

Lemma cancelHide_timers s :
  incl (timers (cancelHide s)) (timers s) /\
  requests (cancelHide s) = requests s /\ rendered (cancelHide s) = rendered s /\
  panels (cancelHide s) = panels s.
Proof.
  unfold cancelHide. destruct (hideTimeout s) as [id|].
  - repeat split; auto. apply (clearTimeout_timers id s).
  - repeat split; auto. apply incl_refl.
Qed.

Lemma cancelShow_timers s :
  incl (timers (cancelShow s)) (timers s) /\
  requests (cancelShow s) = requests s /\ rendered (cancelShow s) = rendered s /\
  panels (cancelShow s) = panels s.
Proof.
  unfold cancelShow. destruct (showTimeout s) as [id|].
  - repeat split; auto. apply (clearTimeout_timers id s).
  - repeat split; auto. apply incl_refl.
Qed.

Lemma removePanel_incl s : incl (removePanel s) (panels s).
Proof.
  unfold removePanel. destruct (controlPanel s); [|apply incl_refl].
  intros p Hp. now apply filter_In in Hp as [Hp _].
Qed.

Lemma showControlPanel_addresses H a s :
  addressesFrom H s -> addressesFrom (H ++ [a]) (showControlPanel a s).
Proof.
  intros A. unfold showControlPanel.
  destruct (cancelHide_timers s) as (I1 & Q1 & R1 & P1).
  destruct (strictEq (currentPanelAddress s) a && isSome (controlPanel s)).
  - apply (addressesFrom_mono H); [apply incl_appl, incl_refl|].
    now apply (addressesFrom_same H s).
  - destruct (cancelShow_timers (cancelHide s)) as (I2 & Q2 & R2 & P2).
    set (s1 := cancelShow (cancelHide s)) in *.
    assert (A1 : addressesFrom H s1).
    { apply (addressesFrom_same H s); auto; try congruence.
      eapply incl_tran; eauto. }
    destruct A1 as (T & Rq & Rn & Pn). cbn. repeat split.
    + intros t b Ht Hb. cbn in Ht. apply in_app_or in Ht as [Ht|[<-|[]]].
      * apply in_or_app. left. exact (T t b Ht Hb).
      * cbn in Hb. injection Hb as <-. apply in_or_app. right. now left.
    + intros b Hb. apply in_or_app. left. apply Rq, Hb.
    + intros b Hb. apply in_or_app. left. apply Rn, Hb.
    + intros b Hb. apply in_or_app. left. apply Pn, Hb.
Qed.

Lemma closePanel_addresses H s : addressesFrom H s -> addressesFrom H (closePanel s).
Proof.
  intros (T & Rq & Rn & Pn). repeat split; auto.
  intros b Hb. apply Pn. cbn [closePanel panels] in Hb.
  apply in_map_iff in Hb as (p & <- & Hp). apply in_map.
  now apply removePanel_incl.
Qed.

Lemma runCallback_addresses H t s :
  In t (timers s) ->
  addressesFrom H s ->
  addressesFrom H (runCallback (action t)
                     (setClock (Nat.max (clock s) (due t))
                               (clearTimeout (timerId t) s))).
Proof.
  intros Ht A.
  assert (A' : addressesFrom H (setClock (Nat.max (clock s) (due t))
                                         (clearTimeout (timerId t) s))).
  { apply (addressesFrom_same H s); auto. apply (clearTimeout_timers (timerId t) s). }
  destruct (action t) as [a|] eqn:Act; cbn [runCallback].
  - match goal with |- context [strictEq ?p a] => destruct (strictEq p a) end; auto.
    destruct A' as (T' & Rq' & Rn' & Pn'). repeat split; auto.
    intros b Hb. cbn [requests setRequests] in Hb.
    apply in_app_or in Hb as [Hb|[<-|[]]]; [now apply Rq'|].
    destruct A as (T & _). exact (T t a Ht Act).
  - now apply closePanel_addresses.
Qed.

Lemma earliest_In d : forall ts t,
  earliest d ts = Some t -> In t ts /\ due t <= d.
Proof.
  induction ts as [|u ts IH]; intros t H; cbn [earliest] in H; [discriminate|].
  destruct (earliest d ts) as [v|] eqn:E.
  - destruct (IH v eq_refl) as [Iv Dv].
    destruct (due u <=? d) eqn:Du.
    + destruct (due v <? due u); injection H as <-.
      * split; [now right|exact Dv].
      * split; [now left|now apply Nat.leb_le].
    + injection H as <-. split; [now right|exact Dv].
  - destruct (due u <=? d) eqn:Du; [|discriminate].
    injection H as <-. split; [now left|now apply Nat.leb_le].
Qed.

Lemma earliest_None d : forall ts,
  earliest d ts = None -> forall t, In t ts -> d < due t.
Proof.
  induction ts as [|u ts IH]; intros H t Ht; cbn [earliest] in H; [destruct Ht|].
  destruct (earliest d ts) as [v|] eqn:E.
  - destruct (due u <=? d); [destruct (due v <? due u)|]; discriminate.
  - destruct (due u <=? d) eqn:Du; [discriminate|].
    apply Nat.leb_gt in Du. destruct Ht as [<-|Ht]; auto.
Qed.

Lemma fire_addresses H d : forall fuel s,
  addressesFrom H s -> addressesFrom H (fire fuel d s).
Proof.
  induction fuel as [|fuel IH]; intros s A; cbn [fire]; auto.
  destruct (earliest d (timers s)) as [t|] eqn:E; auto.
  apply IH, runCallback_addresses; auto. now apply earliest_In in E.
Qed.

Lemma step_addresses H s ev :
  addressesFrom H s -> addressesFrom (H ++ hovered [ev]) (step s ev).
Proof.
  intros A.
  assert (Up : forall s', addressesFrom H s' ->
                          addressesFrom (H ++ hovered [ev]) s').
  { intros s'. apply addressesFrom_mono, incl_appl, incl_refl. }
  destruct ev as [a| | | |ms|]; cbn [step].
  - cbn [hovered flat_map app]. now apply showControlPanel_addresses.
  - apply Up. destruct A as (T & Rq & Rn & Pn). repeat split; auto.
    intros t a Ht Ha. cbn in Ht. apply in_app_or in Ht as [Ht|[<-|[]]].
    + exact (T t a Ht Ha).
    + discriminate Ha.
  - apply Up. destruct (isSome (controlPanel s)); auto.
    destruct (cancelHide_timers s) as (I1 & Q1 & R1 & P1).
    now apply (addressesFrom_same H s).
  - apply Up. destruct (isSome (controlPanel s)); auto.
    now apply closePanel_addresses.
  - apply Up.
    apply (addressesFrom_same H (fire (length (timers s)) (clock s + ms) s));
      try reflexivity; [apply incl_refl|].
    now apply fire_addresses.
  - apply Up. destruct (requests s) as [|a rest] eqn:Rq; auto.
    destruct A as (T & Q & Rn & Pn). rewrite Rq in Q. repeat split; auto.
    + intros b Hb. apply Q. now right.
    + intros b Hb. cbn in Hb. apply in_app_or in Hb as [Hb|[<-|[]]].
      * now apply Rn.
      * apply Q. now left.
    + intros b Hb. cbn [showControlPanelNow panels] in Hb.
      rewrite map_app in Hb. apply in_app_or in Hb as [Hb|[<-|[]]].
      * apply Pn. apply in_map_iff in Hb as (p & <- & Hp). apply in_map.
        now apply (removePanel_incl (setRequests rest s)).
      * apply Q. now left.
Qed.

Lemma hovered_app evs evs' : hovered (evs ++ evs') = hovered evs ++ hovered evs'.
Proof. apply flat_map_app. Qed.

Lemma run_addresses : forall evs H s,
  addressesFrom H s -> addressesFrom (H ++ hovered evs) (run s evs).
Proof.
  induction evs as [|ev evs IH]; intros H s A; cbn [run fold_left].
  - cbn [hovered flat_map]. now rewrite app_nil_r.
  - change (ev :: evs) with ([ev] ++ evs). rewrite hovered_app, app_assoc.
    apply IH. now apply step_addresses.
Qed.

(** X15. A panel is requested, rendered and on the page only for an
    address of an element the pointer has entered: after every sequence of
    events the addresses of the panels rendered so far, of the pending
    [GET_TAGS] requests and of the panels on the page are among the
    addresses of the [mouseenter] events of the sequence. *)
Theorem panels_only_for_hovered (evs : list event) :
  incl (rendered (run initial evs)) (hovered evs) /\
  incl (requests (run initial evs)) (hovered evs) /\
  incl (map snd (panels (run initial evs))) (hovered evs).
Proof.
  assert (A : addressesFrom ([] ++ hovered evs) (run initial evs)).
  { apply run_addresses. split; [intros t a []|]. repeat split; intros a []. }
  cbn [app] in A. destruct A as (_ & Rq & Rn & Pn). auto.
Qed.

(** ** The hide timer *)

Lemma NoDup_map_filter {A B} (f : A -> B) (p : A -> bool) l :
  NoDup (map f l) -> NoDup (map f (filter p l)).
Proof.
  induction l as [|x l IH]; cbn [map filter]; auto.
  intros N. inversion N as [|? ? Nx N']; subst.
  destruct (p x); cbn [map]; auto. constructor; auto.
  intros I. apply Nx. apply in_map_iff in I as (y & E & Hy).
  apply in_map_iff. exists y. split; auto. now apply filter_In in Hy as [Hy _].
Qed.

Lemma timersFresh_filter p s s' :
  timers s' = filter p (timers s) -> nextId s' = nextId s ->
  timersFresh s -> timersFresh s'.
Proof.
  intros Et En [N F]. unfold timersFresh. rewrite Et, En. split.
  - now apply NoDup_map_filter.
  - apply Forall_forall. intros t Ht. apply filter_In in Ht as [Ht _].
    rewrite Forall_forall in F. now apply F.
Qed.

Lemma timersFresh_same s s' :
  timers s' = timers s -> nextId s <= nextId s' ->
  timersFresh s -> timersFresh s'.
Proof.
  intros Et En [N F]. unfold timersFresh. rewrite Et. split; auto.
  eapply Forall_impl; [|exact F]. cbn. intros t Ht. lia.
Qed.

Lemma cancelHide_fresh s : timersFresh s -> timersFresh (cancelHide s).
Proof.
  unfold cancelHide. destruct (hideTimeout s) as [id|]; auto.
  now apply (timersFresh_filter (fun t => negb (timerId t =? id))).
Qed.

Lemma cancelShow_fresh s : timersFresh s -> timersFresh (cancelShow s).
Proof.
  unfold cancelShow. destruct (showTimeout s) as [id|]; auto.
  now apply (timersFresh_filter (fun t => negb (timerId t =? id))).
Qed.

Lemma setTimeout_fresh cb delay s :
  timersFresh s -> timersFresh (fst (setTimeout cb delay s)).
Proof.
  intros [N F]. unfold timersFresh, setTimeout. cbn [fst timers nextId].
  rewrite map_app. cbn [map timerId]. split.
  - apply NoDup_app; auto.
    + repeat constructor. intros [].
    + intros i Hi [<-|[]]. apply in_map_iff in Hi as (t & E & Ht).
      rewrite Forall_forall in F. specialize (F t Ht). lia.
  - apply Forall_app. split.
    + eapply Forall_impl; [|exact F]. cbn. intros t Ht. lia.
    + repeat constructor.
Qed.

Lemma runCallback_timers cb s :
  timers (runCallback cb s) = timers s /\ nextId (runCallback cb s) = nextId s.
Proof.
  destruct cb as [a|]; cbn [runCallback]; [|split; reflexivity].
  destruct (strictEq (pendingShowAddress s) a); split; reflexivity.
Qed.

Lemma fired_timers t s :
  timers (runCallback (action t)
            (setClock (Nat.max (clock s) (due t)) (clearTimeout (timerId t) s)))
  = filter (fun u => negb (timerId u =? timerId t)) (timers s) /\
  nextId (runCallback (action t)
            (setClock (Nat.max (clock s) (due t)) (clearTimeout (timerId t) s)))
  = nextId s.
Proof.
  destruct (runCallback_timers (action t)
              (setClock (Nat.max (clock s) (due t)) (clearTimeout (timerId t) s)))
    as [-> ->].
  split; reflexivity.
Qed.

Lemma fire_fresh d : forall fuel s, timersFresh s -> timersFresh (fire fuel d s).
Proof.
  induction fuel as [|fuel IH]; intros s H; cbn [fire]; auto.
  destruct (earliest d (timers s)) as [t|]; auto.
  apply IH. destruct (fired_timers t s) as [Et En].
  exact (timersFresh_filter _ _ _ Et En H).
Qed.

Lemma step_fresh s ev : timersFresh s -> timersFresh (step s ev).
Proof.
  intros H. destruct ev as [a| | | |ms|]; cbn [step].
  - unfold showControlPanel.
    destruct (strictEq (currentPanelAddress s) a && isSome (controlPanel s)).
    + now apply cancelHide_fresh.
    + apply (timersFresh_same
               (fst (setTimeout (ShowCallback a) 300
                       (setPending (Some a) (cancelShow (cancelHide s))))));
        [reflexivity|apply Nat.le_refl|].
      apply setTimeout_fresh.
      apply (timersFresh_same (cancelShow (cancelHide s)));
        [reflexivity|apply Nat.le_refl|].
      now apply cancelShow_fresh, cancelHide_fresh.
  - unfold hideControlPanelDelayed.
    apply (timersFresh_same (fst (setTimeout HideCallback 500 s)));
      [reflexivity|apply Nat.le_refl|].
    now apply setTimeout_fresh.
  - destruct (isSome (controlPanel s)); auto. now apply cancelHide_fresh.
  - destruct (isSome (controlPanel s)); exact H.
  - apply (timersFresh_same (fire (length (timers s)) (clock s + ms) s));
      [reflexivity|apply Nat.le_refl|].
    now apply fire_fresh.
  - destruct (requests s) as [|a rest]; auto.
    apply (timersFresh_same s); [reflexivity|cbn; lia|exact H].
Qed.

Lemma fire_keeps_closed d : forall fuel s,
  controlPanel s = None -> controlPanel (fire fuel d s) = None.
Proof.
  induction fuel as [|fuel IH]; intros s H; cbn [fire]; auto.
  destruct (earliest d (timers s)) as [t|]; auto.
  apply IH. destruct (action t) as [a|]; cbn [runCallback]; auto.
  match goal with |- context [strictEq ?p a] => destruct (strictEq p a) end; auto.
Qed.

(** When time passes over a pending hide timer, no panel is left. *)
Lemma fire_hide d : forall fuel s,
  length (timers s) <= fuel ->
  NoDup (map timerId (timers s)) ->
  (exists t, In t (timers s) /\ action t = HideCallback /\ due t <= d) ->
  controlPanel (fire fuel d s) = None.
Proof.
  induction fuel as [|fuel IH]; intros s L N (t & Ht & At & Dt).
  - destruct (timers s); [destruct Ht|cbn in L; lia].
  - cbn [fire]. destruct (earliest d (timers s)) as [u|] eqn:E.
    2:{ pose proof (earliest_None _ _ E t Ht). lia. }
    destruct (earliest_In _ _ _ E) as [Hu Du].
    destruct (fired_timers u s) as [Et _].
    set (s' := runCallback (action u)
                 (setClock (Nat.max (clock s) (due u)) (clearTimeout (timerId u) s)))
      in *.
    destruct (action u) as [a|] eqn:Au.
    + apply IH.
      * rewrite Et.
        assert (S : length (filter (fun v => negb (timerId v =? timerId u))
                                   (timers s))
                    < length (timers s)).
        { clear - Hu. induction (timers s) as [|v l IHl]; [destruct Hu|].
          cbn [filter length]. destruct Hu as [->|Hu].
          - rewrite Nat.eqb_refl. cbn [negb].
            pose proof (filter_length_le
                          (fun v => negb (timerId v =? timerId u)) l).
            lia.
          - specialize (IHl Hu). destruct (negb _); cbn [length]; lia. }
        lia.
      * rewrite Et. now apply NoDup_map_filter.
      * exists t. rewrite Et. repeat split; auto. apply filter_In. split; auto.
        destruct (timerId t =? timerId u) eqn:Q; auto.
        apply Nat.eqb_eq in Q. exfalso.
        assert (t = u); [|congruence].
        clear - N Ht Hu Q. induction (timers s) as [|v l IHl]; [destruct Ht|].
        cbn [map] in N. inversion N as [|? ? Nv N']; subst.
        destruct Ht as [->|Ht], Hu as [->|Hu]; auto.
        -- exfalso. apply Nv. rewrite Q. now apply in_map.
        -- exfalso. apply Nv. rewrite <- Q. now apply in_map.
    + apply fire_keeps_closed. reflexivity.
Qed.

(** X16. When the pointer has left (an address element, the panel or the
    bridge) and 500 ms or more pass without another event, no answer to
    [GET_TAGS] among them, no panel is on the page: the hide timer has
    run, whatever happened before. *)
Theorem panel_closes_after_leave (evs : list event) (ms : nat) :
  500 <= ms ->
  controlPanel (run initial (evs ++ [MouseLeave; Elapse ms])) = None /\
  panels (run initial (evs ++ [MouseLeave; Elapse ms])) = [] /\
  shownAddress (run initial (evs ++ [MouseLeave; Elapse ms])) = None.
Proof.
  intros Hms.
  assert (C : controlPanel (run initial (evs ++ [MouseLeave; Elapse ms])) = None).
  { rewrite run_app. set (s := run initial evs).
    assert (F : timersFresh (step s MouseLeave)).
    { apply step_fresh. apply run_invariant; [apply step_fresh|].
      split; constructor. }
    cbn [run fold_left]. set (s1 := step s MouseLeave) in *.
    change (controlPanel (fire (length (timers s1)) (clock s1 + ms) s1) = None).
    apply fire_hide; auto; [apply F|].
    exists (mkTimer (nextId s) (clock s + 500) HideCallback).
    repeat split.
    - cbn. apply in_or_app. right. now left.
    - cbn. lia. }
  destruct (shownAddress_consistent
              (run initial (evs ++ [MouseLeave; Elapse ms]))
              (run_consistent _)) as (_ & S & Iff).
  split; [exact C|]. split; [now apply Iff|].
  unfold shownAddress. now rewrite C.
Qed.

Lemma panel_closes_after_leave_witness :
  shownAddress (run initial [MouseEnter addressA; Elapse 300; Response])
  = Some addressA /\
  controlPanel (run initial ([MouseEnter addressA; Elapse 300; Response]
                             ++ [MouseLeave; Elapse 500])) = None.
Proof.
  split; [reflexivity|].
  apply (panel_closes_after_leave [MouseEnter addressA; Elapse 300; Response] 500).
  lia.
Defined.

(** ** A hover leads to a request *)

Lemma runCallback_pending cb s :
  pendingShowAddress (runCallback cb s) = pendingShowAddress s.
Proof.
  destruct cb as [a|]; cbn [runCallback]; [|reflexivity].
  now destruct (strictEq (pendingShowAddress s) a).
Qed.

Lemma runCallback_requests cb s :
  incl (requests s) (requests (runCallback cb s)).
Proof.
  destruct cb as [a|]; cbn [runCallback]; [|apply incl_refl].
  destruct (strictEq (pendingShowAddress s) a); [|apply incl_refl].
  cbn [requests setRequests]. apply incl_appl, incl_refl.
Qed.

Lemma fire_requests d : forall fuel s,
  incl (requests s) (requests (fire fuel d s)).
Proof.
  induction fuel as [|fuel IH]; intros s; cbn [fire]; [apply incl_refl|].
  destruct (earliest d (timers s)) as [t|]; [|apply incl_refl].
  eapply incl_tran; [|apply IH].
  apply (runCallback_requests (action t)
           (setClock (Nat.max (clock s) (due t)) (clearTimeout (timerId t) s))).
Qed.

Lemma filter_shorter {A} (p : A -> bool) x l :
  In x l -> p x = false -> length (filter p l) < length l.
Proof.
  induction l as [|y l IH]; intros H P; [destruct H|].
  cbn [filter length]. destruct H as [->|H].
  - rewrite P. pose proof (filter_length_le p l). lia.
  - specialize (IH H P). destruct (p y); cbn [length]; lia.
Qed.

Lemma NoDup_map_eq {A B} (f : A -> B) l x y :
  NoDup (map f l) -> In x l -> In y l -> f x = f y -> x = y.
Proof.
  induction l as [|z l IH]; intros N Hx Hy E; [destruct Hx|].
  cbn [map] in N. inversion N as [|? ? Nz N']; subst.
  destruct Hx as [->|Hx], Hy as [->|Hy]; auto.
  - exfalso. apply Nz. rewrite E. now apply in_map.
  - exfalso. apply Nz. rewrite <- E. now apply in_map.
Qed.

(** When time passes over the show timer of the address the pointer is
    waiting on, the request for its tags is sent. *)
Lemma fire_show a d : forall fuel s,
  length (timers s) <= fuel ->
  NoDup (map timerId (timers s)) ->
  pendingShowAddress s = Some a ->
  (exists t, In t (timers s) /\ action t = ShowCallback a /\ due t <= d) ->
  In a (requests (fire fuel d s)).
Proof.
  induction fuel as [|fuel IH]; intros s L N Pa (t & Ht & At & Dt).
  - destruct (timers s); [destruct Ht|cbn in L; lia].
  - cbn [fire]. destruct (earliest d (timers s)) as [u|] eqn:E.
    2:{ pose proof (earliest_None _ _ E t Ht). lia. }
    destruct (earliest_In _ _ _ E) as [Hu Du].
    destruct (fired_timers u s) as [Et _].
    pose proof (runCallback_pending (action u)
                  (setClock (Nat.max (clock s) (due u))
                            (clearTimeout (timerId u) s))) as Ep.
    set (s' := runCallback (action u)
                 (setClock (Nat.max (clock s) (due u)) (clearTimeout (timerId u) s)))
      in *.
    destruct (Nat.eq_dec (timerId t) (timerId u)) as [Q|Q].
    + assert (t = u) by exact (NoDup_map_eq timerId _ t u N Ht Hu Q). subst u.
      apply (fire_requests d fuel s'). unfold s'. rewrite At. cbn [runCallback].
      cbn [pendingShowAddress setClock clearTimeout setTimers]. rewrite Pa.
      cbn [strictEq]. rewrite eqb_refl. cbn [requests setRequests].
      apply in_or_app. right. now left.
    + apply IH.
      * rewrite Et.
        assert (S : length (filter (fun v => negb (timerId v =? timerId u))
                                   (timers s)) < length (timers s)).
        { apply (filter_shorter _ u); auto. now rewrite Nat.eqb_refl. }
        lia.
      * rewrite Et. now apply NoDup_map_filter.
      * rewrite Ep. exact Pa.
      * exists t. rewrite Et. repeat split; auto. apply filter_In. split; auto.
        apply Nat.eqb_neq in Q. now rewrite Q.
Qed.

Lemma showControlPanel_waits a s :
  (strictEq (currentPanelAddress s) a && isSome (controlPanel s)) = false ->
  pendingShowAddress (showControlPanel a s) = Some a /\
  In (mkTimer (nextId s) (clock s + 300) (ShowCallback a))
     (timers (showControlPanel a s)) /\
  clock (showControlPanel a s) = clock s.
Proof.
  intros G. unfold showControlPanel. rewrite G.
  assert (K : nextId (cancelShow (cancelHide s)) = nextId s /\
              clock (cancelShow (cancelHide s)) = clock s).
  { unfold cancelShow, cancelHide.
    destruct (hideTimeout s); cbn; destruct (showTimeout s); cbn; auto. }
  destruct K as [Kn Kc].
  cbn. rewrite Kn, Kc. repeat split; auto. apply in_or_app. right. now left.
Qed.

(** X26. Whatever happened before: when the pointer enters an element
    for an address whose panel is not the one on the page and 300 ms or
    more pass without another event, the [GET_TAGS] request for that
    address has been sent. *)
Theorem hover_sends_request (evs : list event) (a : jsstring) (ms : nat) :
  300 <= ms ->
  shownAddress (run initial evs) <> Some a ->
  In a (requests (run initial (evs ++ [MouseEnter a; Elapse ms]))).
Proof.
  intros Hms Sh. rewrite run_app. set (s := run initial evs) in *.
  assert (G : (strictEq (currentPanelAddress s) a && isSome (controlPanel s)) = false).
  { destruct (shownAddress_consistent s (run_consistent evs)) as (_ & S & _).
    rewrite S in Sh. destruct (currentPanelAddress s) as [b|]; auto.
    cbn [strictEq]. destruct (Js.eqb b a) eqn:E; auto.
    apply eqb_eq in E. subst b. now destruct Sh. }
  destruct (showControlPanel_waits a s G) as (Pa & Ht & Ec).
  assert (F : timersFresh (step s (MouseEnter a))).
  { apply step_fresh. apply run_invariant; [apply step_fresh|]. split; constructor. }
  cbn [run fold_left]. set (s1 := step s (MouseEnter a)) in *.
  change (In a (requests (fire (length (timers s1)) (clock s1 + ms) s1))).
  apply fire_show; auto; [apply F|].
  exists (mkTimer (nextId s) (clock s + 300) (ShowCallback a)).
  split; [exact Ht|]. split; [reflexivity|]. cbn [due].
  change (clock s1) with (clock (showControlPanel a s)). rewrite Ec. lia.
Qed.

Lemma hover_sends_request_witness :
  In addressB
     (requests (run initial ([MouseEnter addressA; Elapse 300; Response; MouseLeave]
                             ++ [MouseEnter addressB; Elapse 300]))).
Proof.
  apply (hover_sends_request [MouseEnter addressA; Elapse 300; Response; MouseLeave]
                             addressB 300).
  - lia.
  - vm_compute. discriminate.
Defined.

(* ===================================================================== *)
(** * The observer of the page *)
(* ===================================================================== *)

Lemma onMutations_pending mutations s :
  Observer.shouldScan mutations = true -> onePending s ->
  Observer.timers (Observer.onMutations mutations s)
  = [Observer.mkTimer (Observer.nextId s) (Observer.clock s + 500)] /\
  Observer.scanDebounce (Observer.onMutations mutations s)
  = Some (Observer.nextId s) /\
  Observer.scans (Observer.onMutations mutations s) = Observer.scans s /\
  Observer.clock (Observer.onMutations mutations s) = Observer.clock s.
Proof.
  intros Sh P. unfold Observer.onMutations. rewrite Sh.
  destruct P as [E|(id & d & Es & Et & _)].
  - assert (C : Observer.timers
                  (Observer.clearTimeout (Observer.scanDebounce s) s) = []).
    { unfold Observer.clearTimeout.
      destruct (Observer.scanDebounce s); cbn; now rewrite E. }
    unfold Observer.setScanTimeout.
    cbn [Observer.timers Observer.scanDebounce Observer.scans Observer.clock].
    rewrite C. unfold Observer.clearTimeout.
    destruct (Observer.scanDebounce s); cbn; auto.
  - rewrite Es. cbn. rewrite Et. cbn. rewrite Nat.eqb_refl. cbn. auto.
Qed.

Lemma fire_single id d deadline s :
  Observer.timers s = [Observer.mkTimer id d] ->
  Observer.fire 1 deadline s
  = if d <=? deadline then Observer.runTimer (Observer.mkTimer id d) s else s.
Proof.
  intros Et. cbn [Observer.fire]. rewrite Et.
  cbn [Observer.earliest Observer.due]. now destruct (d <=? deadline).
Qed.

Lemma runTimer_single id d s :
  Observer.timers s = [Observer.mkTimer id d] ->
  Observer.timers (Observer.runTimer (Observer.mkTimer id d) s) = [].
Proof.
  intros Et. unfold Observer.runTimer. cbn [Observer.timers Observer.timerId].
  rewrite Et. cbn [filter Observer.timerId]. now rewrite Nat.eqb_refl.
Qed.

Lemma step_onePending s ev : onePending s -> onePending (Observer.step s ev).
Proof.
  intros P. destruct ev as [mutations|ms]; cbn [Observer.step].
  - destruct (Observer.shouldScan mutations) eqn:Sh.
    + destruct (onMutations_pending mutations s Sh P) as (Et & Es & _ & Ec).
      right. exists (Observer.nextId s), (Observer.clock s + 500).
      rewrite Ec. auto.
    + unfold Observer.onMutations. now rewrite Sh.
  - destruct P as [E|(id & d & Es & Et & Hd)].
    + left. rewrite E. cbn. exact E.
    + rewrite Et. cbn [length]. rewrite (fire_single id d _ s Et).
      destruct (d <=? Observer.clock s + ms) eqn:D.
      * left. cbn [Observer.timers]. now apply runTimer_single.
      * right. exists id, d. cbn. apply Nat.leb_gt in D. repeat split; auto. lia.
Qed.

Lemma observer_run_invariant (P : Observer.state -> Prop) :
  (forall s ev, P s -> P (Observer.step s ev)) ->
  forall evs s, P s -> P (Observer.run s evs).
Proof.
  intros St. induction evs as [|ev evs IH]; intros s H;
    cbn [Observer.run fold_left]; auto.
  apply IH. now apply St.
Qed.

(** X17. However the page changes and whenever time passes, at most one
    scan is pending: the timer [scanDebounce] names, due within 500 ms;
    every timer set before it has been cleared or has run. *)
Theorem one_scan_pending (evs : list Observer.event) :
  length (Observer.timers (Observer.run Observer.initial evs)) <= 1 /\
  forall t, In t (Observer.timers (Observer.run Observer.initial evs)) ->
            Observer.scanDebounce (Observer.run Observer.initial evs)
            = Some (Observer.timerId t) /\
            Observer.due t <= Observer.clock (Observer.run Observer.initial evs) + 500.
Proof.
  assert (P : onePending (Observer.run Observer.initial evs)).
  { apply observer_run_invariant; [apply step_onePending|]. now left. }
  destruct P as [E|(id & d & Es & Et & Hd)].
  - rewrite E. split; [cbn; lia|intros t []].
  - rewrite Et. split; [cbn; lia|]. intros t [<-|[]]. cbn. auto.
Qed.

(** One insertion and the time after it. *)
Lemma debounce_step mutations ms s :
  Observer.shouldScan mutations = true -> onePending s ->
  Observer.scans (Observer.run s [Observer.Mutations mutations; Observer.Elapse ms])
  = Observer.scans s ++ (if 500 <=? ms then [Observer.clock s + 500] else []) /\
  Observer.clock (Observer.run s [Observer.Mutations mutations; Observer.Elapse ms])
  = Observer.clock s + ms.
Proof.
  intros Sh P. cbn [Observer.run fold_left Observer.step].
  destruct (onMutations_pending mutations s Sh P) as (Et & Es & En & Ec).
  set (s1 := Observer.onMutations mutations s) in *.
  rewrite Et. cbn [length]. rewrite (fire_single _ _ _ s1 Et), Ec.
  replace (Observer.clock s + 500 <=? Observer.clock s + ms) with (500 <=? ms).
  2:{ destruct (500 <=? ms) eqn:A; symmetry.
      - apply Nat.leb_le in A. apply Nat.leb_le. lia.
      - apply Nat.leb_gt in A. apply Nat.leb_gt. lia. }
  destruct (500 <=? ms) eqn:A.
  - cbn. rewrite En, Ec. split; auto. f_equal. f_equal. lia.
  - cbn. rewrite En. split; auto. now rewrite app_nil_r.
Qed.

Lemma observer_run_app s evs evs' :
  Observer.run s (evs ++ evs') = Observer.run (Observer.run s evs) evs'.
Proof. apply fold_left_app. Qed.

Lemma burst_silent : forall pauses s,
  onePending s -> Forall (fun p => p < 500) pauses ->
  Observer.scans (Observer.run s (burst pauses)) = Observer.scans s /\
  Observer.clock (Observer.run s (burst pauses))
  = Observer.clock s + list_sum pauses /\
  onePending (Observer.run s (burst pauses)).
Proof.
  induction pauses as [|p pauses IH]; intros s P F.
  - cbn. repeat split; auto.
  - inversion F as [|? ? Hp F']; subst.
    change (burst (p :: pauses))
      with ([Observer.Mutations [1]; Observer.Elapse p] ++ burst pauses).
    rewrite observer_run_app.
    destruct (debounce_step [1] p s eq_refl P) as [Sc Cl].
    assert (P1 : onePending
                   (Observer.run s [Observer.Mutations [1]; Observer.Elapse p])).
    { apply observer_run_invariant; [apply step_onePending|exact P]. }
    destruct (IH _ P1 F') as (Sc' & Cl' & P').
    rewrite Sc', Cl', Sc, Cl. apply Nat.leb_gt in Hp. rewrite Hp, app_nil_r.
    change (list_sum (p :: pauses)) with (p + list_sum pauses).
    split; [reflexivity|]. split; [lia|exact P'].
Qed.

(** X18. Insertions that follow one another by less than 500 ms start no
    scan, however many they are; once the page has been still for 500 ms
    after the last insertion, [scanPage] has run exactly once more, 500 ms
    after that insertion. *)
Theorem insertions_debounced (evs : list Observer.event) (pauses : list nat)
        (mutations : list nat) (still : nat) :
  Forall (fun p => p < 500) pauses ->
  Observer.shouldScan mutations = true ->
  500 <= still ->
  Observer.scans
    (Observer.run Observer.initial
       (evs ++ burst pauses ++ [Observer.Mutations mutations; Observer.Elapse still]))
  = Observer.scans (Observer.run Observer.initial evs)
    ++ [Observer.clock (Observer.run Observer.initial evs) + list_sum pauses + 500].
Proof.
  intros F Sh Q. rewrite !observer_run_app.
  set (s := Observer.run Observer.initial evs).
  assert (P : onePending s).
  { apply observer_run_invariant; [apply step_onePending|]. now left. }
  destruct (burst_silent pauses s P F) as (Sc & Cl & P').
  destruct (debounce_step mutations still _ Sh P') as [Sc' _].
  rewrite Sc', Sc, Cl. apply Nat.leb_le in Q. now rewrite Q.
Qed.

Lemma insertions_debounced_witness :
  Observer.scans
    (Observer.run Observer.initial
       ([] ++ burst [100; 499; 0] ++ [Observer.Mutations [0; 2]; Observer.Elapse 500]))
  = [] ++ [0 + list_sum [100; 499; 0] + 500].
Proof.
  apply (insertions_debounced [] [100; 499; 0] [0; 2] 500).
  - repeat constructor.
  - reflexivity.
  - lia.
Defined.

(* ===================================================================== *)
(** * Labels and entities *)
(* ===================================================================== *)

Import Arkham.

Lemma mapGet_mapSet m key v : mapGet (mapSet m key v) key = Some v.
Proof.
  induction m as [|[k w] m IH]; cbn [mapSet mapGet].
  - now rewrite eqb_refl.
  - destruct (Js.eqb key k) eqn:E; cbn [mapGet]; now rewrite E.
Qed.

(** C8. When the map holds a record with an entity for an address, a label
    for that address puts its own name on the record and keeps the
    entity; so an entity Acme with the address and the labels Foo, then
    Bar, for it come out of [fetchArkhamLabels] as the one record with
    name Bar and entity Acme. *)
Theorem label_keeps_entity :
  (forall m item t,
      chainType item = str "evm" ->
      mapGet m (toLowerCase (labelAddress item)) = Some t ->
      mapGet (setLabel m item) (toLowerCase (labelAddress item))
      = Some (Arkham.mkTag (toLowerCase (labelAddress item)) (labelName item)
                           (entity t) arkham)) /\
  fetchArkhamLabels
    (Some [mkEntity (str "Acme") [sampleAddress]])
    (Some [mkLabel sampleAddress (str "Foo") (str "evm");
           mkLabel sampleAddress (str "Bar") (str "evm")])
  = Some [Arkham.mkTag (toLowerCase sampleAddress) (str "Bar")
                       (Some (str "Acme")) arkham].
Proof.
  split; [|reflexivity].
  intros m item t Evm G. unfold setLabel. rewrite Evm, eqb_refl, G.
  apply mapGet_mapSet.
Qed.

Lemma label_keeps_entity_witness :
  mapGet [(addressA, Arkham.mkTag addressA (str "Foo") (Some (str "Acme")) arkham)]
         (toLowerCase sampleAddress)
  = Some (Arkham.mkTag addressA (str "Foo") (Some (str "Acme")) arkham) /\
  mapGet (setLabel
            [(addressA, Arkham.mkTag addressA (str "Foo") (Some (str "Acme")) arkham)]
            (mkLabel sampleAddress (str "Bar") (str "evm")))
         (toLowerCase sampleAddress)
  = Some (Arkham.mkTag addressA (str "Bar") (Some (str "Acme")) arkham).
Proof.
  split; [reflexivity|].
  exact (proj1 label_keeps_entity
               [(addressA, Arkham.mkTag addressA (str "Foo") (Some (str "Acme")) arkham)]
               (mkLabel sampleAddress (str "Bar") (str "evm"))
               (Arkham.mkTag addressA (str "Foo") (Some (str "Acme")) arkham)
               eq_refl eq_refl).
Defined.

(** ** The records of one import *)

Lemma mapSet_keys m key v :
  map fst (mapSet m key v)
  = if existsb (Js.eqb key) (map fst m) then map fst m else map fst m ++ [key].
Proof.
  induction m as [|[k w] m IH]; cbn [mapSet map fst existsb]; auto.
  destruct (Js.eqb key k) eqn:E; cbn [map fst orb]; auto.
  rewrite IH. now destruct (existsb (Js.eqb key) (map fst m)).
Qed.

Lemma mapSet_NoDup m key v : NoDup (map fst m) -> NoDup (map fst (mapSet m key v)).
Proof.
  intros N. rewrite mapSet_keys.
  destruct (existsb (Js.eqb key) (map fst m)) eqn:E; auto.
  apply NoDup_app; auto.
  - repeat constructor. intros [].
  - intros k Hk [<-|[]].
    assert (X : existsb (Js.eqb key) (map fst m) = true); [|congruence].
    apply existsb_exists. exists key. split; auto. apply eqb_refl.
Qed.

Lemma mapSet_wellKeyed m key v :
  Arkham.address v = key -> toLowerCase key = key -> source v = arkham ->
  wellKeyed m -> wellKeyed (mapSet m key v).
Proof.
  intros A L S. unfold wellKeyed.
  induction m as [|[k w] m IH]; intros W; cbn [mapSet].
  - repeat constructor; auto.
  - inversion W as [|? ? Hk W']; subst.
    destruct (Js.eqb (Arkham.address v) k) eqn:E.
    + apply eqb_eq in E. subst k. constructor; auto.
    + constructor; auto.
Qed.

Lemma mapSet_not_nil m key v : mapSet m key v <> [].
Proof.
  destruct m as [|[k w] m]; cbn [mapSet]; [|destruct (Js.eqb key k)]; discriminate.
Qed.

Lemma mapSet_good m a n e :
  goodMap m ->
  goodMap (mapSet m (toLowerCase a) (Arkham.mkTag (toLowerCase a) n e arkham)).
Proof.
  intros [N W]. split; [now apply mapSet_NoDup|].
  apply mapSet_wellKeyed; auto. apply toLowerCase_idempotent.
Qed.

Lemma setEntityAddresses_good n : forall addrs m,
  goodMap m -> goodMap (setEntityAddresses m n addrs).
Proof.
  induction addrs as [|a addrs IH]; intros m G; cbn [setEntityAddresses]; auto.
  apply IH. now apply mapSet_good.
Qed.

Lemma setEntities_good : forall es m, goodMap m -> goodMap (setEntities m es).
Proof.
  induction es as [|en es IH]; intros m G; cbn [setEntities]; auto.
  apply IH. now apply setEntityAddresses_good.
Qed.

Lemma setLabel_good m l : goodMap m -> goodMap (setLabel m l).
Proof.
  intros G. unfold setLabel. destruct (Js.eqb (chainType l) (str "evm")); auto.
  now apply mapSet_good.
Qed.

Lemma setLabels_good : forall ls m, goodMap m -> goodMap (setLabels m ls).
Proof.
  unfold setLabels. induction ls as [|l ls IH]; intros m G; cbn [fold_left]; auto.
  apply IH. now apply setLabel_good.
Qed.

Lemma arkhamTagMap_good es ls : goodMap (arkhamTagMap es ls).
Proof.
  unfold arkhamTagMap.
  assert (G0 : goodMap []) by (split; constructor).
  assert (G1 : goodMap (match es with
                        | Some es0 => setEntities [] es0
                        | None => []
                        end)).
  { destruct es; auto. now apply setEntities_good. }
  destruct ls; auto. now apply setLabels_good.
Qed.

(** X19. The records [fetchArkhamLabels] returns are never none; no two
    of them are for the same address, however often an address comes up
    in the entities and the labels and in whatever case; and each has its
    address in lower case and the source [arkham]. *)
Theorem fetchArkhamLabels_one_record_per_address
        (entitiesData : option (list entityItem))
        (labelsData : option (list labelItem)) (tags : list Tag) :
  fetchArkhamLabels entitiesData labelsData = Some tags ->
  tags <> [] /\
  NoDup (map Arkham.address tags) /\
  Forall (fun t => toLowerCase (Arkham.address t) = Arkham.address t /\
                   source t = arkham) tags.
Proof.
  unfold fetchArkhamLabels, mapValues.
  destruct (arkhamTagMap_good entitiesData labelsData) as [N W].
  set (m := arkhamTagMap entitiesData labelsData) in *.
  assert (K : map Arkham.address (map snd m) = map fst m).
  { rewrite map_map. apply map_ext_in. intros kv Hkv.
    unfold wellKeyed in W. rewrite Forall_forall in W. now apply W. }
  destruct (map snd m) as [|t ts] eqn:E; [discriminate|].
  intros [= <-]. split; [discriminate|]. split; [now rewrite K|].
  rewrite <- E. apply Forall_forall. intros t' Ht'.
  apply in_map_iff in Ht' as (kv & <- & Hkv).
  unfold wellKeyed in W. rewrite Forall_forall in W.
  destruct (W kv Hkv) as (A & L & S). rewrite A. auto.
Qed.

Lemma fetchArkhamLabels_one_record_per_address_witness :
  NoDup (map Arkham.address
           [Arkham.mkTag (toLowerCase sampleAddress) (str "Bar")
                         (Some (str "Acme")) arkham;
            Arkham.mkTag (toLowerCase knownSample) (str "Acme")
                         (Some (str "Acme")) arkham]).
Proof.
  apply (fetchArkhamLabels_one_record_per_address
           (Some [mkEntity (str "Acme")
                           [sampleAddress; knownSample; toLowerCase sampleAddress]])
           (Some [mkLabel sampleAddress (str "Bar") (str "evm");
                  mkLabel knownSample (str "Baz") (str "solana")])).
  reflexivity.
Defined.

Lemma setEntityAddresses_nil n : forall addrs m,
  setEntityAddresses m n addrs = [] <-> m = [] /\ addrs = [].
Proof.
  induction addrs as [|a addrs IH]; intros m; cbn [setEntityAddresses].
  - split; [auto|now intros [-> _]].
  - rewrite IH. split; [intros [E _]; now apply mapSet_not_nil in E|].
    intros [_ E]. discriminate.
Qed.

Lemma setEntities_nil : forall es m,
  setEntities m es = [] <-> m = [] /\ flat_map evm es = [].
Proof.
  induction es as [|en es IH]; intros m; cbn [setEntities flat_map].
  - split; [auto|now intros [-> _]].
  - rewrite IH, setEntityAddresses_nil. split.
    + intros [[-> ->] ->]. auto.
    + intros [-> E]. apply app_eq_nil in E as [-> ->]. auto.
Qed.

Lemma setLabels_nil : forall ls m,
  setLabels m ls = [] <-> m = [] /\ evmLabels ls = [].
Proof.
  unfold setLabels, evmLabels.
  induction ls as [|l ls IH]; intros m; cbn [fold_left filter].
  - split; [auto|now intros [-> _]].
  - rewrite IH. unfold setLabel.
    destruct (Js.eqb (chainType l) (str "evm")).
    + split; [intros [E _]; now apply mapSet_not_nil in E|].
      intros [_ E]. discriminate.
    + reflexivity.
Qed.

(** X20. [fetchArkhamLabels] throws its error exactly when the answers
    that are [ok] hold no EVM address in any entity and no label whose
    [chainType] is [evm]; labels of other chains never make it return. *)
Theorem fetchArkhamLabels_throws_iff
        (entitiesData : option (list entityItem))
        (labelsData : option (list labelItem)) :
  fetchArkhamLabels entitiesData labelsData = None <->
  flat_map evm (answered entitiesData) = [] /\
  evmLabels (answered labelsData) = [].
Proof.
  unfold fetchArkhamLabels, mapValues.
  assert (M : arkhamTagMap entitiesData labelsData = [] <->
              flat_map evm (answered entitiesData) = [] /\
              evmLabels (answered labelsData) = []).
  { unfold arkhamTagMap.
    assert (E : match entitiesData with
                | Some es => setEntities [] es
                | None => []
                end = [] <-> flat_map evm (answered entitiesData) = []).
    { destruct entitiesData as [es|]; cbn [answered flat_map]; [|tauto].
      rewrite setEntities_nil. tauto. }
    destruct labelsData as [ls|]; cbn [answered].
    - rewrite setLabels_nil. tauto.
    - unfold evmLabels. cbn [filter]. tauto. }
  rewrite <- M. destruct (arkhamTagMap entitiesData labelsData) as [|kv m];
    cbn [map]; split; auto; discriminate.
Qed.

(** X21. The import button of the Arkham page never shows
    [No labels found]: when nothing is found [fetchArkhamLabels] throws
    and the button shows [Import failed], so the branch for an empty list
    of records in [importArkhamLabels] is never taken. *)
Theorem importArkhamLabels_never_no_labels
        (entitiesData : option (list entityItem))
        (labelsData : option (list labelItem))
        (respond : list Tag -> option (option nat)) :
  ArkhamPage.importArkhamLabels entitiesData labelsData respond
  <> ArkhamPage.NoLabelsFound /\
  (fetchArkhamLabels entitiesData labelsData = None ->
   ArkhamPage.importArkhamLabels entitiesData labelsData respond
   = ArkhamPage.ImportFailed).
Proof.
  unfold ArkhamPage.importArkhamLabels, fetchArkhamLabels.
  destruct (mapValues (arkhamTagMap entitiesData labelsData)) as [|t ts].
  - split; [discriminate|reflexivity].
  - cbn [length Nat.eqb]. split; [|discriminate].
    destruct (respond (t :: ts)); discriminate.
Qed.

(** ** The links of the Arkham page *)

Lemma selected_processed cache l :
  ArkhamPage.selected (ArkhamPage.processLink cache l) = false.
Proof.
  unfold ArkhamPage.selected, ArkhamPage.processLink.
  destruct (addressIn _); cbn [ArkhamPage.linkClasses ArkhamPage.href];
    rewrite contains_classAdd; cbn [negb]; now rewrite andb_false_r.
Qed.

Lemma handle_once cache cache' l :
  (if ArkhamPage.selected (if ArkhamPage.selected l
                           then ArkhamPage.processLink cache l else l)
   then ArkhamPage.processLink cache'
          (if ArkhamPage.selected l then ArkhamPage.processLink cache l else l)
   else (if ArkhamPage.selected l then ArkhamPage.processLink cache l else l))
  = (if ArkhamPage.selected l then ArkhamPage.processLink cache l else l).
Proof.
  destruct (ArkhamPage.selected l) eqn:S.
  - now rewrite selected_processed.
  - now rewrite S.
Qed.

(** X22. [handleArkhamAddresses] handles a link once: when it runs again
    on the links it has left, with whatever tag cache, nothing changes, so
    no link gets a second pair of listeners and a link handled before its
    tag was known is not highlighted later. One run puts at most one
    [mouseenter] listener on a link, for an address in canonical form. *)
Theorem handleArkhamAddresses_once
        (cache cache' : list (jsstring * tagData)) (links : list ArkhamPage.link) :
  ArkhamPage.handleArkhamAddresses cache'
    (ArkhamPage.handleArkhamAddresses cache links)
  = ArkhamPage.handleArkhamAddresses cache links /\
  Forall2 (fun before after =>
             length (ArkhamPage.mouseenter after)
             <= S (length (ArkhamPage.mouseenter before)) /\
             forall a, In a (ArkhamPage.mouseenter after) ->
                       In a (ArkhamPage.mouseenter before) \/ isCanonical a = true)
          links (ArkhamPage.handleArkhamAddresses cache links).
Proof.
  unfold ArkhamPage.handleArkhamAddresses. split.
  - rewrite map_map. apply map_ext. intros l. apply handle_once.
  - induction links as [|l links IH]; cbn [map]; constructor; auto.
    destruct (ArkhamPage.selected l); [|split; auto].
    unfold ArkhamPage.processLink.
    destruct (addressIn _) as [a|] eqn:A; cbn [ArkhamPage.mouseenter].
    + rewrite length_app. cbn [length]. split; [lia|].
      intros b Hb. apply in_app_or in Hb as [Hb|[<-|[]]]; auto.
      right. now apply addressIn_canonical in A.
    + split; auto.
Qed.

(* ===================================================================== *)
(** * The pages of the SnowScan notes *)
(* ===================================================================== *)

Lemma pagesLoop_requested fetch : forall fuel currentPage tags,
  currentPage + fuel = 101 -> 0 < fuel ->
  exists k, snd (Snowscan.pagesLoop fuel fetch currentPage tags)
            = seq currentPage (S k) /\
            currentPage + k <= 100.
Proof.
  induction fuel as [|fuel IH]; intros p tags E F; [lia|].
  cbn [Snowscan.pagesLoop].
  destruct (negb (Snowscan.ok (fetch p))); [exists 0; split; [reflexivity|lia]|].
  destruct (Snowscan.rowCount (fetch p) =? 0); [exists 0; split; [reflexivity|lia]|].
  destruct (Snowscan.foundNextPage (fetch p) && _);
    [|exists 0; split; [reflexivity|lia]].
  destruct (100 <? S p) eqn:L; [exists 0; split; [reflexivity|lia]|].
  apply Nat.ltb_ge in L.
  destruct (IH (S p) (tags ++ Snowscan.pageTags (fetch p))) as (k & Ek & Hk);
    try lia.
  destruct (Snowscan.pagesLoop fuel fetch (S p) _) as [all requested].
  cbn [snd] in *. exists (S k). rewrite Ek. split; [reflexivity|lia].
Qed.

Lemma pagesLoop_fuel fetch : forall fuel fuel' currentPage tags,
  currentPage <= 100 ->
  100 < currentPage + fuel -> 100 < currentPage + fuel' ->
  Snowscan.pagesLoop fuel fetch currentPage tags
  = Snowscan.pagesLoop fuel' fetch currentPage tags.
Proof.
  induction fuel as [|fuel IH]; intros [|fuel'] p tags P E E'; try lia.
  cbn [Snowscan.pagesLoop].
  destruct (negb _); auto. destruct (_ =? 0); auto. destruct (_ && _); auto.
  destruct (100 <? S p) eqn:L; auto. apply Nat.ltb_ge in L.
  rewrite (IH fuel'); auto; lia.
Qed.

(** X23. Whatever the pages of the notes hold, the loop of
    [fetchSnowscanNotes] ends: it requests page 1, then page 2 and so on
    without a gap, and never more than 100 pages; rounds beyond the
    hundredth change nothing. *)
Theorem fetchSnowscanNotes_page_limit (fetch : nat -> Snowscan.page) (more : nat) :
  Snowscan.pagesLoop (100 + more) fetch 1 [] = Snowscan.pagesLoop 100 fetch 1 [] /\
  exists k, snd (Snowscan.pagesLoop 100 fetch 1 []) = seq 1 (S k) /\ S k <= 100.
Proof.
  split.
  - apply pagesLoop_fuel; lia.
  - destruct (pagesLoop_requested fetch 100 1 []) as (k & E & H); try lia.
    exists k. split; [exact E|lia].
Qed.
